(** * Retrieval and context-assembly pipeline of the chat application

    A shallow embedding of the core functions of the repository:
    - [chunkText]               (lib/documents/processor.ts)
    - [generateEmbeddings], [cosineSimilarity]   (lib/chat/openai.ts)
    - [coalesceChunks]          (scripts/production/generate-document-embeddings.ts)
    - [hybrid_search_simple], [smart_hybrid_search]   (SQL migrations)
    - the merging of consecutive chunks in POST /api/chat   (app/api/chat/route.ts)
    - [scoreResponseHeuristic]  (lib/chat/quality-scorer.ts)
    - [find_relevant_documents], [match_documents], [detect_refusal]
      (SQL migrations and schema)
    - the search call of POST /api/chat and the chunk rows of the upload
      handler
    - [summarizeBatch], [combineSummaries], [generateDocumentSummary]
      (scripts/production/generate-document-embeddings.ts)

    JavaScript strings are sequences of code units; they are modelled as
    lists of 8-bit characters, the code units below 256 (ASCII and
    Latin-1), on which white space and letter case are as in JavaScript.
    JavaScript numbers that the code only uses as integers (lengths,
    offsets, indices) are in [Z]; scores that travel through SQL and JSON
    are finite and modelled as rationals [Q]; the two functions whose
    behaviour depends on IEEE arithmetic ([cosineSimilarity],
    [scoreResponseHeuristic]) use the kernel's binary64 floats. *)

From Stdlib Require Import List ZArith QArith Bool Ascii String Lia.
From Stdlib Require Import Sorting.Sorted Sorting.Permutation.
From Stdlib Require Import Floats DecimalString Lqa.
Import ListNotations.

Set Warnings "-inexact-float".

Local Open Scope Z_scope.

(* ================================================================== *)
(** * JavaScript strings and arrays *)

Module JS.

Definition jsstring := list ascii.

(** A string literal of the source. *)
Definition lit (s : string) : jsstring := list_ascii_of_string s.

Definition str_length (s : jsstring) : Z := Z.of_nat (List.length s).

(** The relative index of [String.prototype.slice] and
    [Array.prototype.slice]: a negative index counts from the end, and
    the result is clamped to [0, len]. *)
Definition rel_index (len i : Z) : Z :=
  if i <? 0 then Z.max (len + i) 0 else Z.min i len.

(** [xs.slice(start, end)] *)
Definition slice {A} (xs : list A) (start end_ : Z) : list A :=
  let len := Z.of_nat (List.length xs) in
  let from := rel_index len start in
  let to := rel_index len end_ in
  firstn (Z.to_nat (to - from)) (skipn (Z.to_nat from) xs).

(** [xs.slice(start)] *)
Definition slice_from {A} (xs : list A) (start : Z) : list A :=
  slice xs start (Z.of_nat (List.length xs)).

(** [a === b] on strings. *)
Fixpoint str_eqb (a b : jsstring) : bool :=
  match a, b with
  | [], [] => true
  | x :: a', y :: b' => Ascii.eqb x y && str_eqb a' b'
  | _, _ => false
  end.

(** [Array.prototype.sort(cmp)] for a consistent comparator: the sort is
    stable, so it is modelled by a stable insertion sort.  [before x y]
    is [cmp(x, y) <= 0]: [x], which came first, stays in front of [y]. *)
Section Sort.
Variable A : Type.
Variable before : A -> A -> bool.

Fixpoint insert_sorted (x : A) (l : list A) : list A :=
  match l with
  | [] => [x]
  | y :: l' => if before x y then x :: l else y :: insert_sorted x l'
  end.

Fixpoint sort (l : list A) : list A :=
  match l with
  | [] => []
  | x :: l' => insert_sorted x (sort l')
  end.
End Sort.
Arguments insert_sorted {A} before x l.
Arguments sort {A} before l.

End JS.

(* ================================================================== *)
(** * Segmenter: chunkText *)

Module Segmenter.
Import JS.

(** The loop state of [chunkText]: the chunks pushed so far and [start]. *)
Record loop_state := { chunks : list jsstring; start : Z }.

(** One test of the [while] condition and, when it holds, one run of the
    body; [None] when the loop exits. *)
Definition chunk_step (text : jsstring) (chunkSize overlap : Z)
    (st : loop_state) : option loop_state :=
  if start st <? str_length text then
    let end_ := Z.min (start st + chunkSize) (str_length text) in
    Some {| chunks := chunks st ++ [slice text (start st) end_];
            start := start st + (chunkSize - overlap) |}
  else None.

(** The [while] loop, run for at most [fuel] iterations: [Some] is the
    returned array, [None] means the loop is still running.  Here every
    [push] succeeds; [chunk_loop_on] below has the length limit of
    arrays, and the two agree on every run whose chunks fit. *)
Fixpoint chunk_loop (fuel : nat) (text : jsstring) (chunkSize overlap : Z)
    (st : loop_state) : option (list jsstring) :=
  match chunk_step text chunkSize overlap st with
  | None => Some (chunks st)
  | Some st' =>
      match fuel with
      | O => None
      | S fuel' => chunk_loop fuel' text chunkSize overlap st'
      end
  end.

Definition chunkText_fuel (fuel : nat) (text : jsstring)
    (chunkSize overlap : Z) : option (list jsstring) :=
  chunk_loop fuel text chunkSize overlap {| chunks := []; start := 0 |}.

(** [chunkText(text, chunkSize, overlap)]; the loop runs at most
    [text.length] times when it advances at all. *)
Definition chunkText (text : jsstring) (chunkSize overlap : Z)
    : option (list jsstring) :=
  chunkText_fuel (List.length text) text chunkSize overlap.

Definition default_chunkSize : Z := 1000.
Definition default_overlap : Z := 200.

(** Arrays are bounded: an array holds at most [max_length] elements
    (fewer than [2^32] by the language, fewer on the engines), and the
    [push] that would make it longer throws
    [RangeError: Invalid array length]. *)
Inductive js_error := RangeError_invalid_array_length.

(** How a call ends: with the value it returns, or with the error it
    throws. *)
Inductive completion (A : Type) : Type :=
| Returned (a : A)
| Thrown (e : js_error).
Arguments Returned {A} a.
Arguments Thrown {A} e.

(** The [while] loop on an engine whose arrays have [room] free
    elements left.  Each run of the body pushes one chunk; when the
    array is full the push throws.  The loop ends in either case. *)
Fixpoint chunk_loop_on (room : nat) (text : jsstring) (chunkSize overlap : Z)
    (st : loop_state) : completion (list jsstring) :=
  match chunk_step text chunkSize overlap st with
  | None => Returned (chunks st)
  | Some st' =>
      match room with
      | O => Thrown RangeError_invalid_array_length
      | S room' => chunk_loop_on room' text chunkSize overlap st'
      end
  end.

(** [chunkText(text, chunkSize, overlap)] on an engine whose arrays hold
    at most [max_length] elements. *)
Definition chunkText_on (max_length : nat) (text : jsstring)
    (chunkSize overlap : Z) : completion (list jsstring) :=
  chunk_loop_on max_length text chunkSize overlap
    {| chunks := []; start := 0 |}.

(** [ceil(a / b)] for positive [b]. *)
Definition ceil_div (a b : Z) : Z := (a + b - 1) / b.

(** The chunk count as the specification words it:
    [ceil(max(1, len - overlap) / (size - overlap))]. *)
Definition spec_chunk_count (len size overlap : Z) : Z :=
  ceil_div (Z.max 1 (len - overlap)) (size - overlap).

(** The chunk count of the loop: [ceil(len / (size - overlap))]. *)
Definition chunk_count (len size overlap : Z) : Z :=
  ceil_div len (size - overlap).

(** The [j]-th window of the loop. *)
Definition window (text : jsstring) (chunkSize overlap : Z) (j : nat) :=
  slice text (Z.of_nat j * (chunkSize - overlap))
    (Z.min (Z.of_nat j * (chunkSize - overlap) + chunkSize) (str_length text)).

End Segmenter.

(* ================================================================== *)
(** * Summarizer: coalesceChunks *)

Module Summarizer.
Import JS.

(** A row of [document_chunks] as the script selects it. *)
Record chunk := { chunk_text : jsstring }.

(** The values of [overlapSize] that the inner [for] loop visits, in
    order: [n] values counting down from [k]. *)
Fixpoint countdown (n : nat) (k : Z) : list Z :=
  match n with
  | O => []
  | S n' => k :: countdown n' (k - 1)
  end.

(** [for (overlapSize = m; overlapSize >= 50; overlapSize--)] *)
Definition overlap_candidates (m : Z) : list Z :=
  countdown (Z.to_nat (m - 49)) m.

(** The test of the inner loop body:
    [result.slice(-overlapSize) === currentChunk.slice(0, overlapSize)]. *)
Definition overlap_matches (result currentChunk : jsstring)
    (overlapSize : Z) : bool :=
  str_eqb (slice_from result (- overlapSize)) (slice currentChunk 0 overlapSize).

(** The inner loop: the first (largest) matching [overlapSize], if any. *)
Definition find_overlap (result currentChunk : jsstring) : option Z :=
  find (overlap_matches result currentChunk)
    (overlap_candidates
       (Z.min 400 (Z.min (str_length result) (str_length currentChunk)))).

Definition newline : jsstring := ["010"%char].

(** One iteration of the outer loop. *)
Definition append_chunk (result : jsstring) (c : chunk) : jsstring :=
  let currentChunk := chunk_text c in
  match find_overlap result currentChunk with
  | Some overlapSize => result ++ slice_from currentChunk overlapSize
  | None => result ++ newline ++ currentChunk
  end.

Definition coalesceChunks (chunks : list chunk) : jsstring :=
  match chunks with
  | [] => []
  | [c] => chunk_text c
  | c0 :: rest => fold_left append_chunk rest (chunk_text c0)
  end.

(** Fifty characters shared by the end of one chunk and the start of
    the next. *)
Definition shared50 : jsstring :=
  lit "The quick brown fox jumps over the lazy dog again.".

End Summarizer.

(* ================================================================== *)
(** * Embedder client: generateEmbeddings *)

Module Embedder.
Import JS.

(** The result of awaiting a promise. *)
Inductive outcome (E A : Type) : Type :=
| Resolved (a : A)
| Rejected (e : E).
Arguments Resolved {E A} a.
Arguments Rejected {E A} e.

(** An element of [response.data]. *)
Record item (V : Type) := { index : Z; embedding : V }.
Arguments index {V} i.
Arguments embedding {V} i.

Definition BATCH_SIZE : Z := 2048.

Section Client.
(** Embedding vectors and the errors of the service are opaque. *)
Variables V E : Type.
(** [openai.embeddings.create({model, input: batch})], awaited. *)
Variable embeddings_create : list jsstring -> outcome E (list (item V)).

(** [response.data.sort((a, b) => a.index - b.index).map(item => item.embedding)] *)
Definition extract_embeddings (data : list (item V)) : list V :=
  map embedding (sort (fun a b => index a - index b <=? 0) data).

(** The [for] loop over batches, for at most [fuel] iterations.  An
    error thrown by the awaited call leaves the loop; the [catch] block
    logs it and throws it again. *)
Fixpoint embed_loop (fuel : nat) (texts : list jsstring) (i : Z)
    (allEmbeddings : list V) : option (outcome E (list V)) :=
  if i <? Z.of_nat (List.length texts) then
    match fuel with
    | O => None
    | S fuel' =>
        let batch := slice texts i (i + BATCH_SIZE) in
        match embeddings_create batch with
        | Rejected e => Some (Rejected e)
        | Resolved data =>
            embed_loop fuel' texts (i + BATCH_SIZE)
              (allEmbeddings ++ extract_embeddings data)
        end
    end
  else Some (Resolved allEmbeddings).

Definition generateEmbeddings (texts : list jsstring)
    : option (outcome E (list V)) :=
  embed_loop (List.length texts) texts 0 [].

(** The [j]-th batch and the number of batches. *)
Definition batch_at (texts : list jsstring) (j : nat) : list jsstring :=
  slice texts (Z.of_nat j * BATCH_SIZE) (Z.of_nat j * BATCH_SIZE + BATCH_SIZE).

Definition batch_count (texts : list jsstring) : nat :=
  Z.to_nat (Segmenter.ceil_div (Z.of_nat (List.length texts)) BATCH_SIZE).

(** What the service returned for a batch, in index order (nothing when
    the call failed). *)
Definition returned_for (batch : list jsstring) : list V :=
  match embeddings_create batch with
  | Resolved data => extract_embeddings data
  | Rejected _ => []
  end.

End Client.
Arguments extract_embeddings {V} data.
Arguments embed_loop {V E} embeddings_create fuel texts i allEmbeddings.
Arguments generateEmbeddings {V E} embeddings_create texts.
Arguments returned_for {V E} embeddings_create batch.

(** A service that answers every request with an empty [data] array,
    and one that answers every text with the same one-number vector. *)
Definition silent_service (batch : list jsstring)
    : outcome unit (list (item (list Q))) :=
  Resolved [].

Definition constant_service (batch : list jsstring)
    : outcome unit (list (item (list Q))) :=
  Resolved (map (fun i => {| index := Z.of_nat i; embedding := [1%Q] |})
              (seq 0 (List.length batch))).

End Embedder.

(* ================================================================== *)
(** * cosineSimilarity *)

Module Similarity.

(** The three running sums of the [for] loop over [a]'s indices.  Reading
    [b[i]] past the end of [b] gives [undefined], which arithmetic turns
    into NaN. *)
Fixpoint cosine_sums (a b : list float) (dotProduct normA normB : float)
    : float * float * float :=
  match a with
  | [] => (dotProduct, normA, normB)
  | ai :: a' =>
      let bi := hd nan b in
      cosine_sums a' (tl b)
        (dotProduct + ai * bi)%float
        (normA + ai * ai)%float
        (normB + bi * bi)%float
  end.

Definition cosineSimilarity (a b : list float) : float :=
  let '(dotProduct, normA, normB) := cosine_sums a b 0%float 0%float 0%float in
  (dotProduct / (sqrt normA * sqrt normB))%float.

(** A number that is a zero or NaN: what a sum of products with zeros
    can be. *)
Definition zero_or_nan (x : float) : Prop :=
  match Prim2SF x with
  | S754_zero _ | S754_nan => True
  | _ => False
  end.

End Similarity.

(* ================================================================== *)
(** * Quality scorer: scoreResponseHeuristic *)

Module QualityScorer.
Import JS.

Record QualityScores := {
  relevance : float;
  completeness : float;
  accuracy : float;
  coherence : float;
  overall : float;
  reasoning : jsstring
}.

Definition code (c : ascii) : N := N_of_ascii c.

(** [/[A-Z]/] *)
Definition is_upper (c : ascii) : bool :=
  ((65 <=? code c) && (code c <=? 90))%N.

(** The code units below 256 that [toLowerCase] changes: A-Z, and the
    capital letters of Latin-1, U+00C0 to U+00DE without the
    multiplication sign U+00D7.  Each is 32 below its small letter. *)
Definition has_lower_case (c : ascii) : bool :=
  (((65 <=? code c) && (code c <=? 90))
   || ((192 <=? code c) && (code c <=? 222) && negb (code c =? 215)))%N.

Definition lower_char (c : ascii) : ascii :=
  if has_lower_case c then ascii_of_N (code c + 32) else c.

(** [s.toLowerCase()] on code units below 256. *)
Definition toLowerCase (s : jsstring) : jsstring := map lower_char s.

Fixpoint startsWith (s prefix : jsstring) : bool :=
  match prefix, s with
  | [], _ => true
  | p :: prefix', c :: s' => Ascii.eqb p c && startsWith s' prefix'
  | _ :: _, [] => false
  end.

(** [s.includes(sub)] on strings. *)
Fixpoint includes (s sub : jsstring) : bool :=
  startsWith s sub ||
  match s with
  | [] => false
  | _ :: s' => includes s' sub
  end.

(** [words.includes(word)] on arrays of strings. *)
Definition array_includes (words : list jsstring) (word : jsstring) : bool :=
  existsb (str_eqb word) words.

(** [\s] on code units below 256: tab, line feed, vertical tab, form
    feed, carriage return, space, and the no-break space U+00A0. *)
Definition is_space (c : ascii) : bool :=
  (((9 <=? code c) && (code c <=? 13)) || (code c =? 32)
   || (code c =? 160))%N.

(** [s.split(/\s+/)]: [cur] is the current piece, reversed; [in_ws]
    tells that the previous character was white space.  A separator at
    either end leaves an empty piece there. *)
Fixpoint split_ws (s : jsstring) (cur : jsstring) (in_ws : bool)
    : list jsstring :=
  match s with
  | [] => [rev cur]
  | c :: s' =>
      if is_space c then
        if in_ws then split_ws s' cur true
        else rev cur :: split_ws s' [] true
      else split_ws s' (c :: cur) false
  end.

Definition split_whitespace (s : jsstring) : list jsstring :=
  split_ws s [] false.

(** [/[.!?]/.test(s)] and [/[A-Z]/.test(s)] *)
Definition hasPunctuation (s : jsstring) : bool :=
  existsb (fun c => ((code c =? 46) || (code c =? 33) || (code c =? 63))%N) s.

Definition hasCapitalization (s : jsstring) : bool := existsb is_upper s.

Definition refusalPhrases : list jsstring :=
  [ lit "does not contain";
    lit "I don't have";
    lit "cannot find";
    lit "no information";
    lit "I'm sorry" ].

Definition hasRefusal (response : jsstring) : bool :=
  existsb (fun phrase => includes (toLowerCase response) (toLowerCase phrase))
    refusalPhrases.

(** The number of the first 100 context words, longer than four
    characters, that are among the response's words. *)
Definition contextOverlap (context response : jsstring) : Z :=
  let contextWords := slice (split_whitespace (toLowerCase context)) 0 100 in
  let responseWords := split_whitespace (toLowerCase response) in
  Z.of_nat (List.length
    (filter (fun word => (4 <? str_length word) && array_includes responseWords word)
       contextWords)).

(** [Math.min(x, y)] *)
Definition Math_min (x y : float) : float :=
  if is_nan x || is_nan y then nan
  else if (x <? y)%float then x
  else if (y <? x)%float then y
  else if get_sign x then x else y.

(** [String(n)] for an integer. *)
Definition number_to_string (n : Z) : jsstring :=
  lit (DecimalString.NilZero.string_of_int (Z.to_int n)).

Section Heuristic.
(** [x.toFixed(0)]; the decimal rendering of a double is left to the
    runtime. *)
Variable toFixed0 : float -> jsstring.

Definition scoreResponseHeuristic (query context response : jsstring)
    (chunksRetrieved : Z) (avgSimilarity : float) : QualityScores :=
  (* Relevance: based on retrieval quality *)
  let relevance :=
    if (0.8 <=? avgSimilarity)%float then 0.9%float
    else if (0.7 <=? avgSimilarity)%float then 0.75%float
    else if (0.6 <=? avgSimilarity)%float then 0.6%float
    else 0.4%float in
  (* Penalize if no chunks were retrieved *)
  let relevance := if chunksRetrieved =? 0 then 0.2%float else relevance in
  (* Accuracy: check for refusal phrases *)
  let '(accuracy, completeness, reasoning) :=
    if hasRefusal response
    then (0.3%float, 0.2%float,
          lit "Response indicates information not found in context.")
    else (0.7%float, 0.7%float, []) in
  (* Completeness: based on response length *)
  let completeness :=
    if str_length response <? 100 then (completeness * 0.6)%float
    else if 1500 <? str_length response then (completeness * 0.8)%float
    else completeness in
  (* Coherence: check basic structure *)
  let coherence :=
    if hasPunctuation response && hasCapitalization response
    then 0.7%float else 0.5%float in
  (* Check if response uses context *)
  let accuracy :=
    if 10 <? contextOverlap context response
    then Math_min 1.0%float (accuracy + 0.2)%float
    else accuracy in
  let overall := ((relevance + completeness + accuracy + coherence) / 4)%float in
  let reasoning :=
    match reasoning with
    | [] =>
        lit "Heuristic scoring: " ++ number_to_string chunksRetrieved
        ++ lit " chunks, " ++ toFixed0 (avgSimilarity * 100)%float
        ++ lit "% similarity, " ++ number_to_string (str_length response)
        ++ lit " chars."
    | _ :: _ => reasoning
    end in
  {| relevance := relevance;
     completeness := completeness;
     accuracy := accuracy;
     coherence := coherence;
     overall := overall;
     reasoning := reasoning |}.

End Heuristic.

(** A rendering of [toFixed(0)] for examples; the claims do not depend
    on it. *)
Definition unrendered (x : float) : jsstring := lit "?".

Definition refusal_response : jsstring :=
  lit "I cannot find hello world in the documents.".

(** Eleven context words that the response above repeats. *)
Definition repeated_context : jsstring :=
  lit "hello hello hello hello hello hello hello hello hello hello hello".

(** The same words, each followed by a no-break space, as text taken
    from a PDF or a DOCX file may have them. *)
Definition no_break_space : ascii := "160"%char.

Definition no_break_context : jsstring :=
  List.concat (repeat (lit "hello" ++ [no_break_space]) 11).

End QualityScorer.

(* ================================================================== *)
(** * Rows returned by the hybrid search *)

Module Rows.
Import JS.

Definition uuid := jsstring.

(** The values of the column [rank_method]; [keyword_only] is written
    by the first version of the search functions only. *)
Inductive rank_tag :=
  hybrid | partial_keyword | vector_only | keyword_only.

(** A row of the table that [hybrid_search_simple] and
    [smart_hybrid_search] return, and an element of [relevantChunks] in
    the chat route.  Only [smart_hybrid_search] has the column
    [document_similarity]. *)
Record ScoredChunk := {
  id : uuid;
  document_id : uuid;
  chunk_text : jsstring;
  chunk_index : Z;
  bm25_score : Q;
  vector_score : Q;
  combined_score : Q;
  document_similarity : option Q;
  rank_method : rank_tag
}.

End Rows.

(* ================================================================== *)
(** * Context assembler: merging consecutive chunks (POST /api/chat) *)

Module Assembler.
Import JS Rows.

Record MergedChunk := {
  m_document_id : uuid;
  chunk_ids : list uuid;
  chunk_indices : list Z;
  merged_text : jsstring;
  avg_combined_score : Q;
  max_combined_score : Q;
  max_bm25_score : Q;
  max_vector_score : Q;
  max_document_similarity : Q;
  avg_bm25_score : Q;
  avg_vector_score : Q;
  avg_document_similarity : Q
}.

(** [x || 0] on a number that may be missing. *)
Definition or_zero (x : option Q) : Q :=
  match x with
  | Some v => if Qeq_bool v 0 then 0%Q else v
  | None => 0%Q
  end.

Definition max2 (x y : Q) : Q := if Qle_bool x y then y else x.

(** [Math.max(...xs)] of a nonempty array (the empty one, which gives
    [-Infinity], does not occur: a group holds at least one chunk). *)
Definition Math_max (xs : list Q) : Q :=
  match xs with
  | [] => 0%Q
  | x :: xs' => fold_left max2 xs' x
  end.

(** [xs.reduce((sum, x) => sum + x, 0) / xs.length] *)
Definition average (xs : list Q) : Q :=
  (fold_left Qplus xs 0 / inject_Z (Z.of_nat (List.length xs)))%Q.

(** [parts.join(sep)] *)
Fixpoint join (sep : jsstring) (parts : list jsstring) : jsstring :=
  match parts with
  | [] => []
  | [p] => p
  | p :: parts' => p ++ sep ++ join sep parts'
  end.

Definition createMergedChunk (chunks : list ScoredChunk) : MergedChunk :=
  let combined := map (fun c => or_zero (Some (combined_score c))) chunks in
  let bm25 := map (fun c => or_zero (Some (bm25_score c))) chunks in
  let vector := map (fun c => or_zero (Some (vector_score c))) chunks in
  let docsim := map (fun c => or_zero (document_similarity c)) chunks in
  {| m_document_id := match chunks with c :: _ => document_id c | [] => [] end;
     chunk_ids := map id chunks;
     chunk_indices := map chunk_index chunks;
     merged_text := join (lit " ") (map chunk_text chunks);
     avg_combined_score := average combined;
     max_combined_score := Math_max combined;
     max_bm25_score := Math_max bm25;
     max_vector_score := Math_max vector;
     max_document_similarity := Math_max docsim;
     avg_bm25_score := average bm25;
     avg_vector_score := average vector;
     avg_document_similarity := average docsim |}.

(** The [Map] from document id to the chunks of that document, in
    insertion order: [chunksByDocument.get(k).push(c)], after an empty
    array was set for a key that is new. *)
Fixpoint map_push (m : list (uuid * list ScoredChunk)) (k : uuid)
    (c : ScoredChunk) : list (uuid * list ScoredChunk) :=
  match m with
  | [] => [(k, [c])]
  | (k', cs) :: m' =>
      if str_eqb k' k then (k', cs ++ [c]) :: m'
      else (k', cs) :: map_push m' k c
  end.

Definition chunksByDocument (relevantChunks : list ScoredChunk)
    : list (uuid * list ScoredChunk) :=
  fold_left (fun m c => map_push m (document_id c) c) relevantChunks [].

(** The walk over one document's sorted chunks: [currentGroup] grows
    while the next index is the last one plus one; otherwise the group is
    finished and a new one starts.  The result lists the finished groups
    in order, the last group included. *)
Fixpoint consecutive_groups (currentGroup rest : list ScoredChunk)
    : list (list ScoredChunk) :=
  match rest with
  | [] => [currentGroup]
  | c :: rest' =>
      match rev currentGroup with
      | lastInGroup :: _ =>
          if chunk_index c =? chunk_index lastInGroup + 1
          then consecutive_groups (currentGroup ++ [c]) rest'
          else currentGroup :: consecutive_groups [c] rest'
      | [] => currentGroup :: consecutive_groups [c] rest'
      end
  end.

(** The body of [chunksByDocument.forEach]: what it pushes onto
    [mergedChunks] for one document. *)
Definition merge_document (chunks : list ScoredChunk) : list MergedChunk :=
  match sort (fun a b => chunk_index a - chunk_index b <=? 0) chunks with
  | [] => []
  | c0 :: rest => map createMergedChunk (consecutive_groups [c0] rest)
  end.

(** [mergedChunks] after the final sort by [max_combined_score],
    best match first. *)
Definition mergeChunks (relevantChunks : list ScoredChunk) : list MergedChunk :=
  sort (fun a b => Qle_bool (max_combined_score b - max_combined_score a) 0)
    (flat_map (fun entry => merge_document (snd entry))
       (chunksByDocument relevantChunks)).

(** [relevantChunks] is [null] when the search failed. *)
Definition mergedChunks_of (relevantChunks : option (list ScoredChunk))
    : list MergedChunk :=
  match relevantChunks with
  | Some (c :: cs) => mergeChunks (c :: cs)
  | _ => []
  end.

(** The context passed to the completion. *)
Definition build_context (mergedChunks : list MergedChunk) : jsstring :=
  join (lit (String "010" (String "010" EmptyString)))
    (map merged_text mergedChunks).

(** What holds of the map after the chunks [seen] were pushed: keys are
    distinct, and the entry of a document holds exactly its chunks. *)
Definition groups_ok (seen : list ScoredChunk)
    (m : list (uuid * list ScoredChunk)) : Prop :=
  NoDup (map fst m) /\
  (forall d cs, In (d, cs) m ->
     cs <> [] /\ forall c, In c cs <-> (In c seen /\ document_id c = d)) /\
  (forall c, In c seen -> In (document_id c) (map fst m)).

(** Chunks of one document are told apart by their index. *)
Definition index_identifies_chunk (chunks : list ScoredChunk) : Prop :=
  forall x y, In x chunks -> In y chunks ->
    document_id x = document_id y -> chunk_index x = chunk_index y -> x = y.

(** Example rows. *)
Definition row (doc : string) (i : Z) (score : Q) : ScoredChunk :=
  {| id := lit doc ++ lit "#" ++ QualityScorer.number_to_string i;
     document_id := lit doc;
     chunk_text := lit "text";
     chunk_index := i;
     bm25_score := 0;
     vector_score := score;
     combined_score := score;
     document_similarity := None;
     rank_method := vector_only |}.

Definition example_rows : list ScoredChunk :=
  [ row "A" 2 (6#10); row "B" 0 (9#10); row "A" 0 (7#10); row "A" 3 (8#10) ].

End Assembler.

(* ================================================================== *)
(** * Hybrid scorer: hybrid_search_simple and smart_hybrid_search *)

Module HybridSearch.
Import JS Rows.

Definition lexeme := jsstring.

(** A [tsvector] built by [to_tsvector]: the lexemes of a text in the
    order of their positions. *)
Definition tsvector := list lexeme.

(** A [tsquery] without negation, phrase operators or parentheses, which
    is all that [plainto_tsquery] and the replacement of [&] by [|] build:
    a disjunction of conjunctions of lexemes ([&] binds tighter than [|]).
    The empty list is the empty query. *)
Definition tsquery := list (list lexeme).

(** The text of a [tsquery], as the cast [::text] prints it and
    [to_tsquery] reads it: quoted lexemes separated by [ & ] and [ | ]. *)
Inductive qtoken := TLex (l : lexeme) | TAmp | TBar.

Fixpoint and_text (ls : list lexeme) : list qtoken :=
  match ls with
  | [] => []
  | [l] => [TLex l]
  | l :: ls' => TLex l :: TAmp :: and_text ls'
  end.

(** [q::text] *)
Fixpoint tsquery_out (q : tsquery) : list qtoken :=
  match q with
  | [] => []
  | [g] => and_text g
  | g :: q' => and_text g ++ TBar :: tsquery_out q'
  end.

(** [replace(text, ' & ', ' | ')] *)
Definition replace_amp_bar (text : list qtoken) : list qtoken :=
  map (fun t => match t with TAmp => TBar | _ => t end) text.

(** The operands of a query text, grouped by [|] and then by [&];
    [None] is a syntax error. *)
Fixpoint parse_query (text : list qtoken) : option (list (list lexeme)) :=
  match text with
  | [] => Some []
  | [TLex l] => Some [[l]]
  | TLex l :: TAmp :: rest =>
      match parse_query rest with
      | Some (g :: q) => Some ((l :: g) :: q)
      | _ => None
      end
  | TLex l :: TBar :: rest =>
      match parse_query rest with
      | Some (g :: q) => Some ([l] :: g :: q)
      | _ => None
      end
  | _ => None
  end.

(** [v @@ q] *)
Definition ts_match (v : tsvector) (q : tsquery) : bool :=
  existsb (forallb (fun l => existsb (str_eqb l) v)) q.

Record document (vector : Type) := {
  doc_id : uuid;
  company_id : uuid;
  document_embedding : option vector
}.
Arguments doc_id {vector} d.
Arguments company_id {vector} d.
Arguments document_embedding {vector} d.

Record document_chunk (vector : Type) := {
  dc_id : uuid;
  dc_document_id : uuid;
  dc_chunk_text : jsstring;
  dc_chunk_index : Z;
  embedding : option vector
}.
Arguments dc_id {vector} d.
Arguments dc_document_id {vector} d.
Arguments dc_chunk_text {vector} d.
Arguments dc_chunk_index {vector} d.
Arguments embedding {vector} d.

Definition Qgt_bool (x y : Q) : bool := negb (Qle_bool x y).

Section Database.
(** pgvector: the type [vector] and the cosine distance [<=>]. *)
Variable vector : Type.
Variable cosine_distance : vector -> vector -> Q.
(** Full-text search, configuration [english]: the parser that cuts a
    text into words, the dictionaries that turn a word into a lexeme
    ([None] for a stop word), and the cover-density ranking. *)
Variable ts_parse : jsstring -> list jsstring.
Variable lexize : jsstring -> option lexeme.
Variable ts_rank_cd : tsvector -> tsquery -> Z -> Q.

(** The tables. *)
Variable documents : list (document vector).
Variable document_chunks : list (document_chunk vector).

Definition normalize (words : list jsstring) : list lexeme :=
  flat_map (fun w => match lexize w with Some l => [l] | None => [] end) words.

(** [to_tsvector('english', text)] *)
Definition to_tsvector (text : jsstring) : tsvector :=
  normalize (ts_parse text).

(** [plainto_tsquery('english', text)]: the lexemes of the text, joined
    by [&]. *)
Definition plainto_tsquery (text : jsstring) : tsquery :=
  match normalize (ts_parse text) with
  | [] => []
  | ls => [ls]
  end.

(** [to_tsquery('english', text)]: the operands are normalized again;
    stop words and what becomes empty are dropped. *)
Definition to_tsquery (text : list qtoken) : option tsquery :=
  match parse_query text with
  | Some q =>
      Some (filter (fun g => negb (Nat.eqb (List.length g) 0))
              (map normalize q))
  | None => None
  end.

(** [bm25_rank] of migration 03. *)
Definition bm25_rank (v : tsvector) (q : tsquery) : Q := ts_rank_cd v q 32.

(** [document_chunks dc INNER JOIN documents d ON dc.document_id = d.id] *)
Definition joined : list (document_chunk vector * document vector) :=
  flat_map (fun dc =>
      map (pair dc)
        (filter (fun d => str_eqb (dc_document_id dc) (doc_id d)) documents))
    document_chunks.

(** [1 - (e <=> query_embedding)]; NULL when the embedding is NULL. *)
Definition similarity (e : option vector) (query_embedding : vector)
    : option Q :=
  match e with
  | Some v => Some (1 - cosine_distance v query_embedding)%Q
  | None => None
  end.

(** [filter_company_id IS NULL OR d.company_id = filter_company_id] *)
Definition company_ok (filter_company_id : option uuid)
    (d : document vector) : bool :=
  match filter_company_id with
  | None => true
  | Some c => str_eqb (company_id d) c
  end.

(** [relevant_doc_ids IS NULL OR d.id = ANY(relevant_doc_ids)] *)
Definition document_ok (relevant_doc_ids : option (list uuid))
    (d : document vector) : bool :=
  match relevant_doc_ids with
  | None => true
  | Some ids => existsb (str_eqb (doc_id d)) ids
  end.

(** The CTE [vector_results]: the rows of the join whose vector score
    is above the threshold, with that score. *)
Definition vector_results (query_embedding : vector) (match_threshold : Q)
    (filter_company_id : option uuid) (relevant_doc_ids : option (list uuid))
    : list (document_chunk vector * document vector * Q) :=
  flat_map (fun row =>
      let '(dc, d) := row in
      match similarity (embedding dc) query_embedding with
      | Some vector_score =>
          if Qgt_bool vector_score match_threshold
             && company_ok filter_company_id d
             && document_ok relevant_doc_ids d
          then [(dc, d, vector_score)]
          else []
      | None => []
      end)
    joined.

(** The CTE [scored_results] and the final [SELECT] list, for one row
    of [vector_results]: the BM25 rank is taken against the OR query,
    the boolean match against the AND query. *)
Definition scored_row (query_tsquery_and query_tsquery_or : tsquery)
    (query_embedding : vector) (bm25_weight vector_weight : Q)
    (with_document_similarity : bool)
    (v : document_chunk vector * document vector * Q) : ScoredChunk :=
  let '(dc, d, v_score) := v in
  let bm25 := bm25_rank (to_tsvector (dc_chunk_text dc)) query_tsquery_or in
  let is_boolean_match :=
    ts_match (to_tsvector (dc_chunk_text dc)) query_tsquery_and in
  {| id := dc_id dc;
     document_id := dc_document_id dc;
     chunk_text := dc_chunk_text dc;
     chunk_index := dc_chunk_index dc;
     bm25_score := bm25;
     vector_score := v_score;
     combined_score := (bm25 * bm25_weight + v_score * vector_weight)%Q;
     document_similarity :=
       if with_document_similarity
       then similarity (document_embedding d) query_embedding
       else None;
     rank_method :=
       if is_boolean_match then hybrid
       else if Qgt_bool bm25 0 then partial_keyword
       else vector_only |}.

(** [ORDER BY combined_score DESC LIMIT match_count]; a negative limit
    is an error. *)
Definition order_and_limit (match_count : Z) (rows : list ScoredChunk)
    : option (list ScoredChunk) :=
  if match_count <? 0 then None
  else Some (firstn (Z.to_nat match_count)
               (sort (fun a b => Qle_bool (combined_score b) (combined_score a))
                  rows)).

(** The body shared by the two functions: both build the AND query and
    the OR query from [query_text], score the rows of [vector_results],
    order them and cut the result. *)
Definition search (with_document_similarity : bool)
    (relevant_doc_ids : option (list uuid))
    (query_text : jsstring) (query_embedding : vector)
    (match_threshold : Q) (match_count : Z) (filter_company_id : option uuid)
    (bm25_weight vector_weight : Q) : option (list ScoredChunk) :=
  let query_tsquery_and := plainto_tsquery query_text in
  match to_tsquery (replace_amp_bar (tsquery_out query_tsquery_and)) with
  | None => None
  | Some query_tsquery_or =>
      order_and_limit match_count
        (map (scored_row query_tsquery_and query_tsquery_or query_embedding
                bm25_weight vector_weight with_document_similarity)
           (vector_results query_embedding match_threshold
              filter_company_id relevant_doc_ids))
  end.

(** [hybrid_search_simple], the version with OR logic. *)
Definition hybrid_search_simple (query_text : jsstring)
    (query_embedding : vector) (match_threshold : Q) (match_count : Z)
    (filter_company_id : option uuid) (bm25_weight vector_weight : Q)
    : option (list ScoredChunk) :=
  search false None query_text query_embedding match_threshold match_count
    filter_company_id bm25_weight vector_weight.

(** [find_relevant_documents] of migration 05, its [id] column. *)
Definition find_relevant_documents (query_embedding : vector)
    (similarity_threshold : Q) (company_id_filter : option uuid)
    : list uuid :=
  let relevant :=
    flat_map (fun d =>
        match document_embedding d with
        | Some e =>
            if company_ok company_id_filter d
               && Qgt_bool (1 - cosine_distance e query_embedding)
                    similarity_threshold
            then [(d, cosine_distance e query_embedding)]
            else []
        | None => []
        end)
      documents in
  map (fun r => doc_id (fst r))
    (firstn 10 (sort (fun a b => Qle_bool (snd a) (snd b)) relevant)).

(** [SELECT ARRAY_AGG(d.id) INTO relevant_doc_ids]: NULL when no
    document is relevant. *)
Definition relevant_documents (query_embedding : vector)
    (document_similarity_threshold : Q) (filter_company_id : option uuid)
    : option (list uuid) :=
  match find_relevant_documents query_embedding
          document_similarity_threshold filter_company_id with
  | [] => None
  | ids => Some ids
  end.

(** [smart_hybrid_search], the version with OR logic. *)
Definition smart_hybrid_search (query_text : jsstring)
    (query_embedding : vector) (match_threshold : Q) (match_count : Z)
    (filter_company_id : option uuid) (document_similarity_threshold : Q)
    (bm25_weight vector_weight : Q) : option (list ScoredChunk) :=
  search true
    (relevant_documents query_embedding document_similarity_threshold
       filter_company_id)
    query_text query_embedding match_threshold match_count
    filter_company_id bm25_weight vector_weight.

(** ** The earlier versions, replaced by the ones above *)

(** [hybrid_search_simple] as the "improved" migration defined it: the
    BM25 rank of every row of [vector_results] is taken against the AND
    query. *)
Definition hybrid_search_simple_improved (query_text : jsstring)
    (query_embedding : vector) (match_threshold : Q) (match_count : Z)
    (filter_company_id : option uuid) (bm25_weight vector_weight : Q)
    : option (list ScoredChunk) :=
  let query_tsquery := plainto_tsquery query_text in
  order_and_limit match_count
    (map (scored_row query_tsquery query_tsquery query_embedding
            bm25_weight vector_weight false)
       (vector_results query_embedding match_threshold filter_company_id None)).

(** The CTE [keyword_results] of migration 03: the rows of the join that
    match the AND query, with their BM25 rank. *)
Definition keyword_results (query_tsquery : tsquery)
    (filter_company_id : option uuid)
    : list (document_chunk vector * Q) :=
  flat_map (fun row =>
      let '(dc, d) := row in
      if ts_match (to_tsvector (dc_chunk_text dc)) query_tsquery
         && company_ok filter_company_id d
      then [(dc, bm25_rank (to_tsvector (dc_chunk_text dc)) query_tsquery)]
      else [])
    joined.

(** A row of the CTE [combined]: [k] and [v] are the two sides of the
    [FULL OUTER JOIN], one of which may be NULL. *)
Definition combined_row (bm25_weight vector_weight : Q)
    (k : option (document_chunk vector * Q))
    (v : option (document_chunk vector * Q)) : list ScoredChunk :=
  let bm25 := match k with Some (_, b) => b | None => 0%Q end in
  let v_score := match v with Some (_, s) => s | None => 0%Q end in
  let rank :=
    match k, v with
    | Some _, Some _ => hybrid
    | Some _, None => keyword_only
    | None, _ => vector_only
    end in
  match k, v with
  | Some (dc, _), _ | None, Some (dc, _) =>
      [ {| id := dc_id dc;
           document_id := dc_document_id dc;
           chunk_text := dc_chunk_text dc;
           chunk_index := dc_chunk_index dc;
           bm25_score := bm25;
           vector_score := v_score;
           combined_score := (bm25 * bm25_weight + v_score * vector_weight)%Q;
           document_similarity := None;
           rank_method := rank |} ]
  | None, None => []
  end.

(** [keyword_results k FULL OUTER JOIN vector_results v ON k.id = v.id] *)
Definition full_outer_join (ks vs : list (document_chunk vector * Q))
    : list (option (document_chunk vector * Q)
            * option (document_chunk vector * Q)) :=
  flat_map (fun k =>
      match filter (fun v => str_eqb (dc_id (fst k)) (dc_id (fst v))) vs with
      | [] => [(Some k, None)]
      | matches => map (fun v => (Some k, Some v)) matches
      end) ks
  ++ flat_map (fun v =>
      if existsb (fun k => str_eqb (dc_id (fst k)) (dc_id (fst v))) ks
      then []
      else [(None, Some v)]) vs.

(** [hybrid_search_simple] as migration 03 defined it. *)
Definition hybrid_search_simple_v03 (query_text : jsstring)
    (query_embedding : vector) (match_threshold : Q) (match_count : Z)
    (filter_company_id : option uuid) (bm25_weight vector_weight : Q)
    : option (list ScoredChunk) :=
  let query_tsquery := plainto_tsquery query_text in
  order_and_limit match_count
    (flat_map (fun kv => combined_row bm25_weight vector_weight (fst kv) (snd kv))
       (full_outer_join
          (keyword_results query_tsquery filter_company_id)
          (map (fun r => (fst (fst r), snd r))
             (vector_results query_embedding match_threshold
                filter_company_id None)))).

(** The lexemes of the query. *)
Definition query_lexemes (query_text : jsstring) : list lexeme :=
  normalize (ts_parse query_text).

(** The chunk text holds the lexeme. *)
Definition has_lexeme (text : jsstring) (l : lexeme) : Prop :=
  In l (to_tsvector text).

(** Every row has a vector score above the threshold, and that score is
    the similarity of a chunk of the join, whose id and text the row
    carries. *)
Definition rows_above_threshold (query_embedding : vector)
    (match_threshold : Q) (rows : list ScoredChunk) : Prop :=
  forall r, In r rows ->
    (match_threshold < vector_score r)%Q /\
    exists dc d,
      In (dc, d) joined /\ id r = dc_id dc /\
      chunk_text r = dc_chunk_text dc /\
      similarity (embedding dc) query_embedding = Some (vector_score r).

(** The OR query that the functions build: [to_tsquery] normalizes the
    lexemes of the query a second time, drops those that become stop
    words, and joins what is left by [|]. *)
Definition or_query (query_text : jsstring) : tsquery :=
  map (fun l => [l]) (normalize (query_lexemes query_text)).

(** The BM25 score of every row is the rank of its chunk against the OR
    query.  A row whose chunk holds what [to_tsquery] makes of a lexeme
    of the query has a positive BM25 score; when the chunk misses
    another lexeme of the query, the row is tagged [partial_keyword]. *)
Definition partial_matches_scored (query_text : jsstring)
    (rows : list ScoredChunk) : Prop :=
  forall r, In r rows ->
    bm25_score r
    = bm25_rank (to_tsvector (chunk_text r)) (or_query query_text) /\
    ((exists l0 l, In l0 (query_lexemes query_text)
                   /\ lexize l0 = Some l
                   /\ has_lexeme (chunk_text r) l) ->
     (0 < bm25_score r)%Q /\
     ((exists l', In l' (query_lexemes query_text)
                  /\ ~ has_lexeme (chunk_text r) l') ->
      rank_method r = partial_keyword)).

(** The [WHERE] clause and the join condition of [vector_results] on a
    chunk and a document of the tables. *)
Definition survives (query_embedding : vector) (match_threshold : Q)
    (filter_company_id : option uuid) (relevant_doc_ids : option (list uuid))
    (dc : document_chunk vector) (d : document vector) : bool :=
  str_eqb (dc_document_id dc) (doc_id d)
  && match similarity (embedding dc) query_embedding with
     | Some vector_score => Qgt_bool vector_score match_threshold
     | None => false
     end
  && company_ok filter_company_id d
  && document_ok relevant_doc_ids d.

(** The number of pairs of a chunk and a document of the tables that
    meet it. *)
Definition survivor_count (query_embedding : vector) (match_threshold : Q)
    (filter_company_id : option uuid) (relevant_doc_ids : option (list uuid))
    : nat :=
  List.length
    (filter (fun p => survives query_embedding match_threshold
                        filter_company_id relevant_doc_ids (fst p) (snd p))
       (list_prod document_chunks documents)).

(** When the limit does not cut, every chunk of the tables that is
    above the threshold (and of the company, and of a relevant document)
    has a row in the result, with its similarity as vector score. *)
Definition survivors_listed (query_embedding : vector) (match_threshold : Q)
    (filter_company_id : option uuid) (relevant_doc_ids : option (list uuid))
    (match_count : Z) (rows : list ScoredChunk) : Prop :=
  Z.of_nat (survivor_count query_embedding match_threshold
              filter_company_id relevant_doc_ids) <= match_count ->
  forall dc d,
    In dc document_chunks -> In d documents ->
    survives query_embedding match_threshold filter_company_id
      relevant_doc_ids dc d = true ->
    exists r, In r rows /\ id r = dc_id dc /\
              chunk_text r = dc_chunk_text dc /\
              similarity (embedding dc) query_embedding
              = Some (vector_score r).

(** What the first definition of [hybrid_search_simple] (migration 03)
    returns: a row has a vector score above the threshold, or it is a
    [keyword_only] row: a chunk that matches the AND query and is not
    above the threshold, returned with the vector score 0. *)
Definition above_or_keyword_only (query_text : jsstring)
    (query_embedding : vector) (match_threshold : Q)
    (rows : list ScoredChunk) : Prop :=
  forall r, In r rows ->
    (match_threshold < vector_score r)%Q \/
    (rank_method r = keyword_only /\ vector_score r = 0%Q /\
     exists dc d,
       In dc document_chunks /\ In d documents /\
       dc_document_id dc = doc_id d /\
       id r = dc_id dc /\ chunk_text r = dc_chunk_text dc /\
       ts_match (to_tsvector (dc_chunk_text dc)) (plainto_tsquery query_text)
       = true /\
       forall s, similarity (embedding dc) query_embedding = Some s ->
                 (s <= match_threshold)%Q).

End Database.
Arguments joined {vector}.
Arguments similarity {vector}.
Arguments company_ok {vector}.
Arguments document_ok {vector}.
Arguments vector_results {vector}.
Arguments scored_row {vector}.
Arguments search {vector}.
Arguments hybrid_search_simple {vector}.
Arguments find_relevant_documents {vector}.
Arguments relevant_documents {vector}.
Arguments smart_hybrid_search {vector}.
Arguments hybrid_search_simple_improved {vector}.
Arguments hybrid_search_simple_v03 {vector}.
Arguments rows_above_threshold {vector}.
Arguments survives {vector}.
Arguments survivor_count {vector}.
Arguments survivors_listed {vector}.
Arguments above_or_keyword_only {vector}.

(** A small database: distances are stored in place of embeddings, the
    parser splits at white space, "the" is the only stop word, and the
    rank is 1/10 for a match. *)
Definition example_distance (e query_embedding : Q) : Q := e.

Definition example_lexize (w : jsstring) : option lexeme :=
  if str_eqb w (lit "the") then None else Some w.

Definition example_rank (v : tsvector) (q : tsquery) (normalization : Z) : Q :=
  if ts_match v q then (1 # 10)%Q else 0%Q.

Definition example_documents : list (document Q) :=
  [ {| doc_id := lit "d1"; company_id := lit "acme";
       document_embedding := Some (2 # 10)%Q |} ].

Definition example_chunks : list (document_chunk Q) :=
  [ {| dc_id := lit "c0"; dc_document_id := lit "d1";
       dc_chunk_text := lit "solar sales rose"; dc_chunk_index := 0;
       embedding := Some (2 # 10)%Q |};
    {| dc_id := lit "c1"; dc_document_id := lit "d1";
       dc_chunk_text := lit "the money spent on solar"; dc_chunk_index := 1;
       embedding := Some (3 # 10)%Q |};
    {| dc_id := lit "c2"; dc_document_id := lit "d1";
       dc_chunk_text := lit "money for wind"; dc_chunk_index := 2;
       embedding := Some (7 # 10)%Q |} ].

(** A dictionary that stems as the English one does: "ares" becomes
    "are", and "are" is a stop word, as "the" is. *)
Definition stemming_lexize (w : jsstring) : option lexeme :=
  if str_eqb w (lit "ares") then Some (lit "are")
  else if str_eqb w (lit "are") || str_eqb w (lit "the") then None
  else Some w.

Definition stemming_chunks : list (document_chunk Q) :=
  [ {| dc_id := lit "c0"; dc_document_id := lit "d1";
       dc_chunk_text := lit "ares rose"; dc_chunk_index := 0;
       embedding := Some (2 # 10)%Q |} ].

(** The identifier, the vector score, the sign of the BM25 score and
    the tag of each row. *)
Definition summary (rows : option (list ScoredChunk))
    : option (list (string * Q * bool * rank_tag)) :=
  option_map
    (map (fun r => (string_of_list_ascii (id r), Qred (vector_score r),
                    Qgt_bool (bm25_score r) 0, rank_method r)))
    rows.

End HybridSearch.

(* ================================================================== *)
(** * Embedder client: a service that answers every text *)

Module EmbedderService.
Import JS Embedder.

(** The items a service owes for a batch when it embeds each text with
    [embed]: one item per text, tagged with the position of the text. *)
Definition indexed_answers {V} (embed : jsstring -> V) (batch : list jsstring)
    : list (item V) :=
  map (fun i => {| index := Z.of_nat i; embedding := embed (nth i batch []) |})
    (seq 0 (List.length batch)).

(** A service that answers every batch in reverse order. *)
Definition reversing_service (batch : list jsstring)
    : outcome unit (list (item jsstring)) :=
  Resolved (rev (indexed_answers (fun t => t ++ lit "!") batch)).

End EmbedderService.

(* ================================================================== *)
(** * Quality scorer: the 0-1 scale of [QualityScores] *)

Module QualityScale.
Import QualityScorer.

(** A score on the scale that the interface [QualityScores] documents. *)
Definition unit_score (x : float) : bool :=
  ((0 <=? x) && (x <=? 1))%float.

Definition scores_on_scale (s : QualityScores) : bool :=
  unit_score (relevance s) && unit_score (completeness s)
  && unit_score (accuracy s) && unit_score (coherence s)
  && unit_score (overall s).

End QualityScale.

(* ================================================================== *)
(** * Context assembler: runs of chunk indices *)

Module AssemblerRuns.

(** The indices [first], [first + 1], ..., [n] of them. *)
Definition run_from (first : Z) (n : nat) : list Z :=
  map (fun k => first + Z.of_nat k) (seq 0 n).

End AssemblerRuns.

(* ================================================================== *)
(** * Summarizer after segmenter: an example text *)

Module Pipeline.
Import JS.

(** Nine hundred characters. *)
Definition example_text : jsstring :=
  List.concat (repeat (lit "0123456789") 90).

End Pipeline.

(* ================================================================== *)
(** * Search functions: scope, order and tags of the rows *)

Module SearchGuarantees.
Import JS Rows HybridSearch.

(** A row without the column that only [smart_hybrid_search] has. *)
Definition without_document_similarity (r : ScoredChunk) : ScoredChunk :=
  {| id := id r;
     document_id := document_id r;
     chunk_text := chunk_text r;
     chunk_index := chunk_index r;
     bm25_score := bm25_score r;
     vector_score := vector_score r;
     combined_score := combined_score r;
     document_similarity := None;
     rank_method := rank_method r |}.

(** A row of the table that [match_documents] returns. *)
Record match_row := {
  mr_id : uuid;
  mr_document_id : uuid;
  mr_chunk_text : jsstring;
  mr_chunk_index : Z;
  mr_similarity : Q
}.

Section Database.
Variable vector : Type.
Variable cosine_distance : vector -> vector -> Q.
Variable ts_parse : jsstring -> list jsstring.
Variable lexize : jsstring -> option lexeme.
Variable documents : list (document vector).
Variable document_chunks : list (document_chunk vector).

(** [match_documents] of the first schema, which the first chat route
    calls.  The company filter is compared with [=]: a NULL filter makes
    the condition NULL for every row, and so does a NULL embedding. *)
Definition match_documents (query_embedding : vector) (match_threshold : Q)
    (match_count : Z) (filter_company_id : option uuid)
    : option (list match_row) :=
  let matching :=
    flat_map (fun row =>
        let '(dc, d) := row in
        match filter_company_id, embedding dc with
        | Some c, Some e =>
            if str_eqb (company_id d) c
               && Qgt_bool (1 - cosine_distance e query_embedding)
                    match_threshold
            then [(dc, cosine_distance e query_embedding)]
            else []
        | _, _ => []
        end)
      (joined documents document_chunks) in
  if match_count <? 0 then None
  else
    Some (map (fun r =>
                 {| mr_id := dc_id (fst r);
                    mr_document_id := dc_document_id (fst r);
                    mr_chunk_text := dc_chunk_text (fst r);
                    mr_chunk_index := dc_chunk_index (fst r);
                    mr_similarity := (1 - snd r)%Q |})
            (firstn (Z.to_nat match_count)
               (sort (fun a b => Qle_bool (snd a) (snd b)) matching))).

(** Every row is a chunk of a document of the company [c]. *)
Definition rows_of_company (c : uuid) (rows : list ScoredChunk) : Prop :=
  forall r, In r rows ->
    exists dc d,
      In dc document_chunks /\ In d documents /\
      dc_document_id dc = doc_id d /\ company_id d = c /\
      id r = dc_id dc /\ document_id r = doc_id d /\
      chunk_index r = dc_chunk_index dc /\ chunk_text r = dc_chunk_text dc.

(** At most [match_count] rows, the best combined score first, and the
    combined score is the weighted sum of the two scores of the row. *)
Definition ranked_and_cut (match_count : Z) (bm25_weight vector_weight : Q)
    (rows : list ScoredChunk) : Prop :=
  Z.of_nat (List.length rows) <= match_count /\
  StronglySorted (fun a b => (combined_score b <= combined_score a)%Q) rows /\
  forall r, In r rows ->
    combined_score r
    = (bm25_score r * bm25_weight + vector_score r * vector_weight)%Q.

(** What the column [rank_method] says about a row. *)
Definition tags_explained (query_text : jsstring) (rows : list ScoredChunk)
    : Prop :=
  forall r, In r rows ->
    rank_method r <> keyword_only /\
    (rank_method r = hybrid <->
     (query_lexemes ts_parse lexize query_text <> [] /\
      forall l, In l (query_lexemes ts_parse lexize query_text) ->
                has_lexeme ts_parse lexize (chunk_text r) l)) /\
    (rank_method r = partial_keyword -> (0 < bm25_score r)%Q) /\
    (rank_method r = vector_only -> (bm25_score r <= 0)%Q).

(** A document that [find_relevant_documents] may list. *)
Definition relevant_document (query_embedding : vector)
    (similarity_threshold : Q) (company_id_filter : option uuid)
    (d : document vector) : Prop :=
  In d documents /\
  company_ok company_id_filter d = true /\
  exists e, document_embedding d = Some e /\
            (similarity_threshold < 1 - cosine_distance e query_embedding)%Q.

(** What [match_documents] returns for the company [c]. *)
Definition matches_of_company (query_embedding : vector)
    (match_threshold : Q) (match_count : Z) (c : uuid)
    (rows : list match_row) : Prop :=
  Z.of_nat (List.length rows) <= match_count /\
  StronglySorted (fun a b => (mr_similarity b <= mr_similarity a)%Q) rows /\
  forall r, In r rows ->
    (match_threshold < mr_similarity r)%Q /\
    exists dc d e,
      In dc document_chunks /\ In d documents /\
      dc_document_id dc = doc_id d /\ company_id d = c /\
      mr_id r = dc_id dc /\ mr_chunk_text r = dc_chunk_text dc /\
      embedding dc = Some e /\
      mr_similarity r = (1 - cosine_distance e query_embedding)%Q.

End Database.
Arguments match_documents {vector}.
Arguments rows_of_company {vector}.
Arguments relevant_document {vector}.
Arguments matches_of_company {vector}.

End SearchGuarantees.

(* ================================================================== *)
(** * Refusal detection in the database: detect_refusal *)

Module RefusalSQL.
Import JS QualityScorer.

(** What is left of [s] after the first occurrence of [sub]. *)
Fixpoint after_first (s sub : jsstring) : option jsstring :=
  if startsWith s sub then Some (skipn (List.length sub) s)
  else
    match s with
    | [] => None
    | _ :: s' => after_first s' sub
    end.

(** [s LIKE '%p1%p2%...%pn%'] for pieces without wildcards: the pieces
    occur in [s] in this order, one after the other. *)
Fixpoint like_pieces (s : jsstring) (pieces : list jsstring) : bool :=
  match pieces with
  | [] => true
  | p :: pieces' =>
      match after_first s p with
      | Some rest => like_pieces rest pieces'
      | None => false
      end
  end.

(** [s ILIKE '%p1%...%pn%'] on ASCII text. *)
Definition ilike_pieces (s : jsstring) (pieces : list jsstring) : bool :=
  like_pieces (toLowerCase s) (map toLowerCase pieces).

(** [detect_refusal(response_text)] of migration 04. *)
Definition detect_refusal (response_text : jsstring) : bool :=
  ilike_pieces response_text [lit "does not contain"]
  || ilike_pieces response_text [lit "I don't have"]
  || ilike_pieces response_text [lit "cannot find"]
  || ilike_pieces response_text [lit "no information"]
  || ilike_pieces response_text [lit "I'm sorry"; lit "context"].

End RefusalSQL.

(* ================================================================== *)
(** * Upload handler: chunk records of a document *)

Module Upload.
Import JS Segmenter Embedder.

(** A row passed to [insert] on [document_chunks]; the column
    [embedding] is left out when [embeddings[i]] is [undefined]. *)
Record chunk_record (V : Type) := {
  cr_document_id : jsstring;
  cr_chunk_text : jsstring;
  cr_chunk_index : Z;
  cr_embedding : option V
}.
Arguments cr_document_id {V} c.
Arguments cr_chunk_text {V} c.
Arguments cr_chunk_index {V} c.
Arguments cr_embedding {V} c.

(** [chunks.map((chunkText, i) => ({...}))], from index [i] on. *)
Fixpoint records_from {V} (document_id : jsstring) (embeddings : list V)
    (i : nat) (chunks : list jsstring) : list (chunk_record V) :=
  match chunks with
  | [] => []
  | chunkText :: chunks' =>
      {| cr_document_id := document_id;
         cr_chunk_text := chunkText;
         cr_chunk_index := Z.of_nat i;
         cr_embedding := nth_error embeddings i |}
      :: records_from document_id embeddings (S i) chunks'
  end.

Definition chunkRecords {V} (document_id : jsstring)
    (chunks : list jsstring) (embeddings : list V) : list (chunk_record V) :=
  records_from document_id embeddings 0 chunks.

(** The block [if (content) { ... }] of the upload handler, up to the
    rows it inserts: the text is cut with the default size and overlap,
    the chunks are embedded in one call of [generateEmbeddings], and a
    rejection leaves the block.  [None] is a loop still running. *)
Definition index_content {V E}
    (embeddings_create : list jsstring -> outcome E (list (item V)))
    (document_id content : jsstring)
    : option (outcome E (list (chunk_record V))) :=
  match content with
  | [] => Some (Resolved [])
  | _ :: _ =>
      match chunkText content default_chunkSize default_overlap with
      | None => None
      | Some chunks =>
          match generateEmbeddings embeddings_create chunks with
          | None => None
          | Some (Rejected e) => Some (Rejected e)
          | Some (Resolved embeddings) =>
              Some (Resolved (chunkRecords document_id chunks embeddings))
          end
      end
  end.

End Upload.

(* ================================================================== *)
(** * Summarizer script: generateDocumentSummary *)

Module DocumentSummary.
Import JS Embedder Summarizer.

Definition CHUNKS_PER_BATCH : Z := 200.

Definition quote : jsstring := ["034"%char].

Section Script.
(** What a rejected promise carries, and [new Error(message)]. *)
Variable E : Type.
Variable Error : jsstring -> E.
(** [openai.chat.completions.create] with one user message and the given
    [max_tokens]: the content of the first choice ([None] for [null]),
    or a rejection. *)
Variable completion : jsstring -> Z -> outcome E (option jsstring).
(** The query on [document_chunks] for a document, ordered by
    [chunk_index]: [data] and the message of [error]. *)
Variable fetch_chunks : jsstring -> option (list chunk) * option jsstring.

(** [content || ""] *)
Definition content_or_empty (content : option jsstring) : jsstring :=
  match content with
  | Some s => s
  | None => []
  end.

Definition summarizeBatch (batchText : jsstring)
    (batchNumber totalBatches : Z) : outcome E jsstring :=
  let prompt :=
    lit "You are summarizing part "
    ++ QualityScorer.number_to_string batchNumber ++ lit " of "
    ++ QualityScorer.number_to_string totalBatches
    ++ lit " from a document." ++ newline
    ++ newline
    ++ lit "Create a concise but informative summary of the following text. Focus on:"
    ++ newline
    ++ lit "- Main topics and key concepts" ++ newline
    ++ lit "- Important facts and insights" ++ newline
    ++ lit "- Critical arguments or explanations" ++ newline
    ++ newline
    ++ lit "Text to summarize:" ++ newline
    ++ batchText ++ newline
    ++ newline
    ++ lit "Provide a clear, well-structured summary:" in
  match completion prompt 500 with
  | Resolved content => Resolved (content_or_empty content)
  | Rejected e => Rejected e
  end.

Definition combineSummaries (batchSummaries : list jsstring)
    (documentName : jsstring) : outcome E jsstring :=
  let allSummaries :=
    Assembler.join (newline ++ newline ++ lit "---" ++ newline ++ newline)
      batchSummaries in
  let prompt :=
    lit "You are creating a final summary for a document titled "
    ++ quote ++ documentName ++ quote ++ lit "." ++ newline
    ++ newline
    ++ lit "You have "
    ++ QualityScorer.number_to_string (Z.of_nat (List.length batchSummaries))
    ++ lit " partial summaries from different sections of the document."
    ++ newline
    ++ lit "Combine these into a single, coherent summary that:" ++ newline
    ++ lit "- Provides an overview of the entire document" ++ newline
    ++ lit "- Highlights the most important concepts and topics" ++ newline
    ++ lit "- Maintains logical flow" ++ newline
    ++ lit "- Is comprehensive yet concise (aim for 3-5 paragraphs)" ++ newline
    ++ newline
    ++ lit "Partial summaries:" ++ newline
    ++ allSummaries ++ newline
    ++ newline
    ++ lit "Provide the final document summary:" in
  match completion prompt 1500 with
  | Resolved content => Resolved (content_or_empty content)
  | Rejected e => Rejected e
  end.

(** The [for] loop over the batches, for at most [fuel] iterations; a
    rejected [summarizeBatch] leaves the function. *)
Fixpoint summary_loop (fuel : nat) (chunks : list chunk) (i : Z)
    (batchSummaries : list jsstring) : option (outcome E (list jsstring)) :=
  if i <? Z.of_nat (List.length chunks) then
    match fuel with
    | O => None
    | S fuel' =>
        let batchChunks := slice chunks i (i + CHUNKS_PER_BATCH) in
        let batchNumber := i / CHUNKS_PER_BATCH + 1 in
        let totalBatches :=
          Segmenter.ceil_div (Z.of_nat (List.length chunks)) CHUNKS_PER_BATCH in
        let coalescedText := coalesceChunks batchChunks in
        match summarizeBatch coalescedText batchNumber totalBatches with
        | Rejected e => Some (Rejected e)
        | Resolved batchSummary =>
            summary_loop fuel' chunks (i + CHUNKS_PER_BATCH)
              (batchSummaries ++ [batchSummary])
        end
    end
  else Some (Resolved batchSummaries).

Definition generateDocumentSummary (documentId documentName : jsstring)
    : option (outcome E jsstring) :=
  match fetch_chunks documentId with
  | (_, Some message) =>
      Some (Rejected (Error (lit "Failed to fetch chunks: " ++ message)))
  | (None, None) | (Some [], None) =>
      Some (Rejected (Error (lit "No chunks found for document")))
  | (Some chunks, None) =>
      match summary_loop (List.length chunks) chunks 0 [] with
      | None => None
      | Some (Rejected e) => Some (Rejected e)
      | Some (Resolved batchSummaries) =>
          Some (combineSummaries batchSummaries documentName)
      end
  end.

End Script.
Arguments summarizeBatch {E}.
Arguments combineSummaries {E}.
Arguments summary_loop {E}.
Arguments generateDocumentSummary {E}.

(** The [j]-th batch of chunks and the number of batches. *)
Definition batch_of (chunks : list chunk) (j : nat) : list chunk :=
  slice chunks (Z.of_nat j * CHUNKS_PER_BATCH)
    (Z.of_nat j * CHUNKS_PER_BATCH + CHUNKS_PER_BATCH).

Definition total_batches (chunks : list chunk) : Z :=
  Segmenter.ceil_div (Z.of_nat (List.length chunks)) CHUNKS_PER_BATCH.

(** Examples: a model that answers every prompt with the same text, one
    that fails every call, and a document of two chunks. *)
Definition constant_model (prompt : jsstring) (max_tokens : Z)
    : outcome jsstring (option jsstring) :=
  Resolved (Some (lit "A summary.")).

Definition failing_model (prompt : jsstring) (max_tokens : Z)
    : outcome jsstring (option jsstring) :=
  Rejected (lit "rate limit").

Definition two_chunks (documentId : jsstring)
    : option (list chunk) * option jsstring :=
  (Some [ {| chunk_text := lit "first" |}; {| chunk_text := lit "second" |} ],
   None).

End DocumentSummary.

(* ================================================================== *)
(** * Chat route: the search call (POST /api/chat) *)

Module ChatRoute.
Import JS Rows HybridSearch.

Section Database.
Variable vector : Type.
Variable cosine_distance : vector -> vector -> Q.
Variable ts_parse : jsstring -> list jsstring.
Variable lexize : jsstring -> option lexeme.
Variable ts_rank_cd : tsvector -> tsquery -> Z -> Q.
Variable documents : list (document vector).
Variable document_chunks : list (document_chunk vector).

(** [relevantChunks]: the rows of the search function that the
    environment selects ([ENABLE_DOCUMENT_EMBEDDINGS], [ENABLE_BM25]),
    called with the constants of the route. *)
Definition relevantChunks (useDocumentEmbeddings useBM25 : bool)
    (message : jsstring) (queryEmbedding : vector) (companyId : uuid)
    : option (list ScoredChunk) :=
  if useDocumentEmbeddings then
    smart_hybrid_search cosine_distance ts_parse lexize ts_rank_cd
      documents document_chunks
      message queryEmbedding (5 # 10) 5 (Some companyId) (6 # 10)
      (if useBM25 then (3 # 10) else 0)%Q
      (if useBM25 then (7 # 10) else 1)%Q
  else
    hybrid_search_simple cosine_distance ts_parse lexize ts_rank_cd
      documents document_chunks
      message queryEmbedding (5 # 10) 5 (Some companyId)
      (if useBM25 then (3 # 10) else 0)%Q
      (if useBM25 then (7 # 10) else 1)%Q.

End Database.
Arguments relevantChunks {vector}.

End ChatRoute.

(* ################################################################## *)
(** * Theorems *)

(* ================================================================== *)
(** * Facts about slices *)

Module JSFacts.
Import JS.

Lemma firstn_min_length {A} (l : list A) (n : nat) :
  firstn (Nat.min n (List.length l)) l = firstn n l.
Proof.
  destruct (Nat.le_gt_cases n (List.length l)) as [H | H].
  - now rewrite Nat.min_l.
  - rewrite Nat.min_r by lia.
    rewrite !firstn_all2; auto; lia.
Qed.

(** A slice between two non-negative offsets. *)
Lemma slice_nonneg {A} (xs : list A) (s e : Z) :
  0 <= s -> 0 <= e ->
  slice xs s e =
  firstn (Z.to_nat e - Z.to_nat s) (skipn (Z.to_nat s) xs).
Proof.
  intros Hs He. unfold slice, rel_index.
  destruct (Z.ltb_spec s 0); [lia|].
  destruct (Z.ltb_spec e 0); [lia|].
  set (len := Z.of_nat (List.length xs)).
  destruct (Z.le_gt_cases len s) as [Hls | Hls].
  - (* the start is at or beyond the end: both sides are empty *)
    rewrite !skipn_all2 by (subst len; lia).
    now rewrite !firstn_nil.
  - rewrite (Z.min_l s len) by lia.
    replace (Z.to_nat (Z.min e len - s))
      with (Nat.min (Z.to_nat e - Z.to_nat s)
              (List.length (skipn (Z.to_nat s) xs))).
    + apply firstn_min_length.
    + rewrite length_skipn. subst len. lia.
Qed.

Lemma slice_prefix {A} (xs : list A) (k : nat) :
  slice xs 0 (Z.of_nat k) = firstn k xs.
Proof.
  rewrite slice_nonneg by lia. simpl. now rewrite Nat.sub_0_r, Nat2Z.id.
Qed.

Lemma slice_from_nonneg {A} (xs : list A) (k : nat) :
  slice_from xs (Z.of_nat k) = skipn k xs.
Proof.
  unfold slice_from. rewrite slice_nonneg by lia.
  rewrite !Nat2Z.id.
  rewrite <- (length_skipn k xs). apply firstn_all.
Qed.

(** [xs.slice(-k)] is the suffix of length [k]. *)
Lemma slice_suffix {A} (xs : list A) (k : nat) :
  (0 < k <= List.length xs)%nat ->
  slice_from xs (- Z.of_nat k) = skipn (List.length xs - k) xs.
Proof.
  intros Hk. unfold slice_from, slice, rel_index.
  destruct (Z.ltb_spec (- Z.of_nat k) 0); [|lia].
  destruct (Z.ltb_spec (Z.of_nat (List.length xs)) 0); [lia|].
  rewrite Z.min_id, Z.max_l by lia.
  replace (Z.to_nat (Z.of_nat (List.length xs) + - Z.of_nat k))
    with (List.length xs - k)%nat by lia.
  replace (Z.to_nat _) with (List.length (skipn (List.length xs - k) xs)).
  - apply firstn_all.
  - rewrite length_skipn. lia.
Qed.

Lemma nth_map_seq {B} (f : nat -> B) (n i : nat) (d : B) :
  (i < n)%nat -> nth i (map f (seq 0 n)) d = f i.
Proof.
  intros Hi.
  rewrite (nth_indep _ d (f 0%nat)) by (rewrite length_map, length_seq; exact Hi).
  rewrite map_nth, seq_nth by exact Hi. reflexivity.
Qed.

Lemma str_eqb_eq (a b : jsstring) : str_eqb a b = true <-> a = b.
Proof.
  revert b. induction a as [|x a IH]; destruct b as [|y b]; simpl;
    try (split; intros; congruence).
  rewrite andb_true_iff, Ascii.eqb_eq, IH. split.
  - intros [-> ->]. reflexivity.
  - intros H. now inversion H.
Qed.

End JSFacts.

(* ================================================================== *)
(** * Segmenter: the number and position of the chunks *)

Module SegmenterFacts.
Import JS JSFacts Segmenter.

(** The loop condition holds exactly for the first
    [ceil(len / step)] values of [start]. *)
Lemma lt_ceil_div (len step j : Z) :
  0 < step -> (j * step < len <-> j < ceil_div len step).
Proof.
  intros Hs. unfold ceil_div. split; intros H.
  - assert (j + 1 <= (len + step - 1) / step); [|lia].
    apply Z.div_le_lower_bound; lia.
  - assert (j + 1 <= (len + step - 1) / step) as H' by lia.
    pose proof (Z.mul_div_le (len + step - 1) step Hs).
    nia.
Qed.

Lemma ceil_div_nonneg (len step : Z) :
  0 <= len -> 0 < step -> 0 <= ceil_div len step <= len.
Proof.
  intros Hl Hs. unfold ceil_div. split.
  - apply Z.div_pos; lia.
  - destruct (Z.eq_dec len 0) as [-> | Hne].
    + rewrite Z.div_small; lia.
    + apply Z.div_le_upper_bound; nia.
Qed.

Lemma chunk_loop_run (text : jsstring) (chunkSize overlap : Z) (n : nat) :
  overlap < chunkSize ->
  n = Z.to_nat (chunk_count (str_length text) chunkSize overlap) ->
  forall (fuel j : nat),
    (j <= n)%nat -> (n - j <= fuel)%nat ->
    chunk_loop fuel text chunkSize overlap
      {| chunks := map (window text chunkSize overlap) (seq 0 j);
         start := Z.of_nat j * (chunkSize - overlap) |}
    = Some (map (window text chunkSize overlap) (seq 0 n)).
Proof.
  intros Hcfg Hdef fuel. unfold chunk_count in Hdef.
  assert (0 <= str_length text) as Hlen by (unfold str_length; lia).
  pose proof (ceil_div_nonneg (str_length text) (chunkSize - overlap)
                Hlen ltac:(lia)) as Hn.
  assert (forall j : nat,
            Z.of_nat j * (chunkSize - overlap) < str_length text
            <-> (j < n)%nat) as Hcond.
  { intros j. rewrite lt_ceil_div by lia. lia. }
  induction fuel as [|fuel IH]; intros j Hj Hf.
  - (* no fuel is needed: the loop is at its exit *)
    assert (j = n) by lia. subst j.
    unfold chunk_loop, chunk_step; simpl.
    destruct (Z.ltb_spec (Z.of_nat n * (chunkSize - overlap))
                (str_length text)) as [Hlt | Hge]; [|reflexivity].
    apply Hcond in Hlt. lia.
  - simpl. unfold chunk_step; simpl.
    destruct (Z.ltb_spec (Z.of_nat j * (chunkSize - overlap))
                (str_length text)) as [Hlt | Hge].
    + apply Hcond in Hlt.
      specialize (IH (S j) ltac:(lia) ltac:(lia)).
      rewrite seq_S, map_app in IH. simpl in IH.
      replace (Z.of_nat j * (chunkSize - overlap) + (chunkSize - overlap))
        with (Z.of_nat (S j) * (chunkSize - overlap)) by lia.
      exact IH.
    + assert (j = n); [|now subst j].
      destruct (Nat.eq_dec j n) as [|Hne]; [assumption|exfalso].
      assert (j < n)%nat as Hlt by lia.
      apply Hcond in Hlt. lia.
Qed.

(** The window that starts at [s]. *)
Lemma window_firstn (text : jsstring) (chunkSize overlap : Z) (j : nat) :
  0 <= overlap < chunkSize ->
  window text chunkSize overlap j =
  firstn (Z.to_nat chunkSize)
    (skipn (Z.to_nat (Z.of_nat j * (chunkSize - overlap))) text).
Proof.
  intros Hcfg. unfold window, str_length.
  set (s := Z.of_nat j * (chunkSize - overlap)).
  assert (0 <= s) by (subst s; nia).
  rewrite slice_nonneg by lia.
  rewrite <- (firstn_min_length _ (Z.to_nat chunkSize)).
  rewrite <- (firstn_min_length _ (_ - _)%nat).
  f_equal. rewrite length_skipn. lia.
Qed.

(** C4 (as the code has it): for every text and every configuration
    with [0 <= overlap < size], [chunkText] returns exactly
    [ceil(len / (size - overlap))] chunks; chunk [i] starts at offset
    [i * (size - overlap)] and has length [min(size, len - i * (size - overlap))]. *)
Theorem chunkText_count_and_windows :
  forall (text : jsstring) (chunkSize overlap : Z),
    0 <= overlap < chunkSize ->
    exists cs,
      chunkText text chunkSize overlap = Some cs /\
      Z.of_nat (List.length cs)
        = chunk_count (str_length text) chunkSize overlap /\
      forall i, 0 <= i < chunk_count (str_length text) chunkSize overlap ->
        nth (Z.to_nat i) cs [] =
          firstn (Z.to_nat chunkSize)
            (skipn (Z.to_nat (i * (chunkSize - overlap))) text) /\
        str_length (nth (Z.to_nat i) cs [])
          = Z.min chunkSize (str_length text - i * (chunkSize - overlap)).
Proof.
  intros text chunkSize overlap Hcfg.
  set (n := Z.to_nat (chunk_count (str_length text) chunkSize overlap)).
  assert (0 <= str_length text) as Hlen by (unfold str_length; lia).
  pose proof (ceil_div_nonneg (str_length text) (chunkSize - overlap)
                Hlen ltac:(lia)) as Hn.
  fold (chunk_count (str_length text) chunkSize overlap) in Hn.
  exists (map (window text chunkSize overlap) (seq 0 n)).
  split; [|split].
  - unfold chunkText, chunkText_fuel.
    apply (chunk_loop_run text chunkSize overlap n ltac:(lia) eq_refl
             (List.length text) 0%nat).
    + lia.
    + subst n. unfold str_length in *. lia.
  - rewrite length_map, length_seq. subst n. lia.
  - intros i Hi.
    assert (Z.to_nat i < n)%nat as Hin by (subst n; lia).
    rewrite nth_map_seq by exact Hin.
    rewrite window_firstn by exact Hcfg.
    rewrite Z2Nat.id by lia.
    split; [reflexivity|].
    unfold str_length. rewrite length_firstn, length_skipn.
    destruct Hi as [Hi0 Hi]. unfold chunk_count in Hi.
    apply lt_ceil_div in Hi; [|lia].
    unfold str_length in *. nia.
Qed.

Lemma chunkText_count_and_windows_witness :
  0 <= 1 < 4 /\
  exists cs,
    chunkText (lit "abcdefghij") 4 1 = Some cs /\
    Z.of_nat (List.length cs) = chunk_count 10 4 1 /\
    forall i, 0 <= i < chunk_count 10 4 1 ->
      nth (Z.to_nat i) cs [] =
        firstn 4 (skipn (Z.to_nat (i * 3)) (lit "abcdefghij")) /\
      str_length (nth (Z.to_nat i) cs []) = Z.min 4 (10 - i * 3).
Proof.
  split; [lia|].
  apply (chunkText_count_and_windows (lit "abcdefghij") 4 1).
  lia.
Defined.

(** C4, the claim as stated fails: on a five-character text with
    size 4 and overlap 2 the loop pushes three chunks, the stated formula
    gives two. *)
Lemma chunkText_count_counterexample :
  chunkText (lit "abcde") 4 2
    = Some [lit "abcd"; lit "cde"; lit "e"] /\
  spec_chunk_count (str_length (lit "abcde")) 4 2 = 2 /\
  ~ (exists cs, chunkText (lit "abcde") 4 2 = Some cs /\
       Z.of_nat (List.length cs)
         = spec_chunk_count (str_length (lit "abcde")) 4 2).
Proof.
  split; [reflexivity|]. split; [reflexivity|].
  intros [cs [H1 H2]]. vm_compute in H1. injection H1 as <-.
  vm_compute in H2. discriminate.
Qed.

(** With the default size and overlap, a text of 2200 characters gives
    the windows [0,1000), [800,1800) and [1600,2200); a text of 1000
    characters gives two chunks, the second being the last 200
    characters of the first. *)
Lemma chunkText_default_examples :
  option_map (map (@List.length ascii))
    (chunkText (repeat "x"%char 2200) default_chunkSize default_overlap)
  = Some [1000; 1000; 600]%nat /\
  option_map (map (@List.length ascii))
    (chunkText (repeat "x"%char 1000) default_chunkSize default_overlap)
  = Some [1000; 200]%nat.
Proof.
  split; vm_compute; reflexivity.
Qed.

End SegmenterFacts.

(* ================================================================== *)
(** * Segmenter: a configuration with [overlap >= size] *)

Module SegmenterConfigFacts.
Import JS JSFacts Segmenter.

(** The loop with the length limit is the loop without it, as long as
    the array has room: a run that gives a result within [room] pushes
    gives the same result, and a run that needs more ends in the
    [RangeError]. *)
Lemma chunk_loop_on_fuel (text : jsstring) (chunkSize overlap : Z) :
  forall (room : nat) (st : loop_state),
    chunk_loop_on room text chunkSize overlap st
    = match chunk_loop room text chunkSize overlap st with
      | Some cs => Returned cs
      | None => Thrown RangeError_invalid_array_length
      end.
Proof.
  induction room as [|room IH]; intros st; simpl;
    destruct (chunk_step text chunkSize overlap st) as [st'|];
    try reflexivity.
  apply IH.
Qed.

(** A result of the loop without the limit is the result on every
    engine whose array has room for it. *)
Lemma chunk_loop_grows (text : jsstring) (chunkSize overlap : Z) :
  forall (fuel : nat) (st : loop_state) (cs : list jsstring),
    chunk_loop fuel text chunkSize overlap st = Some cs ->
    (List.length (chunks st) <= List.length cs)%nat.
Proof.
  induction fuel as [|fuel IH]; intros st cs; simpl;
    destruct (chunk_step text chunkSize overlap st) as [st'|] eqn:Hstep;
    intros H; try discriminate H;
    try (injection H as <-; apply Nat.le_refl).
  apply IH in H. unfold chunk_step in Hstep.
  destruct (start st <? str_length text); [|discriminate Hstep].
  injection Hstep as <-. simpl in H. rewrite length_app in H. simpl in H. lia.
Qed.

Lemma chunk_loop_on_returns (text : jsstring) (chunkSize overlap : Z) :
  forall (fuel : nat) (st : loop_state) (cs : list jsstring) (room : nat),
    chunk_loop fuel text chunkSize overlap st = Some cs ->
    (List.length cs <= List.length (chunks st) + room)%nat ->
    chunk_loop_on room text chunkSize overlap st = Returned cs.
Proof.
  induction fuel as [|fuel IH]; intros st cs room; simpl;
    destruct (chunk_step text chunkSize overlap st) as [st'|] eqn:Hstep;
    intros H Hroom; try discriminate H.
  - injection H as <-. destruct room; simpl; now rewrite Hstep.
  - pose proof (chunk_loop_grows text chunkSize overlap fuel st' cs H) as Hle.
    assert (List.length (chunks st') = S (List.length (chunks st))) as Hlen.
    { unfold chunk_step in Hstep.
      destruct (start st <? str_length text); [|discriminate Hstep].
      injection Hstep as <-. simpl. rewrite length_app. simpl. lia. }
    destruct room as [|room]; [lia|].
    simpl. rewrite Hstep. apply (IH st' cs room H). lia.
  - injection H as <-. destruct room; simpl; now rewrite Hstep.
Qed.

Lemma chunkText_on_returns (max_length : nat) (text : jsstring)
    (chunkSize overlap : Z) (cs : list jsstring) :
  chunkText text chunkSize overlap = Some cs ->
  (List.length cs <= max_length)%nat ->
  chunkText_on max_length text chunkSize overlap = Returned cs.
Proof.
  intros H Hfit. unfold chunkText, chunkText_fuel in H.
  apply (chunk_loop_on_returns text chunkSize overlap _ _ cs max_length H).
  simpl. exact Hfit.
Qed.

(** For a valid configuration the array limit matters only when the
    text has more chunks than an array can hold. *)
Lemma chunkText_on_valid (max_length : nat) (text : jsstring)
    (chunkSize overlap : Z) :
  0 <= overlap < chunkSize ->
  chunk_count (str_length text) chunkSize overlap <= Z.of_nat max_length ->
  chunkText_on max_length text chunkSize overlap
  = Returned (map (window text chunkSize overlap)
                (seq 0 (Z.to_nat
                   (chunk_count (str_length text) chunkSize overlap)))).
Proof.
  intros Hcfg Hfit. unfold chunkText_on. rewrite chunk_loop_on_fuel.
  assert (0 <= str_length text) as Hlen by (unfold str_length; lia).
  pose proof (SegmenterFacts.ceil_div_nonneg (str_length text)
                (chunkSize - overlap) Hlen ltac:(lia)) as Hn.
  fold (chunk_count (str_length text) chunkSize overlap) in Hn.
  change {| chunks := []; start := 0 |}
    with {| chunks := map (window text chunkSize overlap) (seq 0 0);
            start := Z.of_nat 0 * (chunkSize - overlap) |}.
  rewrite (SegmenterFacts.chunk_loop_run text chunkSize overlap
             (Z.to_nat (chunk_count (str_length text) chunkSize overlap))
             ltac:(lia) eq_refl max_length 0%nat); [reflexivity | lia | lia].
Qed.

(** With a step that is not positive, [start] never passes the first
    character: the loop condition holds on every test, and the loop ends
    only when the array is full. *)
Lemma chunk_loop_on_full (text : jsstring) (chunkSize overlap : Z) :
  chunkSize <= overlap -> 0 < str_length text ->
  forall (room : nat) (st : loop_state),
    start st <= 0 ->
    chunk_loop_on room text chunkSize overlap st
    = Thrown RangeError_invalid_array_length.
Proof.
  intros Hcfg Hlen.
  induction room as [|room IH]; intros st Hst; simpl; unfold chunk_step;
    destruct (Z.ltb_spec (start st) (str_length text)); try lia.
  - reflexivity.
  - apply IH. simpl. lia.
Qed.

(** C5 (as the code has it): [chunkText] validates nothing and raises
    no configuration error of its own.  When [overlap >= size] it
    returns the empty sequence for the empty text; for a nonempty text
    it returns no chunk sequence: it pushes chunks until the array is
    full, whatever the length limit of the engine, and the call ends
    with [RangeError: Invalid array length]. *)
Theorem chunkText_invalid_config :
  forall (max_length : nat) (text : jsstring) (chunkSize overlap : Z),
    chunkSize <= overlap ->
    chunkText_on max_length text chunkSize overlap
    = match text with
      | [] => Returned []
      | _ :: _ => Thrown RangeError_invalid_array_length
      end.
Proof.
  intros max_length text chunkSize overlap Hcfg. unfold chunkText_on.
  destruct text as [|c text].
  - destruct max_length; reflexivity.
  - apply chunk_loop_on_full; try assumption.
    + unfold str_length. simpl List.length. lia.
    + simpl. lia.
Qed.

Lemma chunkText_invalid_config_witness :
  200 <= 1000 /\
  chunkText_on 5000 (lit "some text") 200 1000
  = Thrown RangeError_invalid_array_length /\
  chunkText_on 5000 (lit "") 200 1000 = Returned [].
Proof.
  split; [lia|]. split.
  - apply (chunkText_invalid_config 5000 (lit "some text") 200 1000); lia.
  - apply (chunkText_invalid_config 5000 (lit "") 200 1000); lia.
Defined.

(** C5, the claim as stated fails: with [overlap >= size] and the empty
    text, [chunkText] returns a chunk sequence (the empty one). *)
Lemma chunkText_invalid_config_counterexample :
  5 >= 5 /\
  chunkText (lit "") 5 5 = Some [] /\
  chunkText_on 5000 (lit "") 5 5 = Returned [].
Proof.
  split; [lia | split; reflexivity].
Qed.

End SegmenterConfigFacts.

(* ================================================================== *)
(** * Summarizer: coalescing one and two chunks *)

Module SummarizerFacts.
Import JS JSFacts Summarizer.

Lemma find_countdown (f : Z -> bool) (k : Z) :
  f k = true ->
  forall (d n : nat) (m : Z),
    m = k + Z.of_nat d ->
    (forall j, k < j <= m -> f j = false) ->
    find f (countdown (d + S n) m) = Some k.
Proof.
  intros Hk. induction d as [|d IH]; intros n m Hm Hlater.
  - simpl. replace m with k by lia. now rewrite Hk.
  - simpl. rewrite Hlater by lia.
    apply IH; [lia|]. intros j Hj. apply Hlater. lia.
Qed.

Lemma overlap_matches_iff (a b : jsstring) (k : nat) :
  (0 < k <= List.length a)%nat ->
  overlap_matches a b (Z.of_nat k) = true
  <-> skipn (List.length a - k) a = firstn k b.
Proof.
  intros Hk. unfold overlap_matches.
  rewrite str_eqb_eq, slice_suffix, slice_prefix by exact Hk.
  reflexivity.
Qed.

(** The scan settles on an overlap of length [k] when it matches and no
    longer candidate does. *)
Lemma find_overlap_longest (a b : jsstring) (k : nat) :
  (50 <= k <= 400)%nat ->
  (k <= List.length a)%nat -> (k <= List.length b)%nat ->
  skipn (List.length a - k) a = firstn k b ->
  (forall j : nat, (k < j <= 400)%nat ->
     (j <= List.length a)%nat -> (j <= List.length b)%nat ->
     skipn (List.length a - j) a <> firstn j b) ->
  find_overlap a b = Some (Z.of_nat k).
Proof.
  intros Hk Ha Hb Hmatch Hlonger. unfold find_overlap, overlap_candidates.
  set (m := Z.min 400 (Z.min (str_length a) (str_length b))).
  assert (Z.of_nat k <= m) as Hkm by (subst m; unfold str_length; lia).
  replace (Z.to_nat (m - 49))
    with (Z.to_nat (m - Z.of_nat k) + S (k - 50))%nat by lia.
  apply find_countdown.
  - apply overlap_matches_iff; [lia | exact Hmatch].
  - lia.
  - intros j Hj.
    destruct (overlap_matches a b j) eqn:Hov; [exfalso | reflexivity].
    assert (j = Z.of_nat (Z.to_nat j)) as Hjn by lia.
    rewrite Hjn in Hov.
    assert (Z.to_nat j <= 400 /\ Z.to_nat j <= List.length a
            /\ Z.to_nat j <= List.length b)%nat as [H1 [H2 H3]]
      by (subst m; unfold str_length in *; lia).
    apply overlap_matches_iff in Hov; [|lia].
    apply (Hlonger (Z.to_nat j)); try assumption. lia.
Qed.

(** C7 (as the code has it): coalescing a single chunk gives its text;
    for two chunks whose texts overlap by [k] characters, with
    [50 <= k <= 400] and no longer overlap of at most 400 characters,
    the result is the first text followed by the second without its
    first [k] characters. *)
Theorem coalesce_single_and_overlap :
  (forall c : chunk, coalesceChunks [c] = chunk_text c) /\
  (forall (a b : jsstring) (k : nat),
     (50 <= k <= 400)%nat ->
     (k <= List.length a)%nat -> (k <= List.length b)%nat ->
     skipn (List.length a - k) a = firstn k b ->
     (forall j : nat, (k < j <= 400)%nat ->
        (j <= List.length a)%nat -> (j <= List.length b)%nat ->
        skipn (List.length a - j) a <> firstn j b) ->
     coalesceChunks [{| chunk_text := a |}; {| chunk_text := b |}]
     = a ++ skipn k b).
Proof.
  split; [reflexivity|].
  intros a b k Hk Ha Hb Hmatch Hlonger.
  simpl. unfold append_chunk. simpl.
  rewrite (find_overlap_longest a b k) by assumption.
  now rewrite slice_from_nonneg.
Qed.

Lemma coalesce_single_and_overlap_witness :
  coalesceChunks [{| chunk_text := lit "A " ++ shared50 |}]
    = lit "A " ++ shared50 /\
  coalesceChunks [{| chunk_text := lit "A " ++ shared50 |};
                  {| chunk_text := shared50 ++ lit " B" |}]
    = (lit "A " ++ shared50) ++ skipn 50 (shared50 ++ lit " B").
Proof.
  split.
  - apply (proj1 coalesce_single_and_overlap).
  - apply (proj2 coalesce_single_and_overlap
             (lit "A " ++ shared50) (shared50 ++ lit " B") 50%nat).
    + lia.
    + vm_compute. lia.
    + vm_compute. lia.
    + reflexivity.
    + intros j Hj Ha Hb.
      assert (j = 51 \/ j = 52)%nat as [-> | ->]
        by (vm_compute in Ha; lia);
        vm_compute; discriminate.
Defined.

(** C7, the claim as stated fails: "ab" and "bc" overlap by one
    character, which is below the scan's lower bound of 50, so the
    chunks are joined with a newline instead. *)
Lemma coalesce_overlap_counterexample :
  skipn (List.length (lit "ab") - 1) (lit "ab") = firstn 1 (lit "bc") /\
  coalesceChunks [{| chunk_text := lit "ab" |}; {| chunk_text := lit "bc" |}]
    = lit "ab" ++ newline ++ lit "bc" /\
  coalesceChunks [{| chunk_text := lit "ab" |}; {| chunk_text := lit "bc" |}]
    <> lit "ab" ++ skipn 1 (lit "bc").
Proof.
  split; [reflexivity|]. split; [reflexivity|].
  vm_compute. discriminate.
Qed.

End SummarizerFacts.

(* ================================================================== *)
(** * Embedder client: failures and vector counts *)

Module EmbedderFacts.
Import JS JSFacts Segmenter Embedder.

Section Client.
Variables V E : Type.
Variable create : list jsstring -> outcome E (list (item V)).

Lemma batch_loop_condition (texts : list jsstring) (j : nat) :
  (Z.of_nat j * BATCH_SIZE <? Z.of_nat (List.length texts)) = true
  <-> (j < batch_count texts)%nat.
Proof.
  rewrite Z.ltb_lt. unfold batch_count.
  rewrite (SegmenterFacts.lt_ceil_div (Z.of_nat (List.length texts))
             BATCH_SIZE (Z.of_nat j)) by (unfold BATCH_SIZE; lia).
  pose proof (SegmenterFacts.ceil_div_nonneg
                (Z.of_nat (List.length texts)) BATCH_SIZE
                ltac:(lia) ltac:(unfold BATCH_SIZE; lia)).
  lia.
Qed.

(** When every remaining call resolves, the loop appends what each call
    returned, whatever its length. *)
Lemma embed_loop_resolved (texts : list jsstring) :
  forall (fuel j : nat) (acc : list V),
    (j <= batch_count texts)%nat ->
    (batch_count texts - j <= fuel)%nat ->
    (forall j', (j <= j' < batch_count texts)%nat ->
       exists data, create (batch_at texts j') = Resolved data) ->
    embed_loop create fuel texts (Z.of_nat j * BATCH_SIZE) acc
    = Some (Resolved
        (acc ++ flat_map (fun j' => returned_for create (batch_at texts j'))
                  (seq j (batch_count texts - j)))).
Proof.
  induction fuel as [|fuel IH]; intros j acc Hj Hfuel Hall.
  - assert (j = batch_count texts) as -> by lia.
    simpl.
    destruct (Z.ltb (Z.of_nat (batch_count texts) * BATCH_SIZE)
                (Z.of_nat (List.length texts))) eqn:Hc.
    + apply batch_loop_condition in Hc. lia.
    + now rewrite Nat.sub_diag, app_nil_r.
  - simpl.
    destruct (Z.ltb (Z.of_nat j * BATCH_SIZE)
                (Z.of_nat (List.length texts))) eqn:Hc.
    + apply batch_loop_condition in Hc.
      destruct (Hall j ltac:(lia)) as [data Hdata].
      fold (batch_at texts j). rewrite Hdata.
      replace (Z.of_nat j * BATCH_SIZE + BATCH_SIZE)
        with (Z.of_nat (S j) * BATCH_SIZE) by lia.
      rewrite IH; try lia.
      * replace (batch_count texts - j)%nat
          with (S (batch_count texts - S j)) by lia.
        simpl. unfold returned_for at 2. rewrite Hdata.
        now rewrite app_assoc.
      * intros j' Hj'. apply Hall. lia.
    + assert (~ (j < batch_count texts)%nat) as Hn
        by (rewrite <- batch_loop_condition; congruence).
      replace (batch_count texts - j)%nat with 0%nat by lia.
      simpl. now rewrite app_nil_r.
Qed.

(** When some remaining call is rejected, so is the whole function. *)
Lemma embed_loop_rejected (texts : list jsstring) :
  forall (fuel j : nat) (acc : list V),
    (batch_count texts - j <= fuel)%nat ->
    (exists j' e, (j <= j' < batch_count texts)%nat /\
       create (batch_at texts j') = Rejected e) ->
    exists e, embed_loop create fuel texts (Z.of_nat j * BATCH_SIZE) acc
              = Some (Rejected e).
Proof.
  induction fuel as [|fuel IH]; intros j acc Hfuel [j' [e [Hj' He]]].
  - lia.
  - simpl.
    destruct (Z.ltb (Z.of_nat j * BATCH_SIZE)
                (Z.of_nat (List.length texts))) eqn:Hc.
    + fold (batch_at texts j).
      destruct (create (batch_at texts j)) as [data | e0] eqn:Hdata.
      * replace (Z.of_nat j * BATCH_SIZE + BATCH_SIZE)
          with (Z.of_nat (S j) * BATCH_SIZE) by lia.
        apply IH; [lia|].
        exists j', e. split; [|exact He].
        destruct (Nat.eq_dec j j') as [-> | Hne]; [congruence | lia].
      * now exists e0.
    + assert (~ (j < batch_count texts)%nat) as Hn
        by (rewrite <- batch_loop_condition; congruence).
      lia.
Qed.

Lemma batch_count_le (texts : list jsstring) :
  (batch_count texts <= List.length texts)%nat.
Proof.
  unfold batch_count.
  pose proof (SegmenterFacts.ceil_div_nonneg
                (Z.of_nat (List.length texts)) BATCH_SIZE
                ltac:(lia) ltac:(unfold BATCH_SIZE; lia)).
  lia.
Qed.

End Client.

(** C8 (as the code has it): [generateEmbeddings] is rejected whenever
    a call to the embedding service is rejected.  It does not compare
    counts: when every call resolves, it resolves with the vectors each
    call returned, batch after batch, however many they are. *)
Theorem generateEmbeddings_outcome :
  forall (V E : Type) (create : list jsstring -> outcome E (list (item V)))
         (texts : list jsstring),
    ((exists j e, (j < batch_count texts)%nat /\
        create (batch_at texts j) = Rejected e) ->
     exists e, generateEmbeddings create texts = Some (Rejected e)) /\
    ((forall j, (j < batch_count texts)%nat ->
        exists data, create (batch_at texts j) = Resolved data) ->
     generateEmbeddings create texts
     = Some (Resolved
         (flat_map (fun j => returned_for create (batch_at texts j))
            (seq 0 (batch_count texts))))).
Proof.
  intros V E create texts. unfold generateEmbeddings.
  pose proof (batch_count_le texts) as Hle.
  split.
  - intros [j [e [Hj He]]].
    change 0 with (Z.of_nat 0 * BATCH_SIZE).
    apply (embed_loop_rejected V E create texts (List.length texts) 0%nat []).
    + lia.
    + exists j, e. split; [lia | exact He].
  - intros Hall.
    change 0 with (Z.of_nat 0 * BATCH_SIZE).
    rewrite (embed_loop_resolved V E create texts (List.length texts) 0%nat []).
    + now rewrite Nat.sub_0_r.
    + lia.
    + lia.
    + intros j' Hj'. apply Hall. lia.
Qed.

Lemma generateEmbeddings_outcome_witness :
  generateEmbeddings constant_service [lit "one"; lit "two"]
  = Some (Resolved [[1%Q]; [1%Q]]).
Proof.
  apply (proj2 (generateEmbeddings_outcome (list Q) unit constant_service
                  [lit "one"; lit "two"])).
  intros j Hj. eexists. reflexivity.
Defined.

(** C8, the claim as stated fails: a service that answers a request for
    one text with no vector at all makes [generateEmbeddings] resolve
    with an empty list. *)
Lemma generateEmbeddings_count_counterexample :
  generateEmbeddings silent_service [lit "one"] = Some (Resolved []) /\
  List.length (@nil (list Q)) <> List.length [lit "one"].
Proof.
  split; [reflexivity | discriminate].
Qed.

End EmbedderFacts.

(* ================================================================== *)
(** * cosineSimilarity on a zero vector *)

Module SimilarityFacts.
Import Similarity.

Lemma is_nan_of_spec (x : float) : Prim2SF x = S754_nan -> is_nan x = true.
Proof.
  intros H. unfold is_nan. rewrite eqb_spec, H. reflexivity.
Qed.

Lemma is_zero_zero_or_nan (x : float) : is_zero x = true -> zero_or_nan x.
Proof.
  unfold is_zero, zero_or_nan. rewrite eqb_spec.
  change (Prim2SF zero) with (S754_zero false).
  destruct (Prim2SF x) as [s | s | | s m e]; simpl; auto;
    destruct s; discriminate.
Qed.

Lemma nan_zero_or_nan : zero_or_nan nan.
Proof. exact I. Qed.

Lemma zero_zero_or_nan : zero_or_nan 0%float.
Proof. exact I. Qed.

Lemma mul_zero_or_nan_l (x y : float) : zero_or_nan x -> zero_or_nan (x * y).
Proof.
  unfold zero_or_nan. rewrite mul_spec. unfold SF64mul, SFmul.
  destruct (Prim2SF x), (Prim2SF y); simpl; tauto.
Qed.

Lemma mul_zero_or_nan_r (x y : float) : zero_or_nan y -> zero_or_nan (x * y).
Proof.
  unfold zero_or_nan. rewrite mul_spec. unfold SF64mul, SFmul.
  destruct (Prim2SF x), (Prim2SF y); simpl; tauto.
Qed.

Lemma add_zero_or_nan (x y : float) :
  zero_or_nan x -> zero_or_nan y -> zero_or_nan (x + y).
Proof.
  unfold zero_or_nan. rewrite add_spec. unfold SF64add, SFadd.
  destruct (Prim2SF x) as [[|]|[|]| |], (Prim2SF y) as [[|]|[|]| |];
    simpl; tauto.
Qed.

Lemma sqrt_zero_or_nan (x : float) : zero_or_nan x -> zero_or_nan (sqrt x).
Proof.
  unfold zero_or_nan. rewrite sqrt_spec. unfold SF64sqrt, SFsqrt.
  destruct (Prim2SF x) as [[|]|[|]| |[|] ? ?]; simpl; tauto.
Qed.

(** Zero or NaN divided by zero or NaN is NaN. *)
Lemma div_zero_or_nan (x y : float) :
  zero_or_nan x -> zero_or_nan y -> is_nan (x / y) = true.
Proof.
  unfold zero_or_nan. intros Hx Hy. apply is_nan_of_spec.
  rewrite div_spec. unfold SF64div, SFdiv.
  destruct (Prim2SF x), (Prim2SF y); simpl in *; tauto.
Qed.

(** The sums over an all-zero [a]. *)
Lemma cosine_sums_zero_a (a : list float) :
  Forall (fun x => is_zero x = true) a ->
  forall (b : list float) (dot nA nB : float),
    zero_or_nan dot -> zero_or_nan nA ->
    zero_or_nan (fst (fst (cosine_sums a b dot nA nB))) /\
    zero_or_nan (snd (fst (cosine_sums a b dot nA nB))).
Proof.
  induction 1 as [|x a Hx Ha IH]; intros b dot nA nB Hd Hn; simpl.
  - now split.
  - apply is_zero_zero_or_nan in Hx.
    apply IH; apply add_zero_or_nan; auto using mul_zero_or_nan_l.
Qed.

(** The sums over an all-zero [b]; past the end of [b] the loop reads
    NaN. *)
Lemma cosine_sums_zero_b (a : list float) :
  forall (b : list float) (dot nA nB : float),
    Forall (fun y => is_zero y = true) b ->
    zero_or_nan dot -> zero_or_nan nB ->
    zero_or_nan (fst (fst (cosine_sums a b dot nA nB))) /\
    zero_or_nan (snd (cosine_sums a b dot nA nB)).
Proof.
  induction a as [|x a IH]; intros b dot nA nB Hb Hd Hn; simpl.
  - now split.
  - assert (zero_or_nan (hd nan b) /\ Forall (fun y => is_zero y = true) (tl b))
      as [Hy Htl].
    { destruct Hb as [|y b Hy Hb]; simpl.
      - split; [exact nan_zero_or_nan | constructor].
      - split; [now apply is_zero_zero_or_nan | exact Hb]. }
    apply IH; try assumption;
      apply add_zero_or_nan; auto using mul_zero_or_nan_r.
Qed.

(** C10: when one of the two vectors is all zeros (in particular when
    the vectors are empty), the denominator is zero or NaN and
    [cosineSimilarity] returns NaN. *)
Theorem cosineSimilarity_zero_vector_nan :
  forall a b : list float,
    Forall (fun x => is_zero x = true) a \/
    Forall (fun y => is_zero y = true) b ->
    is_nan (cosineSimilarity a b) = true.
Proof.
  intros a b H. unfold cosineSimilarity.
  destruct H as [Ha | Hb].
  - destruct (cosine_sums_zero_a a Ha b 0 0 0
                zero_zero_or_nan zero_zero_or_nan) as [Hd Hn].
    destruct (cosine_sums a b 0 0 0) as [[dot nA] nB]. simpl in *.
    apply div_zero_or_nan; [exact Hd|].
    apply mul_zero_or_nan_l, sqrt_zero_or_nan, Hn.
  - destruct (cosine_sums_zero_b a b 0 0 0 Hb
                zero_zero_or_nan zero_zero_or_nan) as [Hd Hn].
    destruct (cosine_sums a b 0 0 0) as [[dot nA] nB]. simpl in *.
    apply div_zero_or_nan; [exact Hd|].
    apply mul_zero_or_nan_r, sqrt_zero_or_nan, Hn.
Qed.

Lemma cosineSimilarity_zero_vector_nan_witness :
  is_nan (cosineSimilarity [0; 0; 0]%float [0.25; 0.5; 1]%float) = true /\
  is_nan (cosineSimilarity [] []) = true.
Proof.
  split.
  - apply (cosineSimilarity_zero_vector_nan [0; 0; 0]%float
             [0.25; 0.5; 1]%float).
    left. repeat constructor.
  - apply (cosineSimilarity_zero_vector_nan [] []). left. constructor.
Defined.

End SimilarityFacts.

(* ================================================================== *)
(** * Quality scorer: refusal phrases and the unused query *)

Module QualityScorerFacts.
Import JS QualityScorer.

(** C3 (as the code has it): for a response that contains a refusal
    phrase the accuracy is 0.3, unless more than ten of the first 100
    context words (longer than four characters) are among the response's
    words: then the bonus of 0.2 is added and the accuracy is 0.5.  In
    both cases it is at most 0.5.  Words are cut at white space as [\s]
    has it, the no-break space included, and compared in lower case. *)
Theorem refusal_accuracy :
  forall (toFixed0 : float -> jsstring) (query context response : jsstring)
         (chunksRetrieved : Z) (avgSimilarity : float),
    hasRefusal response = true ->
    let s := scoreResponseHeuristic toFixed0 query context response
               chunksRetrieved avgSimilarity in
    accuracy s = (if 10 <? contextOverlap context response
                  then 0.5%float else 0.3%float) /\
    (accuracy s <=? 0.5)%float = true.
Proof.
  intros toFixed0 query context response chunksRetrieved avgSimilarity H s.
  subst s. unfold scoreResponseHeuristic. rewrite H. cbn [accuracy].
  destruct (10 <? contextOverlap context response); split; reflexivity.
Qed.

Lemma refusal_accuracy_witness :
  hasRefusal refusal_response = true /\
  accuracy (scoreResponseHeuristic unrendered (lit "Where is it?")
              (lit "Stored context.") refusal_response 2 0.75%float)
  = 0.3%float.
Proof.
  split; [reflexivity|].
  apply (refusal_accuracy unrendered (lit "Where is it?")
           (lit "Stored context.") refusal_response 2 0.75%float).
  reflexivity.
Defined.

(** C3, the claim as stated fails: a refusal that repeats eleven context
    words gets the context bonus, and its accuracy is 0.5. *)
Lemma refusal_accuracy_counterexample :
  hasRefusal refusal_response = true /\
  accuracy (scoreResponseHeuristic unrendered (lit "Where is it?")
              repeated_context refusal_response 2 0.75%float)
  = 0.5%float /\
  (0.5 <=? 0.3)%float = false.
Proof.
  repeat split; reflexivity.
Qed.

(** White space and letter case beyond ASCII: the no-break space
    separates words, so the eleven words of [no_break_context] earn the
    context bonus, and the capital letters of Latin-1 are lowered. *)
Lemma latin1_examples :
  accuracy (scoreResponseHeuristic unrendered (lit "Where is it?")
              no_break_context refusal_response 2 0.75%float)
  = 0.5%float /\
  contextOverlap no_break_context refusal_response = 11 /\
  toLowerCase ["201"%char; "067"%char; "215"%char]
  = ["233"%char; "099"%char; "215"%char].
Proof. repeat split; reflexivity. Qed.

(** C9: [scoreResponseHeuristic] never reads [query]; two calls that
    differ only in the query return the same record. *)
Theorem heuristic_ignores_query :
  forall (toFixed0 : float -> jsstring) (q1 q2 context response : jsstring)
         (chunksRetrieved : Z) (avgSimilarity : float),
    scoreResponseHeuristic toFixed0 q1 context response
      chunksRetrieved avgSimilarity
    = scoreResponseHeuristic toFixed0 q2 context response
        chunksRetrieved avgSimilarity.
Proof.
  intros toFixed0 q1 q2 context response chunksRetrieved avgSimilarity.
  unfold scoreResponseHeuristic.
  reflexivity.
Qed.

End QualityScorerFacts.

(* ================================================================== *)
(** * The stable sort *)

Module SortFacts.
Import JS.

Section Sort.
Variable A : Type.
Variable before : A -> A -> bool.

Lemma insert_sorted_perm (x : A) (l : list A) :
  Permutation (insert_sorted before x l) (x :: l).
Proof.
  induction l as [|y l IH]; simpl.
  - reflexivity.
  - destruct (before x y).
    + reflexivity.
    + rewrite IH. apply perm_swap.
Qed.

Lemma sort_perm (l : list A) : Permutation (sort before l) l.
Proof.
  induction l as [|x l IH]; simpl.
  - reflexivity.
  - rewrite insert_sorted_perm. now apply perm_skip.
Qed.

Lemma sort_In (l : list A) (x : A) : In x (sort before l) <-> In x l.
Proof.
  split; apply Permutation_in;
    [apply sort_perm | symmetry; apply sort_perm].
Qed.

(** The comparator is total: of two elements one may stand first. *)
Hypothesis before_total : forall x y, before x y = false -> before y x = true.

Lemma insert_sorted_sorted (x : A) (l : list A) :
  Sorted (fun a b => before a b = true) l ->
  Sorted (fun a b => before a b = true) (insert_sorted before x l).
Proof.
  induction l as [|y l IH]; intros Hs; simpl.
  - repeat constructor.
  - destruct (before x y) eqn:Hxy.
    + constructor; [exact Hs | now constructor].
    + inversion Hs as [|? ? Hs' Hhd]; subst.
      constructor; [now apply IH|].
      destruct l as [|z l]; simpl.
      * constructor. now apply before_total.
      * destruct (before x z).
        -- constructor. now apply before_total.
        -- constructor. now inversion Hhd.
Qed.

Lemma sort_sorted (l : list A) :
  Sorted (fun a b => before a b = true) (sort before l).
Proof.
  induction l as [|x l IH]; simpl.
  - constructor.
  - now apply insert_sorted_sorted.
Qed.

End Sort.

End SortFacts.

(* ================================================================== *)
(** * Context assembler: groups, runs and order *)

Module AssemblerFacts.
Import JS JSFacts Rows Assembler.

(** ** The map from documents to their chunks *)

Lemma map_push_keys (m : list (uuid * list ScoredChunk)) (k : uuid)
    (c : ScoredChunk) (d : uuid) :
  In d (map fst (map_push m k c)) <-> d = k \/ In d (map fst m).
Proof.
  induction m as [|[k' cs] m IH]; simpl.
  - intuition.
  - destruct (str_eqb k' k) eqn:Hk; simpl.
    + apply str_eqb_eq in Hk. subst. intuition.
    + rewrite IH. intuition.
Qed.

Lemma map_push_entries (m : list (uuid * list ScoredChunk)) (k : uuid)
    (c : ScoredChunk) (d : uuid) (cs : list ScoredChunk) :
  NoDup (map fst m) ->
  In (d, cs) (map_push m k c) ->
  (d <> k /\ In (d, cs) m) \/
  (d = k /\ ((~ In k (map fst m) /\ cs = [c]) \/
             (exists cs0, In (k, cs0) m /\ cs = cs0 ++ [c]))).
Proof.
  induction m as [|[k' cs'] m IH]; simpl; intros Hnd Hin.
  - destruct Hin as [Hin | []]. inversion Hin; subst.
    right. split; [reflexivity|]. left. split; [tauto | reflexivity].
  - inversion Hnd as [|? ? Hnotin Hnd']; subst.
    destruct (str_eqb k' k) eqn:Hk.
    + apply str_eqb_eq in Hk. subst k'.
      destruct Hin as [Hin | Hin].
      * inversion Hin; subst. right. split; [reflexivity|].
        right. exists cs'. split; [now left | reflexivity].
      * left. split; [|now right].
        intros ->. apply Hnotin. now apply (in_map fst) in Hin.
    + assert (k' <> k) as Hne
        by (intros ->; rewrite (proj2 (str_eqb_eq k k) eq_refl) in Hk;
            discriminate).
      destruct Hin as [Hin | Hin].
      * inversion Hin; subst. left. split; [exact Hne | now left].
      * destruct (IH Hnd' Hin) as [[Hd Hm] | [Hd [[Hn Hc] | [cs0 [Hm Hc]]]]].
        -- left. split; [exact Hd | now right].
        -- right. split; [exact Hd|]. left. split; [|exact Hc].
           intros [Heq | Hm]; [congruence | now apply Hn].
        -- right. split; [exact Hd|]. right. exists cs0.
           split; [now right | exact Hc].
Qed.

Lemma map_push_nodup (m : list (uuid * list ScoredChunk)) (k : uuid)
    (c : ScoredChunk) :
  NoDup (map fst m) -> NoDup (map fst (map_push m k c)).
Proof.
  induction m as [|[k' cs'] m IH]; simpl; intros Hnd.
  - repeat constructor. tauto.
  - inversion Hnd as [|? ? Hnotin Hnd']; subst.
    destruct (str_eqb k' k) eqn:Hk; simpl.
    + constructor; assumption.
    + constructor; [|now apply IH].
      rewrite map_push_keys. intros [-> | Hin]; [|tauto].
      rewrite (proj2 (str_eqb_eq k k) eq_refl) in Hk. discriminate.
Qed.

Lemma map_push_ok (seen : list ScoredChunk)
    (m : list (uuid * list ScoredChunk)) (c : ScoredChunk) :
  groups_ok seen m ->
  groups_ok (seen ++ [c]) (map_push m (document_id c) c).
Proof.
  intros [Hnd [Hgroups Hkeys]]. split; [|split].
  - now apply map_push_nodup.
  - intros d cs Hin.
    destruct (map_push_entries m (document_id c) c d cs Hnd Hin)
      as [[Hd Hm] | [Hd [[Hn Hc] | [cs0 [Hm Hc]]]]].
    + destruct (Hgroups d cs Hm) as [Hne Hiff]. split; [exact Hne|].
      intros x. rewrite Hiff, in_app_iff. simpl.
      intuition (subst; congruence).
    + subst. split; [discriminate|]. intros x. simpl.
      rewrite in_app_iff. simpl. split.
      * intros [<- | []]. tauto.
      * intros [[Hx | [<- | []]] Hdoc]; [|now left].
        exfalso. apply Hn. rewrite <- Hdoc. now apply Hkeys.
    + subst. destruct (Hgroups _ cs0 Hm) as [Hne Hiff]. split.
      * destruct cs0; discriminate.
      * intros x. rewrite !in_app_iff, Hiff. simpl.
        intuition (subst; auto).
  - intros x. rewrite in_app_iff, map_push_keys. simpl.
    intros [Hx | [<- | []]]; [right; now apply Hkeys | now left].
Qed.

Lemma chunksByDocument_ok_from (l seen : list ScoredChunk)
    (m : list (uuid * list ScoredChunk)) :
  groups_ok seen m ->
  groups_ok (seen ++ l)
    (fold_left (fun m c => map_push m (document_id c) c) l m).
Proof.
  revert seen m. induction l as [|c l IH]; intros seen m Hok; simpl.
  - now rewrite app_nil_r.
  - replace (seen ++ c :: l) with ((seen ++ [c]) ++ l)
      by (now rewrite <- app_assoc).
    apply IH. now apply map_push_ok.
Qed.

Lemma chunksByDocument_ok (l : list ScoredChunk) :
  groups_ok l (chunksByDocument l).
Proof.
  apply (chunksByDocument_ok_from l [] []).
  split; [constructor | split]; simpl; intros; contradiction.
Qed.

(** ** Runs of consecutive indices *)

Lemma consecutive_groups_concat (rest g : list ScoredChunk) :
  List.concat (consecutive_groups g rest) = g ++ rest.
Proof.
  revert g. induction rest as [|c rest IH]; intros g; simpl.
  - now rewrite app_nil_r.
  - destruct (rev g) as [|lastInGroup ?];
      [|destruct (chunk_index c =? chunk_index lastInGroup + 1)];
      simpl; rewrite IH; simpl; try reflexivity.
    now rewrite <- app_assoc.
Qed.

Lemma consecutive_groups_nonempty (rest g : list ScoredChunk) :
  g <> [] -> forall r, In r (consecutive_groups g rest) -> r <> [].
Proof.
  revert g. induction rest as [|c rest IH]; intros g Hg r Hr; simpl in Hr.
  - destruct Hr as [<- | []]. exact Hg.
  - destruct (rev g) as [|lastInGroup ?];
      [|destruct (chunk_index c =? chunk_index lastInGroup + 1)].
    + destruct Hr as [<- | Hr]; [exact Hg|].
      apply (IH [c]); [discriminate | exact Hr].
    + apply (IH (g ++ [c])); [|exact Hr]. destruct g; discriminate.
    + destruct Hr as [<- | Hr]; [exact Hg|].
      apply (IH [c]); [discriminate | exact Hr].
Qed.

(** The group under construction ends up inside one finished group. *)
Lemma consecutive_groups_head (rest g : list ScoredChunk) :
  exists r, In r (consecutive_groups g rest) /\ forall z, In z g -> In z r.
Proof.
  revert g. induction rest as [|c rest IH]; intros g; simpl.
  - exists g. split; [now left | auto].
  - destruct (rev g) as [|lastInGroup ?];
      [|destruct (chunk_index c =? chunk_index lastInGroup + 1)].
    + exists g. split; [now left | auto].
    + destruct (IH (g ++ [c])) as [r [Hr Hsub]].
      exists r. split; [exact Hr|].
      intros z Hz. apply Hsub, in_app_iff. now left.
    + exists g. split; [now left | auto].
Qed.

(** Two neighbours of the walk whose indices are consecutive end up in
    the same group: either [x] is the last chunk of the current group and
    [y] comes next, or both are still ahead. *)
Lemma consecutive_groups_adjacent (x y : ScoredChunk) :
  chunk_index y = chunk_index x + 1 ->
  forall rest g : list ScoredChunk,
    ((exists g', rev g = x :: g') /\ (exists rest', rest = y :: rest')) \/
    (exists l1 l2, rest = l1 ++ x :: y :: l2) ->
    exists r, In r (consecutive_groups g rest) /\ In x r /\ In y r.
Proof.
  intros Hxy. induction rest as [|c rest IH]; intros g Hpos.
  - destruct Hpos as [[_ [rest' Hrest]] | [l1 [l2 Hrest]]].
    + discriminate.
    + destruct l1; discriminate.
  - destruct Hpos as [[[g' Hg] [rest' Hrest]] | [l1 [l2 Hrest]]].
    + (* [x] closes the current group and [c] is [y] *)
      inversion Hrest; subst c rest'. simpl. rewrite Hg.
      rewrite Hxy, Z.eqb_refl.
      destruct (consecutive_groups_head rest (g ++ [y])) as [r [Hr Hsub]].
      exists r. split; [exact Hr|]. split; apply Hsub, in_app_iff.
      * left. apply in_rev. rewrite Hg. now left.
      * right. now left.
    + assert (forall g0, (exists g', rev g0 = c :: g') ->
                exists r, In r (consecutive_groups g0 rest)
                          /\ In x r /\ In y r) as Hnext.
      { intros g0 Hg0. apply IH.
        destruct l1 as [|c' l1]; simpl in Hrest; inversion Hrest; subst.
        - left. split; [exact Hg0 | now eexists].
        - right. now exists l1, l2. }
      simpl.
      destruct (rev g) as [|lastInGroup ?];
        [|destruct (chunk_index c =? chunk_index lastInGroup + 1)].
      * destruct (Hnext [c]) as [r [Hr Hin]]; [now exists []|].
        exists r. split; [now right | exact Hin].
      * destruct (Hnext (g ++ [c])) as [r [Hr Hin]].
        { rewrite rev_app_distr. simpl. now eexists. }
        exists r. split; [exact Hr | exact Hin].
      * destruct (Hnext [c]) as [r [Hr Hin]]; [now exists []|].
        exists r. split; [now right | exact Hin].
Qed.

(** In a list sorted by index that holds the indices [i] and [i + 1],
    some chunk with index [i] is followed at once by one with index
    [i + 1]. *)
Lemma sorted_adjacent (i : Z) (l : list ScoredChunk) :
  StronglySorted (fun a b => chunk_index a <= chunk_index b) l ->
  (exists a, In a l /\ chunk_index a = i) ->
  (exists b, In b l /\ chunk_index b = i + 1) ->
  exists l1 x y l2,
    l = l1 ++ x :: y :: l2 /\ chunk_index x = i /\ chunk_index y = i + 1.
Proof.
  induction 1 as [|h t Ht IH Hh]; intros [a [Ha Hia]] [b [Hb Hib]].
  - contradiction.
  - rewrite Forall_forall in Hh.
    destruct (existsb (fun c => chunk_index c =? i) t) eqn:Hex.
    + (* the index [i] occurs again further on *)
      apply existsb_exists in Hex. destruct Hex as [a' [Ha' Hia']].
      apply Z.eqb_eq in Hia'.
      assert (In b t) as Hbt.
      { destruct Hb as [<- | Hb]; [|exact Hb].
        specialize (Hh a' Ha'). lia. }
      destruct IH as [l1 [x [y [l2 [Heq [Hx Hy]]]]]];
        [now exists a' | now exists b |].
      exists (h :: l1), x, y, l2. subst t. auto.
    + (* [h] is the only chunk with index [i] *)
      assert (forall c, In c t -> chunk_index c <> i) as Hnone.
      { intros c Hc Hci.
        assert (existsb (fun c => chunk_index c =? i) t = true);
          [|congruence].
        apply existsb_exists. exists c. split; [exact Hc|].
        now apply Z.eqb_eq. }
      assert (chunk_index h = i) as Hhi.
      { destruct Ha as [<- | Ha]; [exact Hia|]. now apply Hnone in Ha. }
      assert (In b t) as Hbt by (destruct Hb as [<- | Hb]; [lia | exact Hb]).
      destruct t as [|y t']; [contradiction|].
      exists [], h, y, t'. split; [reflexivity|]. split; [exact Hhi|].
      assert (chunk_index y <= chunk_index b) as Hyb.
      { destruct Hbt as [<- | Hbt]; [lia|].
        inversion Ht as [|? ? _ Hy]; subst.
        rewrite Forall_forall in Hy. now apply Hy. }
      specialize (Hh y ltac:(now left)).
      specialize (Hnone y ltac:(now left)). lia.
Qed.

(** ** The scores of a passage *)

Lemma max2_ge (x y : Q) : (x <= max2 x y /\ y <= max2 x y)%Q.
Proof.
  unfold max2. destruct (Qle_bool x y) eqn:H.
  - apply Qle_bool_iff in H. split; [exact H | apply Qle_refl].
  - split; [apply Qle_refl|].
    destruct (Qlt_le_dec x y) as [Hlt | Hle]; [|exact Hle].
    apply Qlt_le_weak, Qle_bool_iff in Hlt. congruence.
Qed.

Lemma fold_max2_ge (xs : list Q) :
  forall x, (x <= fold_left max2 xs x)%Q /\
            (forall v, In v xs -> v <= fold_left max2 xs x)%Q.
Proof.
  induction xs as [|y xs IH]; intros x; simpl.
  - split; [apply Qle_refl | contradiction].
  - destruct (IH (max2 x y)) as [H1 H2].
    destruct (max2_ge x y) as [Hx Hy]. split.
    + eapply Qle_trans; eassumption.
    + intros v [<- | Hv]; [eapply Qle_trans; eassumption | now apply H2].
Qed.

Lemma fold_max2_in (xs : list Q) :
  forall x, fold_left max2 xs x = x \/ In (fold_left max2 xs x) xs.
Proof.
  induction xs as [|y xs IH]; intros x; simpl.
  - now left.
  - destruct (IH (max2 x y)) as [H | H]; [|now right; right].
    rewrite H. unfold max2. destruct (Qle_bool x y); [right | ]; now left.
Qed.

Lemma or_zero_some (v : Q) : (or_zero (Some v) == v)%Q.
Proof.
  simpl. destruct (Qeq_bool v 0) eqn:H; [|reflexivity].
  apply Qeq_bool_iff in H. now rewrite H.
Qed.

(** [max_combined_score] is the greatest combined score of the members. *)
Lemma max_combined_score_is_max (g : list ScoredChunk) :
  g <> [] ->
  (forall c, In c g ->
     (combined_score c <= max_combined_score (createMergedChunk g))%Q) /\
  (exists c, In c g /\
     (max_combined_score (createMergedChunk g) == combined_score c)%Q).
Proof.
  destruct g as [|c0 g]; [congruence|]. intros _.
  set (f := fun c => or_zero (Some (combined_score c))).
  change (max_combined_score (createMergedChunk (c0 :: g)))
    with (fold_left max2 (map f g) (f c0)).
  assert (forall c, (f c == combined_score c)%Q) as Hf
    by (intros c; apply (or_zero_some (combined_score c))).
  destruct (fold_max2_ge (map f g) (f c0)) as [H0 Hrest]. split.
  - intros c Hc. apply Qle_trans with (f c).
    + apply Qle_lteq. right. symmetry. apply Hf.
    + destruct Hc as [<- | Hc]; [exact H0|]. apply Hrest. now apply in_map.
  - destruct (fold_max2_in (map f g) (f c0)) as [H | H].
    + exists c0. split; [now left|]. rewrite H. apply Hf.
    + apply in_map_iff in H. destruct H as [c [Hc Hin]].
      exists c. split; [now right|]. rewrite <- Hc. apply Hf.
Qed.

(** ** The passages of one document and of all documents *)

Lemma merge_document_groups (chunks : list ScoredChunk) (p : MergedChunk) :
  In p (merge_document chunks) ->
  exists g, g <> [] /\ p = createMergedChunk g /\
            forall c, In c g -> In c chunks.
Proof.
  unfold merge_document.
  destruct (sort _ chunks) as [|c0 rest] eqn:Hsort; [contradiction|].
  intros Hp. apply in_map_iff in Hp. destruct Hp as [g [<- Hg]].
  exists g. split; [|split; [reflexivity|]].
  - apply (consecutive_groups_nonempty rest [c0]); [discriminate | exact Hg].
  - intros c Hc.
    apply (SortFacts.sort_In _ (fun a b => chunk_index a - chunk_index b <=? 0)).
    rewrite Hsort.
    change (c0 :: rest) with ([c0] ++ rest).
    rewrite <- consecutive_groups_concat.
    apply in_concat. now exists g.
Qed.

Lemma sort_by_index_sorted (chunks : list ScoredChunk) :
  StronglySorted (fun a b => chunk_index a <= chunk_index b)
    (sort (fun a b => chunk_index a - chunk_index b <=? 0) chunks).
Proof.
  apply Sorted_StronglySorted.
  - intros a b c Hab Hbc. lia.
  - eapply Sorted_ind
      with (P := Sorted (fun a b => chunk_index a <= chunk_index b));
      [constructor | | apply SortFacts.sort_sorted].
    + intros a l _ IH Hhd. constructor; [exact IH|].
      destruct Hhd as [|b l Hab]; constructor.
      apply Z.leb_le in Hab. lia.
    + intros x y Hxy. apply Z.leb_gt in Hxy. apply Z.leb_le. lia.
Qed.

(** Consecutive indices of one document's chunks meet in one run. *)
Lemma merge_document_adjacent (chunks : list ScoredChunk) (i : Z) :
  (exists a, In a chunks /\ chunk_index a = i) ->
  (exists b, In b chunks /\ chunk_index b = i + 1) ->
  exists g x y,
    In (createMergedChunk g) (merge_document chunks) /\
    In x g /\ In y g /\ In x chunks /\ In y chunks /\
    chunk_index x = i /\ chunk_index y = i + 1.
Proof.
  intros [a [Ha Hia]] [b [Hb Hib]].
  pose proof (sort_by_index_sorted chunks) as Hsorted.
  pose proof (SortFacts.sort_In _
                (fun a b => chunk_index a - chunk_index b <=? 0) chunks)
    as Hin.
  unfold merge_document.
  destruct (sorted_adjacent i _ Hsorted) as [l1 [x [y [l2 [Heq [Hx Hy]]]]]].
  { exists a. split; [now apply Hin | exact Hia]. }
  { exists b. split; [now apply Hin | exact Hib]. }
  rewrite Heq in *.
  assert (In x chunks /\ In y chunks) as [Hxc Hyc].
  { split; apply Hin, in_app_iff; right; simpl; auto. }
  destruct l1 as [|c0 l1]; simpl.
  - destruct (consecutive_groups_adjacent x y ltac:(lia) (y :: l2) [x])
      as [g [Hg [Hxg Hyg]]].
    { left. split; [now exists [] | now eexists]. }
    exists g, x, y. split; [now apply in_map|]. auto 10.
  - destruct (consecutive_groups_adjacent x y ltac:(lia)
                (l1 ++ x :: y :: l2) [c0]) as [g [Hg [Hxg Hyg]]].
    { right. now exists l1, l2. }
    exists g, x, y. split; [now apply in_map|]. auto 10.
Qed.

Lemma mergeChunks_In (relevantChunks : list ScoredChunk) (p : MergedChunk) :
  In p (mergeChunks relevantChunks) <->
  exists d cs, In (d, cs) (chunksByDocument relevantChunks)
               /\ In p (merge_document cs).
Proof.
  unfold mergeChunks. rewrite SortFacts.sort_In, in_flat_map. split.
  - intros [[d cs] [Hin Hp]]. now exists d, cs.
  - intros [d [cs [Hin Hp]]]. now exists (d, cs).
Qed.

Lemma createMergedChunk_document (g : list ScoredChunk) (d : uuid) :
  g <> [] -> (forall c, In c g -> document_id c = d) ->
  m_document_id (createMergedChunk g) = d.
Proof.
  destruct g as [|c g]; [congruence|]. intros _ H. simpl. apply H. now left.
Qed.

(** Two chunks of one document with consecutive indices: a passage of
    that document holds chunks with these two indices. *)
Lemma consecutive_share_group (relevantChunks : list ScoredChunk)
    (a b : ScoredChunk) :
  In a relevantChunks -> In b relevantChunks ->
  document_id a = document_id b ->
  chunk_index b = chunk_index a + 1 ->
  exists g x y,
    In (createMergedChunk g) (mergeChunks relevantChunks) /\
    m_document_id (createMergedChunk g) = document_id a /\
    In x g /\ In y g /\ In x relevantChunks /\ In y relevantChunks /\
    document_id x = document_id a /\ document_id y = document_id a /\
    chunk_index x = chunk_index a /\ chunk_index y = chunk_index b.
Proof.
  intros Ha Hb Hdoc Hidx.
  destruct (chunksByDocument_ok relevantChunks) as [_ [Hgroups Hkeys]].
  specialize (Hkeys a Ha). apply in_map_iff in Hkeys.
  destruct Hkeys as [[d cs] [Hd Hentry]]. simpl in Hd. subst d.
  destruct (Hgroups _ _ Hentry) as [_ Hmem].
  destruct (merge_document_adjacent cs (chunk_index a))
    as [g [x [y [Hg [Hxg [Hyg [Hx [Hy [Hxi Hyi]]]]]]]]].
  { exists a. split; [now apply Hmem | reflexivity]. }
  { exists b. split; [apply Hmem; split; congruence | exact Hidx]. }
  destruct (merge_document_groups cs _ Hg) as [g' [Hne [Heq Hsub]]].
  exists g, x, y.
  apply Hmem in Hx. apply Hmem in Hy.
  split; [apply mergeChunks_In; now exists (document_id a), cs|].
  split.
  - rewrite Heq. apply createMergedChunk_document; [exact Hne|].
    intros c Hc. now apply Hmem, Hsub.
  - intuition congruence.
Qed.

(** A passage is built from a nonempty group of chunks of one document. *)
Lemma passage_members (relevantChunks : list ScoredChunk) (p : MergedChunk) :
  In p (mergeChunks relevantChunks) ->
  exists g, g <> [] /\ p = createMergedChunk g /\
    forall c, In c g -> In c relevantChunks /\ document_id c = m_document_id p.
Proof.
  intros Hp. apply mergeChunks_In in Hp. destruct Hp as [d [cs [Hentry Hp]]].
  destruct (chunksByDocument_ok relevantChunks) as [_ [Hgroups _]].
  destruct (Hgroups _ _ Hentry) as [_ Hmem].
  destruct (merge_document_groups cs p Hp) as [g [Hne [Heq Hsub]]].
  exists g. split; [exact Hne|]. split; [exact Heq|].
  assert (m_document_id p = d) as ->.
  { rewrite Heq. apply createMergedChunk_document; [exact Hne|].
    intros c Hc. now apply Hmem, Hsub. }
  intros c Hc. now apply Hmem, Hsub.
Qed.

Lemma mergeChunks_sorted (relevantChunks : list ScoredChunk) :
  StronglySorted
    (fun p q => (max_combined_score q <= max_combined_score p)%Q)
    (mergeChunks relevantChunks).
Proof.
  apply Sorted_StronglySorted.
  - intros p q r Hpq Hqr. eapply Qle_trans; eassumption.
  - unfold mergeChunks.
    eapply Sorted_ind
      with (P := Sorted (fun p q =>
                   (max_combined_score q <= max_combined_score p)%Q));
      [constructor | | apply SortFacts.sort_sorted].
    + intros a l _ IH Hhd. constructor; [exact IH|].
      destruct Hhd as [|b l Hab]; constructor.
      apply Qle_bool_iff in Hab. lra.
    + intros x y Hxy. apply Qle_bool_iff.
      destruct (Qlt_le_dec 0 (max_combined_score y - max_combined_score x))
        as [Hlt | Hle].
      * lra.
      * apply Qle_bool_iff in Hle. congruence.
Qed.

(** C6: two chunks of one document with indices [i] and [i + 1] are in
    one passage (a passage of that document lists both indices; where an
    index names one chunk of the document, the passage is built from both
    chunks); every passage is built from chunks of a single document, and
    its [max_combined_score] is the greatest combined score of these
    chunks; the passages are in descending order of [max_combined_score]. *)
Theorem merged_passages :
  forall relevantChunks : list ScoredChunk,
    let passages := mergeChunks relevantChunks in
    (forall a b, In a relevantChunks -> In b relevantChunks ->
       document_id a = document_id b ->
       chunk_index b = chunk_index a + 1 ->
       exists p, In p passages /\ m_document_id p = document_id a /\
         In (chunk_index a) (chunk_indices p) /\
         In (chunk_index b) (chunk_indices p)) /\
    (index_identifies_chunk relevantChunks ->
     forall a b, In a relevantChunks -> In b relevantChunks ->
       document_id a = document_id b ->
       chunk_index b = chunk_index a + 1 ->
       exists g, In (createMergedChunk g) passages /\ In a g /\ In b g) /\
    (forall p, In p passages ->
       exists g, g <> [] /\ p = createMergedChunk g /\
         (forall c, In c g ->
            In c relevantChunks /\ document_id c = m_document_id p) /\
         (forall c, In c g -> (combined_score c <= max_combined_score p)%Q) /\
         (exists c, In c g /\ (max_combined_score p == combined_score c)%Q)) /\
    StronglySorted
      (fun p q => (max_combined_score q <= max_combined_score p)%Q) passages.
Proof.
  intros relevantChunks passages. subst passages.
  split; [|split; [|split]].
  - intros a b Ha Hb Hdoc Hidx.
    destruct (consecutive_share_group relevantChunks a b Ha Hb Hdoc Hidx)
      as [g [x [y [Hg [Hd [Hxg [Hyg [_ [_ [_ [_ [Hxi Hyi]]]]]]]]]]]].
    exists (createMergedChunk g). split; [exact Hg|]. split; [exact Hd|].
    simpl. rewrite <- Hxi, <- Hyi. split; now apply in_map.
  - intros Hid a b Ha Hb Hdoc Hidx.
    destruct (consecutive_share_group relevantChunks a b Ha Hb Hdoc Hidx)
      as [g [x [y [Hg [_ [Hxg [Hyg [Hx [Hy [Hxd [Hyd [Hxi Hyi]]]]]]]]]]]].
    exists g. split; [exact Hg|].
    rewrite <- (Hid x a Hx Ha Hxd Hxi).
    rewrite <- (Hid y b Hy Hb ltac:(congruence) Hyi). now split.
  - intros p Hp.
    destruct (passage_members relevantChunks p Hp) as [g [Hne [Heq Hmem]]].
    exists g. split; [exact Hne|]. split; [exact Heq|]. split; [exact Hmem|].
    rewrite Heq. apply max_combined_score_is_max, Hne.
  - apply mergeChunks_sorted.
Qed.

Lemma example_rows_indexed : index_identifies_chunk example_rows.
Proof.
  intros x y Hx Hy Hdoc Hidx. simpl in Hx, Hy.
  destruct Hx as [<- | [<- | [<- | [<- | []]]]];
    destruct Hy as [<- | [<- | [<- | [<- | []]]]];
    try reflexivity;
    try (vm_compute in Hdoc; discriminate);
    vm_compute in Hidx; discriminate.
Qed.

Lemma merged_passages_witness :
  exists g,
    In (createMergedChunk g) (mergeChunks example_rows) /\
    In (row "A" 2 (6 # 10)) g /\ In (row "A" 3 (8 # 10)) g.
Proof.
  apply (proj1 (proj2 (merged_passages example_rows)) example_rows_indexed).
  - simpl. auto.
  - simpl. auto.
  - reflexivity.
  - reflexivity.
Defined.

(** On the example rows: indices 2 and 3 of document A are merged, index
    0 stays alone, and the passages come in the order of their best
    score. *)
Lemma example_passages :
  map (fun p => (string_of_list_ascii (m_document_id p), chunk_indices p,
                 Qred (max_combined_score p)))
    (mergeChunks example_rows)
  = [ ("B"%string, [0], (9 # 10)%Q);
      ("A"%string, [2; 3], (4 # 5)%Q);
      ("A"%string, [0], (7 # 10)%Q) ].
Proof. reflexivity. Qed.

(** Chunks 0 and 2 of one document, with no chunk 1 between them, stay
    two passages. *)
Lemma example_gap :
  map chunk_indices (mergeChunks [row "A" 0 (7 # 10); row "A" 2 (6 # 10)])
  = [[0]; [2]].
Proof. reflexivity. Qed.

End AssemblerFacts.

(* ================================================================== *)
(** * Hybrid scorer: the vector threshold and the OR query *)

Module HybridSearchFacts.
Import JS JSFacts Rows HybridSearch.

Lemma firstn_In {A} (n : nat) (l : list A) (x : A) :
  In x (firstn n l) -> In x l.
Proof.
  revert l. induction n as [|n IH]; intros [|y l]; simpl; try tauto.
  intros [-> | H]; [now left | right; now apply IH].
Qed.

Lemma Qgt_bool_iff (x y : Q) : Qgt_bool x y = true <-> (y < x)%Q.
Proof.
  unfold Qgt_bool. rewrite negb_true_iff. split.
  - intros H. apply Qnot_le_lt. intros Hle.
    apply Qle_bool_iff in Hle. congruence.
  - intros H. destruct (Qle_bool x y) eqn:Hle; [|reflexivity].
    apply Qle_bool_iff in Hle. exfalso. apply (Qlt_not_le _ _ H Hle).
Qed.

Lemma existsb_str_eqb (l : lexeme) (v : list lexeme) :
  existsb (str_eqb l) v = true <-> In l v.
Proof.
  rewrite existsb_exists. split.
  - intros [x [Hx Heq]]. apply str_eqb_eq in Heq. now subst.
  - intros H. exists l. split; [exact H | now apply str_eqb_eq].
Qed.

(** ** The text of the OR query *)

(** The text [l1 | l2 | ...]. *)
Lemma replace_and_text (ls : list lexeme) :
  parse_query (replace_amp_bar (and_text ls)) = Some (map (fun l => [l]) ls).
Proof.
  induction ls as [|l ls IH]; [reflexivity|].
  destruct ls as [|l' ls]; [reflexivity|].
  change (replace_amp_bar (and_text (l :: l' :: ls)))
    with (TLex l :: TBar :: replace_amp_bar (and_text (l' :: ls))).
  change (parse_query (TLex l :: TBar :: replace_amp_bar (and_text (l' :: ls))))
    with (match parse_query (replace_amp_bar (and_text (l' :: ls))) with
          | Some (g :: q) => Some ([l] :: g :: q)
          | _ => None
          end).
  now rewrite IH.
Qed.

(** A match against the OR of single lexemes, and against their AND. *)
Lemma ts_match_or (v : tsvector) (ls : list lexeme) :
  ts_match v (map (fun l => [l]) ls) = true <-> exists l, In l ls /\ In l v.
Proof.
  unfold ts_match. rewrite existsb_exists. split.
  - intros [g [Hg Hall]]. apply in_map_iff in Hg.
    destruct Hg as [l [<- Hl]]. simpl in Hall.
    rewrite andb_true_r in Hall. exists l. split; [exact Hl|].
    now apply existsb_str_eqb.
  - intros [l [Hl Hv]]. exists [l].
    split; [exact (in_map (fun l => [l]) ls l Hl)|].
    simpl. rewrite andb_true_r. now apply existsb_str_eqb.
Qed.

Lemma ts_match_and (v : tsvector) (ls : list lexeme) :
  ts_match v [ls] = true <-> forall l, In l ls -> In l v.
Proof.
  unfold ts_match. simpl. rewrite orb_false_r, forallb_forall.
  split; intros H l Hl; apply existsb_str_eqb; auto.
Qed.

Section Database.
Variable vector : Type.
Variable cosine_distance : vector -> vector -> Q.
Variable ts_parse : jsstring -> list jsstring.
Variable lexize : jsstring -> option lexeme.
Variable ts_rank_cd : tsvector -> tsquery -> Z -> Q.
Variable documents : list (document vector).
Variable document_chunks : list (document_chunk vector).

Lemma plainto_tsquery_text (query_text : jsstring) :
  tsquery_out (plainto_tsquery ts_parse lexize query_text)
  = and_text (query_lexemes ts_parse lexize query_text).
Proof.
  unfold plainto_tsquery, query_lexemes.
  now destruct (normalize lexize (ts_parse query_text)).
Qed.

(** The text of the OR query always parses. *)
Lemma to_tsquery_or_defined (query_text : jsstring) :
  exists q,
    to_tsquery lexize
      (replace_amp_bar (tsquery_out (plainto_tsquery ts_parse lexize query_text)))
    = Some q.
Proof.
  unfold to_tsquery. rewrite plainto_tsquery_text, replace_and_text.
  now eexists.
Qed.

(** Membership in the result of the shared body. *)
Lemma search_rows (with_ds : bool) (relevant_doc_ids : option (list uuid))
    (query_text : jsstring) (query_embedding : vector)
    (match_threshold : Q) (match_count : Z) (filter_company_id : option uuid)
    (bm25_weight vector_weight : Q) :
  0 <= match_count ->
  exists q_or rows,
    to_tsquery lexize
      (replace_amp_bar (tsquery_out (plainto_tsquery ts_parse lexize query_text)))
    = Some q_or /\
    search cosine_distance ts_parse lexize ts_rank_cd documents document_chunks
      with_ds relevant_doc_ids query_text query_embedding match_threshold
      match_count filter_company_id bm25_weight vector_weight = Some rows /\
    (forall r, In r rows ->
       exists v,
         In v (vector_results cosine_distance documents document_chunks
                 query_embedding match_threshold filter_company_id
                 relevant_doc_ids) /\
         r = scored_row cosine_distance ts_parse lexize ts_rank_cd
               (plainto_tsquery ts_parse lexize query_text) q_or
               query_embedding bm25_weight vector_weight with_ds v) /\
    (forall v,
       In v (vector_results cosine_distance documents document_chunks
               query_embedding match_threshold filter_company_id
               relevant_doc_ids) ->
       Z.of_nat (List.length
         (vector_results cosine_distance documents document_chunks
            query_embedding match_threshold filter_company_id
            relevant_doc_ids)) <= match_count ->
       In (scored_row cosine_distance ts_parse lexize ts_rank_cd
             (plainto_tsquery ts_parse lexize query_text) q_or
             query_embedding bm25_weight vector_weight with_ds v) rows).
Proof.
  intros Hcount.
  destruct (to_tsquery_or_defined query_text) as [q_or Hq].
  unfold search. rewrite Hq. unfold order_and_limit.
  destruct (Z.ltb_spec match_count 0) as [|_]; [lia|].
  exists q_or. eexists. split; [reflexivity|]. split; [reflexivity|]. split.
  - intros r Hr. apply firstn_In, SortFacts.sort_In, in_map_iff in Hr.
    destruct Hr as [v [Hv Hin]]. now exists v.
  - intros v Hv Hlen.
    rewrite firstn_all2.
    + apply SortFacts.sort_In. now apply in_map.
    + rewrite (Permutation_length (SortFacts.sort_perm _ _ _)), length_map.
      lia.
Qed.

(** A row of [vector_results] comes from a chunk of the join whose
    similarity to the query is above the threshold. *)
Lemma vector_results_above (query_embedding : vector) (match_threshold : Q)
    (filter_company_id : option uuid) (relevant_doc_ids : option (list uuid))
    (dc : document_chunk vector) (d : document vector) (s : Q) :
  In (dc, d, s)
    (vector_results cosine_distance documents document_chunks
       query_embedding match_threshold filter_company_id relevant_doc_ids) ->
  In (dc, d) (joined documents document_chunks) /\
  similarity cosine_distance (embedding dc) query_embedding = Some s /\
  (match_threshold < s)%Q.
Proof.
  unfold vector_results. rewrite in_flat_map.
  intros [[dc' d'] [Hj Hin]].
  destruct (similarity cosine_distance (embedding dc') query_embedding)
    as [s'|] eqn:Hs; [|contradiction].
  destruct (Qgt_bool s' match_threshold) eqn:Hgt; simpl in Hin;
    [|contradiction].
  destruct (company_ok filter_company_id d' && document_ok relevant_doc_ids d');
    simpl in Hin; [|contradiction].
  destruct Hin as [Heq | []]. inversion Heq; subst.
  split; [exact Hj|]. split; [exact Hs|]. now apply Qgt_bool_iff.
Qed.

(** What the shared body guarantees about the vector scores. *)
Lemma search_above_threshold (with_ds : bool)
    (relevant_doc_ids : option (list uuid))
    (query_text : jsstring) (query_embedding : vector)
    (match_threshold : Q) (match_count : Z) (filter_company_id : option uuid)
    (bm25_weight vector_weight : Q) :
  0 <= match_count ->
  exists rows,
    search cosine_distance ts_parse lexize ts_rank_cd documents document_chunks
      with_ds relevant_doc_ids query_text query_embedding match_threshold
      match_count filter_company_id bm25_weight vector_weight = Some rows /\
    rows_above_threshold cosine_distance documents document_chunks
      query_embedding match_threshold rows.
Proof.
  intros Hcount.
  destruct (search_rows with_ds relevant_doc_ids query_text query_embedding
              match_threshold match_count filter_company_id bm25_weight
              vector_weight Hcount) as [q_or [rows [_ [Hrows [Hfrom _]]]]].
  exists rows. split; [exact Hrows|].
  intros r Hr. destruct (Hfrom r Hr) as [[[dc d] s] [Hv ->]].
  apply vector_results_above in Hv. destruct Hv as [Hj [Hs Hgt]].
  simpl. split; [exact Hgt|]. exists dc, d. auto.
Qed.

(** ** The first definition: keyword matches joined to the vector results *)

Lemma joined_iff (dc : document_chunk vector) (d : document vector) :
  In (dc, d) (joined documents document_chunks) <->
  In dc document_chunks /\ In d documents /\
  str_eqb (dc_document_id dc) (doc_id d) = true.
Proof.
  unfold joined. rewrite in_flat_map. split.
  - intros [dc' [Hdc Hin]]. apply in_map_iff in Hin.
    destruct Hin as [d' [Heq Hd]]. inversion Heq; subst.
    apply filter_In in Hd. tauto.
  - intros [Hdc [Hd Hid]]. exists dc. split; [exact Hdc|].
    apply in_map, filter_In. tauto.
Qed.

Lemma vector_results_member (query_embedding : vector) (match_threshold : Q)
    (filter_company_id : option uuid) (relevant_doc_ids : option (list uuid))
    (dc : document_chunk vector) (d : document vector) (s : Q) :
  In (dc, d) (joined documents document_chunks) ->
  similarity cosine_distance (embedding dc) query_embedding = Some s ->
  Qgt_bool s match_threshold = true ->
  company_ok filter_company_id d = true ->
  document_ok relevant_doc_ids d = true ->
  In (dc, d, s)
    (vector_results cosine_distance documents document_chunks
       query_embedding match_threshold filter_company_id relevant_doc_ids).
Proof.
  intros Hj Hs Hgt Hc Hd. unfold vector_results. rewrite in_flat_map.
  exists (dc, d). split; [exact Hj|].
  rewrite Hs, Hgt, Hc, Hd. now left.
Qed.

Lemma keyword_results_rows (query_tsquery : tsquery)
    (filter_company_id : option uuid) (dc : document_chunk vector) (b : Q) :
  In (dc, b)
    (keyword_results vector ts_parse lexize ts_rank_cd documents
       document_chunks query_tsquery filter_company_id) ->
  exists d,
    In (dc, d) (joined documents document_chunks) /\
    ts_match (to_tsvector ts_parse lexize (dc_chunk_text dc)) query_tsquery
    = true /\
    company_ok filter_company_id d = true.
Proof.
  unfold keyword_results. rewrite in_flat_map.
  intros [[dc' d] [Hj Hin]].
  destruct (ts_match (to_tsvector ts_parse lexize (dc_chunk_text dc'))
              query_tsquery) eqn:Hm; simpl in Hin; [|contradiction].
  destruct (company_ok filter_company_id d) eqn:Hc; simpl in Hin;
    [|contradiction].
  destruct Hin as [Heq | []]. inversion Heq; subst. now exists d.
Qed.

(** What the first definition returns. *)
Lemma search_v03_rows (query_text : jsstring) (query_embedding : vector)
    (match_threshold : Q) (match_count : Z) (filter_company_id : option uuid)
    (bm25_weight vector_weight : Q) :
  0 <= match_count ->
  exists rows,
    hybrid_search_simple_v03 cosine_distance ts_parse lexize ts_rank_cd
      documents document_chunks query_text query_embedding match_threshold
      match_count filter_company_id bm25_weight vector_weight = Some rows /\
    above_or_keyword_only cosine_distance ts_parse lexize documents
      document_chunks query_text query_embedding match_threshold rows.
Proof.
  intros Hcount. unfold hybrid_search_simple_v03, order_and_limit.
  destruct (Z.ltb_spec match_count 0) as [|_]; [lia|].
  eexists. split; [reflexivity|].
  set (vr := vector_results cosine_distance documents document_chunks
               query_embedding match_threshold filter_company_id None).
  set (vs := map (fun r : document_chunk vector * document vector * Q =>
                    (fst (fst r), snd r)) vr).
  assert (forall v, In v vs ->
            (match_threshold < snd v)%Q) as Habove.
  { intros v Hv. apply in_map_iff in Hv.
    destruct Hv as [[[dc d] s] [<- Hin]]. simpl.
    now apply vector_results_above in Hin. }
  intros r Hr. apply firstn_In in Hr. apply SortFacts.sort_In in Hr.
  apply in_flat_map in Hr. destruct Hr as [[k v] [Hkv Hr]]. simpl in Hr.
  unfold full_outer_join in Hkv. apply in_app_or in Hkv.
  destruct Hkv as [Hkv | Hkv].
  - apply in_flat_map in Hkv. destruct Hkv as [[dc b] [Hk Hkv]].
    cbn [fst] in Hkv.
    destruct (filter (fun v0 : document_chunk vector * Q =>
                        str_eqb (dc_id dc) (dc_id (fst v0))) vs)
      as [|v0 matches] eqn:Hf.
    + (* no vector row for the chunk: a keyword_only row *)
      destruct Hkv as [Heq | []]. inversion Heq; subst k v.
      simpl in Hr. destruct Hr as [<- | []]. right. simpl.
      split; [reflexivity|]. split; [reflexivity|].
      destruct (keyword_results_rows _ _ _ _ Hk) as [d [Hj [Hm Hc]]].
      pose proof (proj1 (joined_iff dc d) Hj) as [Hdc [Hd Hid]].
      apply str_eqb_eq in Hid.
      exists dc, d. repeat split; try assumption; try reflexivity.
      intros s Hs. apply Qnot_lt_le. intros Hgt.
      apply Qgt_bool_iff in Hgt.
      assert (In (dc, s) vs) as Hin.
      { apply in_map_iff. exists (dc, d, s). split; [reflexivity|].
        now apply vector_results_member. }
      assert (In (dc, s)
                (filter (fun v0 : document_chunk vector * Q =>
                           str_eqb (dc_id dc) (dc_id (fst v0))) vs)) as Hin'.
      { apply filter_In. split; [exact Hin|]. simpl. now apply str_eqb_eq. }
      rewrite Hf in Hin'. contradiction.
    + (* a vector row with the same id *)
      apply in_map_iff in Hkv. destruct Hkv as [[dc' s] [Heq Hv]].
      inversion Heq; subst k v. rewrite <- Hf in Hv.
      apply filter_In in Hv. destruct Hv as [Hv _].
      simpl in Hr. destruct Hr as [<- | []]. left. simpl.
      exact (Habove _ Hv).
  - apply in_flat_map in Hkv. destruct Hkv as [[dc' s] [Hv Hkv]].
    destruct (existsb _ _); [contradiction|].
    destruct Hkv as [Heq | []]. inversion Heq; subst k v.
    simpl in Hr. destruct Hr as [<- | []]. left. simpl.
    exact (Habove _ Hv).
Qed.


(** ** The lexical score under OR semantics *)

(** The OR query holds what the second normalization makes of the
    lexemes of the AND query, each on its own. *)
Lemma to_tsquery_or_value (query_text : jsstring) :
  to_tsquery lexize
    (replace_amp_bar (tsquery_out (plainto_tsquery ts_parse lexize query_text)))
  = Some (or_query ts_parse lexize query_text).
Proof.
  unfold to_tsquery, or_query.
  rewrite plainto_tsquery_text, replace_and_text. f_equal.
  induction (query_lexemes ts_parse lexize query_text) as [|l ls IH];
    [reflexivity|].
  simpl. destruct (lexize l) as [l'|]; simpl; now rewrite IH.
Qed.

(** The chunks of the tables that [vector_results] keeps. *)
Lemma vector_results_pairs (query_embedding : vector) (match_threshold : Q)
    (filter_company_id : option uuid) (relevant_doc_ids : option (list uuid)) :
  map fst
    (vector_results cosine_distance documents document_chunks
       query_embedding match_threshold filter_company_id relevant_doc_ids)
  = filter (fun p => survives cosine_distance query_embedding match_threshold
                       filter_company_id relevant_doc_ids (fst p) (snd p))
      (list_prod document_chunks documents).
Proof.
  unfold vector_results, joined.
  induction document_chunks as [|dc dcs IH]; [reflexivity|].
  simpl. rewrite flat_map_app, map_app, filter_app, IH. f_equal.
  clear IH. induction documents as [|d ds IHd]; [reflexivity|].
  simpl. unfold survives at 1. simpl.
  destruct (str_eqb (dc_document_id dc) (doc_id d)); simpl; [|exact IHd].
  destruct (similarity cosine_distance (embedding dc) query_embedding)
    as [s|]; simpl; [|exact IHd].
  destruct (Qgt_bool s match_threshold); simpl; [|exact IHd].
  destruct (company_ok filter_company_id d); simpl; [|exact IHd].
  destruct (document_ok relevant_doc_ids d); simpl; [|exact IHd].
  now rewrite IHd.
Qed.

Lemma vector_results_count (query_embedding : vector) (match_threshold : Q)
    (filter_company_id : option uuid) (relevant_doc_ids : option (list uuid)) :
  List.length
    (vector_results cosine_distance documents document_chunks
       query_embedding match_threshold filter_company_id relevant_doc_ids)
  = survivor_count cosine_distance documents document_chunks
      query_embedding match_threshold filter_company_id relevant_doc_ids.
Proof.
  unfold survivor_count. rewrite <- vector_results_pairs.
  now rewrite length_map.
Qed.

Lemma survives_in_vector_results (query_embedding : vector)
    (match_threshold : Q) (filter_company_id : option uuid)
    (relevant_doc_ids : option (list uuid))
    (dc : document_chunk vector) (d : document vector) :
  In dc document_chunks -> In d documents ->
  survives cosine_distance query_embedding match_threshold
    filter_company_id relevant_doc_ids dc d = true ->
  exists s,
    similarity cosine_distance (embedding dc) query_embedding = Some s /\
    In (dc, d, s)
      (vector_results cosine_distance documents document_chunks
         query_embedding match_threshold filter_company_id relevant_doc_ids).
Proof.
  intros Hdc Hd Hs. unfold survives in Hs.
  apply andb_true_iff in Hs. destruct Hs as [Hs Hdoc].
  apply andb_true_iff in Hs. destruct Hs as [Hs Hc].
  apply andb_true_iff in Hs. destruct Hs as [Hid Hsim].
  destruct (similarity cosine_distance (embedding dc) query_embedding)
    as [s|] eqn:Hsome; [|discriminate].
  exists s. split; [reflexivity|].
  apply vector_results_member; try assumption.
  apply joined_iff. auto.
Qed.

Section Contract.
(** The cover-density rank of a text against a query it matches is
    positive. *)
Hypothesis ts_rank_cd_positive :
  forall (v : tsvector) (q : tsquery),
    ts_match v q = true -> (0 < ts_rank_cd v q 32)%Q.

Lemma search_partial_matches (with_ds : bool)
    (relevant_doc_ids : option (list uuid))
    (query_text : jsstring) (query_embedding : vector)
    (match_threshold : Q) (match_count : Z) (filter_company_id : option uuid)
    (bm25_weight vector_weight : Q) :
  0 <= match_count ->
  exists rows,
    search cosine_distance ts_parse lexize ts_rank_cd documents document_chunks
      with_ds relevant_doc_ids query_text query_embedding match_threshold
      match_count filter_company_id bm25_weight vector_weight = Some rows /\
    partial_matches_scored ts_parse lexize ts_rank_cd query_text rows /\
    survivors_listed cosine_distance documents document_chunks
      query_embedding match_threshold filter_company_id relevant_doc_ids
      match_count rows.
Proof.
  intros Hcount.
  destruct (search_rows with_ds relevant_doc_ids query_text query_embedding
              match_threshold match_count filter_company_id bm25_weight
              vector_weight Hcount) as [q_or [rows [Hq [Hrows [Hfrom Hall]]]]].
  rewrite to_tsquery_or_value in Hq. injection Hq as <-.
  exists rows. split; [exact Hrows|]. split.
  - intros r Hr. destruct (Hfrom r Hr) as [[[dc d] s] [_ ->]].
    simpl. split; [reflexivity|].
    intros [l0 [l [Hl0 [Hl Hhas]]]]. unfold has_lexeme in *.
    assert (0 < bm25_rank ts_rank_cd
                  (to_tsvector ts_parse lexize (dc_chunk_text dc))
                  (or_query ts_parse lexize query_text))%Q as Hpos.
    { apply ts_rank_cd_positive, ts_match_or. exists l.
      split; [|exact Hhas].
      unfold normalize. apply in_flat_map. exists l0.
      split; [exact Hl0|]. rewrite Hl. now left. }
    split; [exact Hpos|].
    intros [l' [Hl' Hmiss]].
    assert (ts_match (to_tsvector ts_parse lexize (dc_chunk_text dc))
              (plainto_tsquery ts_parse lexize query_text) = false) as ->.
    { unfold plainto_tsquery. fold (query_lexemes ts_parse lexize query_text).
      destruct (query_lexemes ts_parse lexize query_text) as [|l1 ls] eqn:Hls;
        [reflexivity|].
      destruct (ts_match _ [l1 :: ls]) eqn:Hm; [exfalso | reflexivity].
      apply Hmiss. rewrite ts_match_and in Hm. now apply Hm. }
    now rewrite (proj2 (Qgt_bool_iff _ _) Hpos).
  - intros Hlen dc d Hdc Hd Hs.
    destruct (survives_in_vector_results query_embedding match_threshold
                filter_company_id relevant_doc_ids dc d Hdc Hd Hs)
      as [s [Hsim Hv]].
    rewrite <- vector_results_count in Hlen.
    eexists. split; [apply (Hall (dc, d, s) Hv Hlen)|]. simpl. auto.
Qed.


End Contract.

End Database.

(** ** The example database *)

Lemma example_rank_positive (v : tsvector) (q : tsquery) :
  ts_match v q = true -> (0 < example_rank v q 32)%Q.
Proof.
  intros H. unfold example_rank. rewrite H. reflexivity.
Qed.





(** On the example, for the query "solar money" and threshold 0.5: the
    chunk "solar sales rose" holds one of the two lexemes and gets a
    positive BM25 score; the chunk "money for wind", whose similarity is
    0.3, is not returned. *)
Lemma example_search :
  summary
    (hybrid_search_simple example_distance QualityScorer.split_whitespace
       example_lexize example_rank example_documents example_chunks
       (lit "solar money") 0%Q (5 # 10)%Q 5 (Some (lit "acme"))
       (3 # 10)%Q (7 # 10)%Q)
  = Some [ ("c0"%string, (4 # 5)%Q, true, partial_keyword);
           ("c1"%string, (7 # 10)%Q, true, hybrid) ].
Proof. reflexivity. Qed.

(** The version that the OR logic replaced ranked against the AND
    query: the same chunk had no positive BM25 score there. *)
Lemma example_search_improved :
  summary
    (hybrid_search_simple_improved example_distance
       QualityScorer.split_whitespace example_lexize example_rank
       example_documents example_chunks
       (lit "solar money") 0%Q (5 # 10)%Q 5 (Some (lit "acme"))
       (3 # 10)%Q (7 # 10)%Q)
  = Some [ ("c0"%string, (4 # 5)%Q, false, vector_only);
           ("c1"%string, (7 # 10)%Q, true, hybrid) ].
Proof. reflexivity. Qed.

(** The first version joined keyword matches to the vector results:
    there a chunk below the threshold that matches the query came back
    as [keyword_only] with a vector score of 0. *)
Lemma example_search_v03 :
  summary
    (hybrid_search_simple_v03 example_distance
       QualityScorer.split_whitespace example_lexize example_rank
       example_documents example_chunks
       (lit "money") 0%Q (5 # 10)%Q 5 (Some (lit "acme"))
       (3 # 10)%Q (7 # 10)%Q)
  = Some [ ("c0"%string, (4 # 5)%Q, false, vector_only);
           ("c1"%string, (7 # 10)%Q, true, hybrid);
           ("c2"%string, 0%Q, true, keyword_only) ].
Proof. reflexivity. Qed.

End HybridSearchFacts.

(* ================================================================== *)
(** * Segmenter: coverage, sizes and overlaps of the chunks *)

Module SegmenterCoverage.
Import JS JSFacts Segmenter.

Lemma firstn_plus {A} (a s : nat) (l : list A) :
  firstn (a + s) l = firstn a l ++ firstn s (skipn a l).
Proof.
  revert l. induction a as [|a IH]; intros l; simpl.
  - reflexivity.
  - destruct l as [|x l]; simpl.
    + now rewrite firstn_nil.
    + now rewrite IH.
Qed.

(** Pieces of [s] characters cut one after the other. *)
Lemma concat_pieces {A} (s n : nat) (l : list A) :
  List.concat (map (fun j => firstn s (skipn (j * s) l)) (seq 0 n))
  = firstn (n * s) l.
Proof.
  induction n as [|n IH].
  - reflexivity.
  - rewrite seq_S, map_app, concat_app, IH. simpl.
    rewrite app_nil_r. replace (s + n * s)%nat with (n * s + s)%nat by lia.
    now rewrite firstn_plus.
Qed.

(** What [chunkText] returns for a valid configuration. *)
Lemma chunkText_windows (text : jsstring) (chunkSize overlap : Z) :
  0 <= overlap < chunkSize ->
  chunkText text chunkSize overlap
  = Some (map (fun j : nat =>
                 firstn (Z.to_nat chunkSize)
                   (skipn (j * Z.to_nat (chunkSize - overlap)) text))
            (seq 0 (Z.to_nat (chunk_count (str_length text) chunkSize overlap)))).
Proof.
  intros Hcfg. unfold chunkText, chunkText_fuel.
  set (n := Z.to_nat (chunk_count (str_length text) chunkSize overlap)).
  assert (0 <= str_length text) as Hlen by (unfold str_length; lia).
  pose proof (SegmenterFacts.ceil_div_nonneg (str_length text)
                (chunkSize - overlap) Hlen ltac:(lia)) as Hn.
  fold (chunk_count (str_length text) chunkSize overlap) in Hn.
  transitivity (Some (map (window text chunkSize overlap) (seq 0 n))).
  - apply (SegmenterFacts.chunk_loop_run text chunkSize overlap n
             ltac:(lia) eq_refl (List.length text) 0%nat).
    + lia.
    + subst n. unfold str_length in *. lia.
  - f_equal. apply map_ext. intros j.
    rewrite SegmenterFacts.window_firstn by exact Hcfg.
    now rewrite Z2Nat.inj_mul, Nat2Z.id by lia.
Qed.

Lemma chunk_count_covers (text : jsstring) (chunkSize overlap : Z) :
  0 <= overlap < chunkSize ->
  (List.length text
   <= Z.to_nat (chunk_count (str_length text) chunkSize overlap)
      * Z.to_nat (chunkSize - overlap))%nat.
Proof.
  intros Hcfg.
  set (c := chunk_count (str_length text) chunkSize overlap).
  assert (~ c * (chunkSize - overlap) < str_length text) as Hnot.
  { intros H. apply SegmenterFacts.lt_ceil_div in H; [|lia].
    fold (chunk_count (str_length text) chunkSize overlap) in H. lia. }
  assert (0 <= c).
  { apply (SegmenterFacts.ceil_div_nonneg (str_length text)
             (chunkSize - overlap)); unfold str_length; lia. }
  unfold str_length in *. nia.
Qed.

(** X1: The first [size - overlap] characters of the chunks, one after the
    other, are the text: no character is dropped. *)
Theorem chunkText_reconstructs :
  forall (text : jsstring) (chunkSize overlap : Z),
    0 <= overlap < chunkSize ->
    exists cs,
      chunkText text chunkSize overlap = Some cs /\
      List.concat (map (firstn (Z.to_nat (chunkSize - overlap))) cs) = text.
Proof.
  intros text chunkSize overlap Hcfg.
  eexists. split; [apply chunkText_windows; exact Hcfg|].
  rewrite map_map.
  rewrite (map_ext _ (fun j : nat =>
             firstn (Z.to_nat (chunkSize - overlap))
               (skipn (j * Z.to_nat (chunkSize - overlap)) text))).
  - rewrite concat_pieces. apply firstn_all2.
    now apply chunk_count_covers.
  - intros j. rewrite firstn_firstn. f_equal. lia.
Qed.

Lemma chunkText_reconstructs_witness :
  0 <= 2 < 5 /\
  exists cs,
    chunkText (lit "The cat sat on the mat") 5 2 = Some cs /\
    List.concat (map (firstn (Z.to_nat (5 - 2))) cs)
    = lit "The cat sat on the mat".
Proof.
  split; [lia|].
  apply (chunkText_reconstructs (lit "The cat sat on the mat") 5 2). lia.
Defined.

(** X2: No chunk is empty and none is longer than [size]. *)
Theorem chunkText_chunk_sizes :
  forall (text : jsstring) (chunkSize overlap : Z) (cs : list jsstring),
    0 <= overlap < chunkSize ->
    chunkText text chunkSize overlap = Some cs ->
    forall c, In c cs -> 0 < str_length c <= chunkSize.
Proof.
  intros text chunkSize overlap cs Hcfg Hcs c Hc.
  rewrite chunkText_windows in Hcs by exact Hcfg. injection Hcs as <-.
  apply in_map_iff in Hc. destruct Hc as [j [<- Hj]].
  apply in_seq in Hj. destruct Hj as [_ Hj]. simpl in Hj.
  assert (Z.of_nat j * (chunkSize - overlap) < str_length text) as Hlt.
  { apply SegmenterFacts.lt_ceil_div; [lia|].
    fold (chunk_count (str_length text) chunkSize overlap). lia. }
  unfold str_length in *. rewrite length_firstn, length_skipn. nia.
Qed.

Lemma chunkText_chunk_sizes_witness :
  0 < str_length (lit " mat") <= 5.
Proof.
  apply (chunkText_chunk_sizes (lit "The cat sat on the mat") 5 2
           [lit "The c"; lit " cat "; lit "t sat"; lit "at on"; lit "on th";
            lit "the m"; lit " mat"; lit "t"]).
  - lia.
  - reflexivity.
  - simpl. auto 10.
Defined.

(** X3: Two chunks that follow one another overlap: what is left of a chunk
    after its first [size - overlap] characters is the beginning of the
    next chunk. *)
Theorem chunkText_neighbours_overlap :
  forall (text : jsstring) (chunkSize overlap : Z) (cs : list jsstring)
         (i : nat),
    0 <= overlap < chunkSize ->
    chunkText text chunkSize overlap = Some cs ->
    (S i < List.length cs)%nat ->
    let rest := skipn (Z.to_nat (chunkSize - overlap)) (nth i cs []) in
    rest = firstn (List.length rest) (nth (S i) cs []).
Proof.
  intros text chunkSize overlap cs i Hcfg Hcs Hi rest. subst rest.
  rewrite chunkText_windows in Hcs by exact Hcfg. injection Hcs as <-.
  rewrite length_map, length_seq in Hi.
  rewrite !nth_map_seq by lia.
  set (step := Z.to_nat (chunkSize - overlap)).
  set (size := Z.to_nat chunkSize).
  assert (step <= size)%nat as Hss by (subst step size; lia).
  rewrite skipn_firstn_comm, skipn_skipn.
  replace (step + i * step)%nat with (S i * step)%nat by lia.
  rewrite firstn_firstn, length_firstn.
  rewrite <- (firstn_min_length _ (size - step)).
  f_equal. lia.
Qed.

Lemma chunkText_neighbours_overlap_witness :
  skipn 3 (lit "The c") = firstn 2 (lit " cat ").
Proof.
  apply (chunkText_neighbours_overlap (lit "The cat sat on the mat") 5 2
           [lit "The c"; lit " cat "; lit "t sat"; lit "at on"; lit "on th";
            lit "the m"; lit " mat"; lit "t"] 0%nat).
  - lia.
  - reflexivity.
  - simpl. lia.
Defined.

End SegmenterCoverage.

(* ================================================================== *)
(** * Summarizer: what coalescing keeps *)

Module SummarizerContent.
Import JS JSFacts Summarizer.

(** [xs.slice(-k)] is an end of [xs]. *)
Lemma slice_from_negative_suffix {A} (xs : list A) (k : Z) :
  0 < k -> exists pre, xs = pre ++ slice_from xs (- k).
Proof.
  intros Hk. unfold slice_from, slice, rel_index.
  destruct (Z.ltb_spec (- k) 0); [|lia].
  destruct (Z.ltb_spec (Z.of_nat (List.length xs)) 0); [lia|].
  rewrite Z.min_id.
  set (from := Z.to_nat (Z.max (Z.of_nat (List.length xs) + - k) 0)).
  exists (firstn from xs).
  rewrite (@firstn_all2 A _ (skipn from xs)).
  - now rewrite firstn_skipn.
  - rewrite length_skipn. subst from. lia.
Qed.

Lemma countdown_bounds (n : nat) (m k : Z) :
  In k (countdown n m) -> m - Z.of_nat n < k <= m.
Proof.
  revert m. induction n as [|n IH]; intros m; simpl.
  - contradiction.
  - intros [<- | H]; [lia|]. apply IH in H. lia.
Qed.

(** The overlap that the scan finds is one: at least 50 characters that
    end [result] and begin [currentChunk]. *)
Lemma find_overlap_some (result currentChunk : jsstring) (k : Z) :
  find_overlap result currentChunk = Some k ->
  50 <= k <= 400 /\
  slice_from result (- k) = slice currentChunk 0 k.
Proof.
  unfold find_overlap, overlap_candidates. intros H.
  apply find_some in H. destruct H as [Hin Hmatch].
  apply countdown_bounds in Hin.
  split; [lia|]. now apply str_eqb_eq.
Qed.

(** One step of the outer loop only adds characters at the end, and
    what it has then ends with the chunk it was given. *)
Lemma append_chunk_extends (result : jsstring) (c : chunk) :
  (exists added, append_chunk result c = result ++ added /\
                 str_length added <= str_length (chunk_text c) + 1) /\
  (exists pre, append_chunk result c = pre ++ chunk_text c).
Proof.
  unfold append_chunk.
  destruct (find_overlap result (chunk_text c)) as [k|] eqn:Hfind.
  - apply find_overlap_some in Hfind. destruct Hfind as [Hk Heq].
    replace k with (Z.of_nat (Z.to_nat k)) in * by lia.
    rewrite slice_prefix in Heq. rewrite slice_from_nonneg. split.
    + eexists. split; [reflexivity|].
      unfold str_length. rewrite length_skipn. lia.
    + destruct (slice_from_negative_suffix result (Z.of_nat (Z.to_nat k))
                  ltac:(lia)) as [pre Hpre].
      exists pre. rewrite Hpre at 1. rewrite Heq, <- app_assoc.
      now rewrite firstn_skipn.
  - split.
    + eexists. split; [reflexivity|].
      unfold str_length, newline. rewrite length_app. simpl. lia.
    + exists (result ++ newline). now rewrite <- app_assoc.
Qed.

Lemma fold_append_extends (rest : list chunk) (result : jsstring) :
  exists added, fold_left append_chunk rest result = result ++ added.
Proof.
  revert result. induction rest as [|c rest IH]; intros result; simpl.
  - exists []. now rewrite app_nil_r.
  - destruct (proj1 (append_chunk_extends result c)) as [a [Ha _]].
    destruct (IH (append_chunk result c)) as [b Hb].
    exists (a ++ b). now rewrite Hb, Ha, <- app_assoc.
Qed.

Lemma fold_append_contains (rest : list chunk) (result : jsstring)
    (c : chunk) :
  In c rest ->
  exists pre post,
    fold_left append_chunk rest result = pre ++ chunk_text c ++ post.
Proof.
  revert result. induction rest as [|c' rest IH]; intros result Hc; simpl.
  - contradiction.
  - destruct Hc as [-> | Hc]; [|now apply IH].
    destruct (proj2 (append_chunk_extends result c)) as [pre Hpre].
    destruct (fold_append_extends rest (append_chunk result c)) as [post Hpost].
    exists pre, post. now rewrite Hpost, Hpre, <- app_assoc.
Qed.

(** X4: Coalescing drops no chunk: the text of every chunk stands, in one
    piece, in the result. *)
Theorem coalesceChunks_keeps_every_chunk :
  forall (chunks : list chunk) (c : chunk),
    In c chunks ->
    exists pre post, coalesceChunks chunks = pre ++ chunk_text c ++ post.
Proof.
  intros chunks c Hc.
  destruct chunks as [|c0 rest]; [contradiction|].
  assert (coalesceChunks (c0 :: rest)
          = fold_left append_chunk rest (chunk_text c0)) as ->
    by (destruct rest; reflexivity).
  destruct Hc as [<- | Hc].
  - destruct (fold_append_extends rest (chunk_text c0)) as [post Hpost].
    exists [], post. exact Hpost.
  - now apply fold_append_contains.
Qed.

Lemma coalesceChunks_keeps_every_chunk_witness :
  exists pre post,
    coalesceChunks [{| chunk_text := lit "A " ++ shared50 |};
                    {| chunk_text := shared50 ++ lit " B" |}]
    = pre ++ (shared50 ++ lit " B") ++ post.
Proof.
  apply (coalesceChunks_keeps_every_chunk
           [{| chunk_text := lit "A " ++ shared50 |};
            {| chunk_text := shared50 ++ lit " B" |}]
           {| chunk_text := shared50 ++ lit " B" |}).
  simpl. auto.
Defined.

Lemma fold_append_length (rest : list chunk) (result : jsstring) :
  str_length (fold_left append_chunk rest result)
  <= str_length result
     + fold_right (fun c n => str_length (chunk_text c) + 1 + n) 0 rest.
Proof.
  revert result. induction rest as [|c rest IH]; intros result; simpl.
  - lia.
  - specialize (IH (append_chunk result c)).
    destruct (proj1 (append_chunk_extends result c)) as [a [Ha Hlen]].
    rewrite Ha in IH at 2. unfold str_length in *.
    rewrite length_app in IH. lia.
Qed.

(** X5: The result is never longer than the chunks together with one
    separator between two chunks. *)
Theorem coalesceChunks_length_bound :
  forall chunks : list chunk,
    chunks <> [] ->
    str_length (coalesceChunks chunks) + 1
    <= fold_right (fun c n => str_length (chunk_text c) + 1 + n) 0 chunks.
Proof.
  intros chunks Hne. destruct chunks as [|c0 rest]; [congruence|].
  assert (coalesceChunks (c0 :: rest)
          = fold_left append_chunk rest (chunk_text c0)) as ->
    by (destruct rest; reflexivity).
  pose proof (fold_append_length rest (chunk_text c0)). simpl. lia.
Qed.

Lemma coalesceChunks_length_bound_witness :
  str_length
    (coalesceChunks [{| chunk_text := lit "ab" |}; {| chunk_text := lit "bc" |}])
  + 1 <= (2 + 1 + (2 + 1 + 0)).
Proof.
  apply (coalesceChunks_length_bound
           [{| chunk_text := lit "ab" |}; {| chunk_text := lit "bc" |}]).
  discriminate.
Defined.

End SummarizerContent.

(* ================================================================== *)
(** * Embedder client: batches and the order of the vectors *)

Module EmbedderOrder.
Import JS JSFacts Segmenter Embedder EmbedderService.

(** A list sorted by a key and a permutation of it with distinct,
    increasing keys are the same list. *)
Lemma sorted_permutation_unique {A} (key : A -> Z) (l1 l2 : list A) :
  Sorted (fun a b => key a <= key b) l1 ->
  StronglySorted (fun a b => key a < key b) l2 ->
  Permutation l1 l2 -> l1 = l2.
Proof.
  intros H1. revert l2.
  apply Sorted_StronglySorted in H1; [|intros a b c; lia].
  induction H1 as [|h1 t1 Ht1 IH Hh1]; intros l2 H2 Hperm.
  - apply Permutation_nil in Hperm. now subst.
  - destruct H2 as [|h2 t2 Ht2 Hh2].
    + symmetry in Hperm. now apply Permutation_nil in Hperm.
    + rewrite Forall_forall in Hh1, Hh2.
      assert (h1 = h2) as ->.
      { assert (In h1 (h2 :: t2)) as Hin1
          by (apply (Permutation_in _ Hperm); now left).
        assert (In h2 (h1 :: t1)) as Hin2
          by (apply (Permutation_in _ (Permutation_sym Hperm)); now left).
        destruct Hin1 as [-> | Hin1]; [reflexivity|].
        destruct Hin2 as [-> | Hin2]; [reflexivity|].
        specialize (Hh1 _ Hin2). specialize (Hh2 _ Hin1). lia. }
      f_equal. apply IH; [exact Ht2|].
      now apply Permutation_cons_inv in Hperm.
Qed.

Lemma indexed_answers_sorted {V} (embed : jsstring -> V)
    (batch : list jsstring) :
  StronglySorted (fun a b => index a < index b) (indexed_answers embed batch).
Proof.
  unfold indexed_answers.
  generalize 0%nat as start. generalize (List.length batch) as n.
  induction n as [|n IH]; intros start; simpl.
  - constructor.
  - constructor; [apply IH|].
    apply Forall_forall. intros x Hx. apply in_map_iff in Hx.
    destruct Hx as [i [<- Hi]]. apply in_seq in Hi. simpl. lia.
Qed.

(** Sorting by [index] puts the answers back in the order of the texts. *)
Lemma extract_embeddings_permuted {V} (embed : jsstring -> V)
    (batch : list jsstring) (data : list (item V)) :
  Permutation data (indexed_answers embed batch) ->
  extract_embeddings data = map embed batch.
Proof.
  intros Hperm. unfold extract_embeddings.
  rewrite (sorted_permutation_unique index
             (sort (fun a b => index a - index b <=? 0) data)
             (indexed_answers embed batch)).
  - unfold indexed_answers. rewrite map_map. simpl.
    apply nth_ext with (d := embed []) (d' := embed []).
    + now rewrite !length_map, length_seq.
    + intros i Hi. rewrite length_map, length_seq in Hi.
      rewrite (nth_map_seq (fun i => embed (nth i batch [])) _ _ _ Hi).
      now rewrite (map_nth embed batch []).
  - eapply Sorted_ind
      with (P := Sorted (fun a b : item V => index a <= index b));
      [constructor | | apply SortFacts.sort_sorted].
    + intros a l _ IH Hhd. constructor; [exact IH|].
      destruct Hhd as [|b l Hab]; constructor.
      apply Z.leb_le in Hab. lia.
    + intros x y Hxy. apply Z.leb_gt in Hxy. apply Z.leb_le. lia.
  - apply indexed_answers_sorted.
  - rewrite <- Hperm. apply SortFacts.sort_perm.
Qed.

Lemma batch_at_firstn (texts : list jsstring) (j : nat) :
  batch_at texts j = firstn 2048 (skipn (j * 2048) texts).
Proof.
  unfold batch_at, BATCH_SIZE. rewrite slice_nonneg by lia.
  replace (Z.to_nat (Z.of_nat j * 2048)) with (j * 2048)%nat by lia.
  f_equal. lia.
Qed.

Lemma batch_at_size (texts : list jsstring) (j : nat) :
  (j < batch_count texts)%nat ->
  (0 < List.length (batch_at texts j) <= 2048)%nat.
Proof.
  intros Hj. rewrite batch_at_firstn, length_firstn, length_skipn.
  apply (EmbedderFacts.batch_loop_condition texts j) in Hj.
  apply Z.ltb_lt in Hj. unfold BATCH_SIZE in Hj. lia.
Qed.

Lemma batches_concat (texts : list jsstring) :
  List.concat (map (batch_at texts) (seq 0 (batch_count texts))) = texts.
Proof.
  rewrite (map_ext _ (fun j => firstn 2048 (skipn (j * 2048) texts)))
    by (intros j; apply batch_at_firstn).
  rewrite SegmenterCoverage.concat_pieces. apply firstn_all2.
  assert (~ (batch_count texts < batch_count texts)%nat) as H by lia.
  rewrite <- EmbedderFacts.batch_loop_condition in H.
  destruct (Z.ltb_spec (Z.of_nat (batch_count texts) * BATCH_SIZE)
              (Z.of_nat (List.length texts))) as [|Hge]; [tauto|].
  unfold BATCH_SIZE in Hge. lia.
Qed.

(** When every batch of the loop is answered with one item per text,
    the vectors come back in the order of the texts. *)
Lemma generateEmbeddings_ordered (V E : Type)
    (create : list jsstring -> outcome E (list (item V)))
    (embed : jsstring -> V) (texts : list jsstring) :
  (forall j, (j < batch_count texts)%nat ->
     exists data, create (batch_at texts j) = Resolved data /\
       Permutation data (indexed_answers embed (batch_at texts j))) ->
  generateEmbeddings create texts = Some (Resolved (map embed texts)).
Proof.
  intros Hall.
  unfold generateEmbeddings. change 0 with (Z.of_nat 0 * BATCH_SIZE).
  rewrite (EmbedderFacts.embed_loop_resolved V E create texts
             (List.length texts) 0%nat []).
  - do 2 f_equal. simpl. rewrite Nat.sub_0_r.
    rewrite <- (batches_concat texts) at 2.
    rewrite concat_map, map_map, flat_map_concat_map. f_equal.
    apply map_ext_in. intros j Hj. apply in_seq in Hj.
    destruct (Hall j ltac:(lia)) as [data [Hdata Hperm]].
    unfold returned_for. rewrite Hdata.
    now apply extract_embeddings_permuted.
  - lia.
  - pose proof (EmbedderFacts.batch_count_le texts). lia.
  - intros j Hj. destruct (Hall j ltac:(lia)) as [data [Hdata _]].
    now exists data.
Qed.

(** X6: When the service answers every request of 1 to 2048 texts with one
    item per text, in whatever order, [generateEmbeddings] returns one
    vector per text, in the order of the texts.  Larger or empty requests
    are never sent: nothing is assumed of the service on them. *)
Theorem generateEmbeddings_preserves_order :
  forall (V E : Type) (create : list jsstring -> outcome E (list (item V)))
         (embed : jsstring -> V) (texts : list jsstring),
    (forall batch,
       (0 < List.length batch <= 2048)%nat ->
       exists data, create batch = Resolved data /\
                    Permutation data (indexed_answers embed batch)) ->
    generateEmbeddings create texts = Some (Resolved (map embed texts)).
Proof.
  intros V E create embed texts Hservice.
  apply generateEmbeddings_ordered.
  intros j Hj. apply Hservice.
  (* the request for batch [j] holds between 1 and 2048 texts *)
  exact (batch_at_size texts j Hj).
Qed.

Lemma generateEmbeddings_preserves_order_witness :
  generateEmbeddings reversing_service [lit "a"; lit "b"; lit "c"]
  = Some (Resolved [lit "a!"; lit "b!"; lit "c!"]).
Proof.
  apply (generateEmbeddings_preserves_order jsstring unit reversing_service
           (fun t => t ++ lit "!") [lit "a"; lit "b"; lit "c"]).
  intros batch _. eexists. split; [reflexivity|].
  symmetry. apply Permutation_rev.
Defined.

End EmbedderOrder.

(* ================================================================== *)
(** * Cosine similarity: argument order and vectors of unequal length *)

Module SimilarityShape.
Import Similarity.

Lemma mul_comm (x y : float) : (x * y = y * x)%float.
Proof.
  apply Prim2SF_inj. rewrite !mul_spec. unfold SF64mul, SFmul.
  destruct (Prim2SF x) as [sx|sx| |sx mx ex], (Prim2SF y) as [sy|sy| |sy my ey];
    try reflexivity; try (now rewrite (xorb_comm sx sy)).
  now rewrite (xorb_comm sx sy), (Pos.mul_comm mx my), (Z.add_comm ex ey).
Qed.

Lemma nan_mul_r (y : float) :
  Prim2SF y = S754_nan -> forall x, Prim2SF (x * y) = S754_nan.
Proof.
  intros H x. rewrite mul_spec, H. unfold SF64mul, SFmul.
  destruct (Prim2SF x); reflexivity.
Qed.

Lemma nan_add_r (y : float) :
  Prim2SF y = S754_nan -> forall x, Prim2SF (x + y) = S754_nan.
Proof.
  intros H x. rewrite add_spec, H. unfold SF64add, SFadd.
  destruct (Prim2SF x); reflexivity.
Qed.

Lemma nan_add_l (x : float) :
  Prim2SF x = S754_nan -> forall y, Prim2SF (x + y) = S754_nan.
Proof. intros H y. rewrite add_spec, H. reflexivity. Qed.

Lemma nan_sqrt (x : float) :
  Prim2SF x = S754_nan -> Prim2SF (sqrt x) = S754_nan.
Proof. intros H. rewrite sqrt_spec, H. reflexivity. Qed.

Lemma nan_div_r (y : float) :
  Prim2SF y = S754_nan -> forall x, Prim2SF (x / y) = S754_nan.
Proof.
  intros H x. rewrite div_spec, H. unfold SF64div, SFdiv.
  destruct (Prim2SF x); reflexivity.
Qed.

(** Swapping the vectors swaps the two norms and keeps the dot product. *)
Lemma cosine_sums_swap (a : list float) :
  forall (b : list float) (dot nA nB : float),
    List.length a = List.length b ->
    cosine_sums b a dot nB nA =
    (fst (fst (cosine_sums a b dot nA nB)),
     snd (cosine_sums a b dot nA nB),
     snd (fst (cosine_sums a b dot nA nB))).
Proof.
  induction a as [|ai a IH]; intros [|bi b] dot nA nB Hlen;
    try discriminate; simpl.
  - reflexivity.
  - rewrite (mul_comm bi ai). apply IH. now injection Hlen.
Qed.

(** Once the norm of [b] is NaN it stays NaN. *)
Lemma cosine_sums_normB_nan (a : list float) :
  forall (b : list float) (dot nA nB : float),
    Prim2SF nB = S754_nan ->
    Prim2SF (snd (cosine_sums a b dot nA nB)) = S754_nan.
Proof.
  induction a as [|ai a IH]; intros b dot nA nB HnB; simpl.
  - exact HnB.
  - apply IH. now apply nan_add_l.
Qed.

Lemma cosine_sums_short_b (a : list float) :
  forall (b : list float) (dot nA nB : float),
    (List.length b < List.length a)%nat ->
    Prim2SF (snd (cosine_sums a b dot nA nB)) = S754_nan.
Proof.
  induction a as [|ai a IH]; intros b dot nA nB Hlen; simpl in *.
  - lia.
  - destruct b as [|bi b]; simpl in *.
    + apply cosine_sums_normB_nan. apply nan_add_r. reflexivity.
    + apply IH. lia.
Qed.

Lemma cosine_sums_extra_b (a : list float) :
  forall (b extra : list float) (dot nA nB : float),
    (List.length a <= List.length b)%nat ->
    cosine_sums a (b ++ extra) dot nA nB = cosine_sums a b dot nA nB.
Proof.
  induction a as [|ai a IH]; intros b extra dot nA nB Hlen; simpl in *.
  - reflexivity.
  - destruct b as [|bi b]; simpl in *; [lia|].
    apply IH. lia.
Qed.

(** X7: For vectors of the same length the order of the arguments does not
    matter: [cosineSimilarity a b] and [cosineSimilarity b a] are the
    same number (the same NaN included). *)
Theorem cosineSimilarity_symmetric :
  forall a b : list float,
    List.length a = List.length b ->
    cosineSimilarity a b = cosineSimilarity b a.
Proof.
  intros a b Hlen. unfold cosineSimilarity.
  rewrite (cosine_sums_swap a b 0 0 0 Hlen).
  destruct (cosine_sums a b 0 0 0) as [[dot nA] nB]. simpl.
  now rewrite (mul_comm (sqrt nA) (sqrt nB)).
Qed.

Lemma cosineSimilarity_symmetric_witness :
  cosineSimilarity [1; 2; 3]%float [0.5; -4; 0.25]%float
  = cosineSimilarity [0.5; -4; 0.25]%float [1; 2; 3]%float.
Proof.
  apply (cosineSimilarity_symmetric [1; 2; 3]%float [0.5; -4; 0.25]%float).
  reflexivity.
Defined.

(** X8: The loop runs over the indices of [a]: when [b] is shorter, the
    missing entries of [b] read as [undefined] and the result is NaN,
    whatever the numbers are. *)
Theorem cosineSimilarity_short_b_nan :
  forall a b : list float,
    (List.length b < List.length a)%nat ->
    is_nan (cosineSimilarity a b) = true.
Proof.
  intros a b Hlen. unfold cosineSimilarity.
  pose proof (cosine_sums_short_b a b 0 0 0 Hlen) as HnB.
  destruct (cosine_sums a b 0 0 0) as [[dot nA] nB]. simpl in HnB.
  apply SimilarityFacts.is_nan_of_spec.
  apply nan_div_r, nan_mul_r, nan_sqrt, HnB.
Qed.

Lemma cosineSimilarity_short_b_nan_witness :
  is_nan (cosineSimilarity [1; 2; 3]%float [1; 2]%float) = true.
Proof.
  apply (cosineSimilarity_short_b_nan [1; 2; 3]%float [1; 2]%float).
  simpl. lia.
Defined.

(** X9: When [b] is longer than [a], the entries of [b] beyond the length of
    [a] are never read: no error, and the same result as without them. *)
Theorem cosineSimilarity_ignores_extra_b :
  forall a b extra : list float,
    (List.length a <= List.length b)%nat ->
    cosineSimilarity a (b ++ extra) = cosineSimilarity a b.
Proof.
  intros a b extra Hlen. unfold cosineSimilarity.
  now rewrite cosine_sums_extra_b.
Qed.

Lemma cosineSimilarity_ignores_extra_b_witness :
  cosineSimilarity [1; 2]%float ([3; 4] ++ [100; -7])%float
  = cosineSimilarity [1; 2]%float [3; 4]%float.
Proof.
  apply (cosineSimilarity_ignores_extra_b [1; 2]%float [3; 4]%float
           [100; -7]%float).
  simpl. lia.
Defined.

End SimilarityShape.

(* ================================================================== *)
(** * Quality scorer: the range of the heuristic scores *)

Module QualityScaleFacts.
Import JS QualityScorer QualityScale.

(** Splits the heuristic on every test it makes. *)
Ltac heuristic_cases avg n ctx resp :=
  unfold scoreResponseHeuristic;
  destruct (0.8 <=? avg)%float;
  destruct (0.7 <=? avg)%float;
  destruct (0.6 <=? avg)%float;
  destruct (n =? 0);
  destruct (hasRefusal resp);
  destruct (str_length resp <? 100);
  destruct (1500 <? str_length resp);
  destruct (hasPunctuation resp && hasCapitalization resp);
  destruct (10 <? contextOverlap ctx resp).

(** X10: Whatever the inputs (a NaN or out-of-range [avgSimilarity] and a
    negative [chunksRetrieved] included), the five scores of
    [scoreResponseHeuristic] are between 0 and 1. *)
Theorem heuristic_scores_on_scale :
  forall (toFixed0 : float -> jsstring) (query context response : jsstring)
         (chunksRetrieved : Z) (avgSimilarity : float),
    scores_on_scale
      (scoreResponseHeuristic toFixed0 query context response
         chunksRetrieved avgSimilarity) = true.
Proof.
  intros toFixed0 query ctx response chunksRetrieved avgSimilarity.
  heuristic_cases avgSimilarity chunksRetrieved ctx response;
    vm_compute; reflexivity.
Qed.

(** X11: The accuracy and completeness scores tell a refusal from an answer:
    accuracy is below 0.6 exactly when the response holds a refusal
    phrase, and so is completeness below 0.3, whatever the length of the
    response and its overlap with the context. *)
Theorem heuristic_scores_reveal_refusal :
  forall (toFixed0 : float -> jsstring) (query context response : jsstring)
         (chunksRetrieved : Z) (avgSimilarity : float),
    (accuracy (scoreResponseHeuristic toFixed0 query context response
                 chunksRetrieved avgSimilarity) <? 0.6)%float
    = hasRefusal response /\
    (completeness (scoreResponseHeuristic toFixed0 query context response
                     chunksRetrieved avgSimilarity) <? 0.3)%float
    = hasRefusal response.
Proof.
  intros toFixed0 query ctx response chunksRetrieved avgSimilarity.
  heuristic_cases avgSimilarity chunksRetrieved ctx response;
    split; vm_compute; reflexivity.
Qed.

End QualityScaleFacts.

(* ================================================================== *)
(** * Context assembler: what the passages hold *)

Module AssemblerCoverage.
Import JS JSFacts Rows Assembler AssemblerRuns.

(** ** Every chunk goes to one passage *)

Lemma map_push_perm (m : list (uuid * list ScoredChunk)) (k : uuid)
    (c : ScoredChunk) :
  Permutation (flat_map snd (map_push m k c)) (c :: flat_map snd m).
Proof.
  induction m as [|[k' cs] m IH]; simpl.
  - constructor. constructor.
  - destruct (str_eqb k' k); simpl.
    + rewrite <- app_assoc. simpl.
      apply Permutation_sym, Permutation_middle.
    + rewrite IH. apply Permutation_sym, Permutation_middle.
Qed.

Lemma chunksByDocument_perm_from (l : list ScoredChunk) :
  forall m,
    Permutation
      (flat_map snd (fold_left (fun m c => map_push m (document_id c) c) l m))
      (flat_map snd m ++ l).
Proof.
  induction l as [|c l IH]; intros m; simpl.
  - now rewrite app_nil_r.
  - rewrite IH, map_push_perm. apply Permutation_middle.
Qed.

Lemma chunksByDocument_perm (l : list ScoredChunk) :
  Permutation (flat_map snd (chunksByDocument l)) l.
Proof. apply (chunksByDocument_perm_from l []). Qed.

Lemma flat_map_groups (groups : list (list ScoredChunk)) :
  flat_map chunk_ids (map createMergedChunk groups)
  = map id (List.concat groups).
Proof.
  induction groups as [|g groups IH]; simpl.
  - reflexivity.
  - now rewrite IH, map_app.
Qed.

Lemma merge_document_ids (chunks : list ScoredChunk) :
  Permutation (flat_map chunk_ids (merge_document chunks)) (map id chunks).
Proof.
  unfold merge_document.
  pose proof (SortFacts.sort_perm _
                (fun a b => chunk_index a - chunk_index b <=? 0) chunks)
    as Hperm.
  destruct (sort _ chunks) as [|c0 rest].
  - apply Permutation_nil in Hperm. now subst.
  - rewrite flat_map_groups, AssemblerFacts.consecutive_groups_concat.
    now apply Permutation_map.
Qed.

Lemma flat_map_merge (groups : list (uuid * list ScoredChunk)) :
  Permutation
    (flat_map chunk_ids
       (flat_map (fun entry => merge_document (snd entry)) groups))
    (map id (flat_map snd groups)).
Proof.
  induction groups as [|[d cs] groups IH]; simpl.
  - constructor.
  - rewrite flat_map_app, map_app.
    apply Permutation_app; [apply merge_document_ids | exact IH].
Qed.

(** X12: Merging loses and repeats nothing: the chunk ids of the passages,
    taken together, are the ids of the rows that came in, each as often
    as it came in. *)
Theorem mergeChunks_keeps_every_chunk :
  forall relevantChunks : list ScoredChunk,
    Permutation (flat_map chunk_ids (mergeChunks relevantChunks))
                (map id relevantChunks).
Proof.
  intros l. unfold mergeChunks.
  rewrite (Permutation_flat_map chunk_ids (SortFacts.sort_perm _ _ _)).
  rewrite flat_map_merge.
  apply Permutation_map, chunksByDocument_perm.
Qed.

(** ** The indices of a passage *)

Lemma run_from_snoc (first : Z) (n : nat) :
  run_from first (S n) = run_from first n ++ [first + Z.of_nat n].
Proof. unfold run_from. now rewrite seq_S, map_app. Qed.

Lemma consecutive_groups_runs (rest : list ScoredChunk) :
  forall (g : list ScoredChunk) (first : Z),
    g <> [] ->
    map chunk_index g = run_from first (List.length g) ->
    forall r, In r (consecutive_groups g rest) ->
      r <> [] /\
      exists first', map chunk_index r = run_from first' (List.length r).
Proof.
  induction rest as [|c rest IH]; intros g first Hne Hrun r Hr; simpl in Hr.
  - destruct Hr as [<- | []]. split; [exact Hne | now exists first].
  - assert (forall r, In r (g :: consecutive_groups [c] rest) ->
              r <> [] /\
              exists first', map chunk_index r = run_from first' (List.length r))
      as Hclose.
    { intros r' [<- | Hr'].
      - split; [exact Hne | now exists first].
      - apply (IH [c] (chunk_index c)); [discriminate | | exact Hr'].
        simpl. unfold run_from. simpl. f_equal. lia. }
    destruct (rev g) as [|lastInGroup g'] eqn:Hrev; [now apply Hclose|].
    destruct (Z.eqb_spec (chunk_index c) (chunk_index lastInGroup + 1))
      as [Hnext | _]; [|now apply Hclose].
    apply (IH (g ++ [c]) first); [now destruct g | | exact Hr].
    assert (g = rev g' ++ [lastInGroup]) as Hg
      by (rewrite <- (rev_involutive g), Hrev; reflexivity).
    rewrite map_app, length_app, Nat.add_comm. simpl.
    rewrite run_from_snoc, Hrun. f_equal. f_equal.
    rewrite Hnext.
    rewrite Hg, map_app, length_app, Nat.add_comm in Hrun. simpl in Hrun.
    rewrite run_from_snoc in Hrun.
    apply app_inj_tail in Hrun. destruct Hrun as [_ Hlast].
    rewrite Hlast, Hg, length_app. simpl. lia.
Qed.

(** X13: A passage holds a run of chunk indices without a gap, in ascending
    order: [first], [first + 1], and so on, whatever the order in which
    the rows came in. *)
Theorem passage_indices_consecutive :
  forall (relevantChunks : list ScoredChunk) (p : MergedChunk),
    In p (mergeChunks relevantChunks) ->
    chunk_ids p <> [] /\
    exists first,
      chunk_indices p = run_from first (List.length (chunk_ids p)).
Proof.
  intros l p Hp.
  apply AssemblerFacts.mergeChunks_In in Hp. destruct Hp as [d [cs [_ Hp]]].
  unfold merge_document in Hp.
  destruct (sort _ cs) as [|c0 rest]; [contradiction|].
  apply in_map_iff in Hp. destruct Hp as [g [<- Hg]].
  destruct (consecutive_groups_runs rest [c0] (chunk_index c0)
              ltac:(discriminate)
              ltac:(unfold run_from; simpl; f_equal; lia) g Hg)
    as [Hne [first Hrun]].
  simpl. split.
  - destruct g; [congruence | discriminate].
  - exists first. now rewrite length_map.
Qed.

Lemma passage_indices_consecutive_witness :
  chunk_ids (createMergedChunk [row "A" 2 (6 # 10); row "A" 3 (8 # 10)]) <> []
  /\ exists first,
       chunk_indices (createMergedChunk [row "A" 2 (6 # 10); row "A" 3 (8 # 10)])
       = run_from first
           (List.length
              (chunk_ids
                 (createMergedChunk [row "A" 2 (6 # 10); row "A" 3 (8 # 10)]))).
Proof.
  apply (passage_indices_consecutive example_rows
           (createMergedChunk [row "A" 2 (6 # 10); row "A" 3 (8 # 10)])).
  right. left. reflexivity.
Defined.

(** ** The context sent to the model *)

Lemma join_contains (sep : jsstring) (parts : list jsstring) (x : jsstring) :
  In x parts -> exists pre post, join sep parts = pre ++ x ++ post.
Proof.
  induction parts as [|p parts IH]; intros Hin; [contradiction|].
  destruct Hin as [-> | Hin].
  - destruct parts as [|q parts].
    + exists [], []. simpl. now rewrite app_nil_r.
    + exists [], (sep ++ join sep (q :: parts)). reflexivity.
  - destruct (IH Hin) as [pre [post Heq]].
    destruct parts as [|q parts]; [contradiction|].
    exists (p ++ sep ++ pre), post.
    change (join sep (p :: q :: parts))
      with (p ++ sep ++ join sep (q :: parts)).
    rewrite Heq. now rewrite <- !app_assoc.
Qed.

Lemma In_concat_group {A} (ls : list (list A)) (x : A) :
  In x (List.concat ls) -> exists l, In l ls /\ In x l.
Proof.
  intros H. apply in_concat in H. destruct H as [l [Hl Hx]]. now exists l.
Qed.

(** Every row that came in belongs to the group of some passage. *)
Lemma chunk_in_some_passage (relevantChunks : list ScoredChunk)
    (c : ScoredChunk) :
  In c relevantChunks ->
  exists g, In (createMergedChunk g) (mergeChunks relevantChunks) /\ In c g.
Proof.
  intros Hc.
  destruct (AssemblerFacts.chunksByDocument_ok relevantChunks)
    as [_ [Hentries Hkeys]].
  specialize (Hkeys c Hc). apply in_map_iff in Hkeys.
  destruct Hkeys as [[d cs] [Hd Hin]]. simpl in Hd. subst d.
  assert (In c cs) as Hccs
    by (apply (proj2 (Hentries _ _ Hin)); now split).
  assert (In c (sort (fun a b => chunk_index a - chunk_index b <=? 0) cs))
    as Hsorted by (now apply SortFacts.sort_In).
  destruct (sort (fun a b => chunk_index a - chunk_index b <=? 0) cs)
    as [|c0 rest] eqn:Hsort; [contradiction|].
  change (c0 :: rest) with ([c0] ++ rest) in Hsorted.
  rewrite <- AssemblerFacts.consecutive_groups_concat in Hsorted.
  apply In_concat_group in Hsorted. destruct Hsorted as [g [Hg Hcg]].
  exists g. split; [|exact Hcg].
  apply AssemblerFacts.mergeChunks_In. exists (document_id c), cs.
  split; [exact Hin|]. unfold merge_document. rewrite Hsort.
  now apply in_map.
Qed.

(** X14: The context handed to the chat completion holds the text of every
    row that the search returned: merging and joining drop no chunk. *)
Theorem context_holds_every_chunk :
  forall (relevantChunks : list ScoredChunk) (c : ScoredChunk),
    In c relevantChunks ->
    exists pre post,
      build_context (mergeChunks relevantChunks)
      = pre ++ chunk_text c ++ post.
Proof.
  intros l c Hc.
  destruct (chunk_in_some_passage l c Hc) as [g [Hp Hcg]].
  destruct (join_contains (lit " ") (map chunk_text g) (chunk_text c)
              (in_map chunk_text g c Hcg)) as [pre1 [post1 Htext]].
  destruct (join_contains (lit (String "010" (String "010" EmptyString)))
              (map merged_text (mergeChunks l))
              (merged_text (createMergedChunk g))
              (in_map merged_text _ _ Hp)) as [pre2 [post2 Hctx]].
  exists (pre2 ++ pre1), (post1 ++ post2).
  change (merged_text (createMergedChunk g))
    with (join (lit " ") (map chunk_text g)) in Hctx.
  rewrite Htext in Hctx.
  unfold build_context. rewrite Hctx. now rewrite <- !app_assoc.
Qed.

Lemma context_holds_every_chunk_witness :
  exists pre post,
    build_context (mergeChunks example_rows)
    = pre ++ chunk_text (row "A" 0 (7 # 10)) ++ post.
Proof.
  apply (context_holds_every_chunk example_rows (row "A" 0 (7 # 10))).
  simpl. auto.
Defined.

End AssemblerCoverage.

(* ================================================================== *)
(** * Summarizer after segmenter: coalescing the chunks of a text *)

Module PipelineFacts.
Import JS JSFacts Segmenter Summarizer Pipeline.

Section Overlap400.
Variable text : jsstring.
(** The step between two windows; the windows are [s + 400] long. *)
Variable s : nat.
Hypothesis s_positive : (0 < s)%nat.

(** Appending window [j + 1] to the text up to the end of window [j]
    gives the text up to the end of window [j + 1]. *)
Lemma append_next_window (j : nat) :
  (S j * s + 50 <= List.length text)%nat ->
  append_chunk (firstn (j * s + (s + 400)) text) {| chunk_text := firstn (s + 400) (skipn (S j * s) text) |}
  = firstn (S j * s + (s + 400)) text.
Proof.
  intros Hlen. unfold append_chunk. cbn [chunk_text].
  set (rest := skipn (S j * s) text).
  set (result := firstn (j * s + (s + 400)) text).
  assert (List.length rest = (List.length text - S j * s)%nat) as Hrest
    by (subst rest; apply length_skipn).
  assert (result = firstn (S j * s) text ++ firstn 400 rest) as Hresult.
  { subst result rest. rewrite <- SegmenterCoverage.firstn_plus. f_equal. simpl. lia. }
  assert (List.length result = Nat.min (S j * s + 400) (List.length text))
    as Hrlen by (subst result; rewrite length_firstn; simpl; lia).
  set (k := Nat.min 400 (List.length rest)).
  assert (find_overlap result (firstn (s + 400) rest) = Some (Z.of_nat k)) as Hfind.
  { apply SummarizerFacts.find_overlap_longest.
    - subst k. lia.
    - subst k. lia.
    - subst k. rewrite length_firstn. lia.
    - replace (List.length result - k)%nat with (S j * s)%nat
        by (subst k; lia).
      rewrite Hresult.
      rewrite skipn_app, skipn_all2 by (rewrite length_firstn; lia).
      rewrite length_firstn.
      replace (S j * s - Nat.min (S j * s) (List.length text))%nat
        with 0%nat by lia.
      simpl.
      rewrite firstn_firstn.
      replace (Nat.min k (s + 400)) with k by (subst k; lia).
      subst k. now rewrite firstn_min_length.
    - intros i Hi Ha Hb. subst k.
      rewrite length_firstn in Hb. lia. }
  rewrite Hfind, slice_from_nonneg, Hresult.
  rewrite (SegmenterCoverage.firstn_plus (S j * s) (s + 400) text). fold rest.
  rewrite <- app_assoc. f_equal.
  destruct (Nat.le_gt_cases 400 (List.length rest)) as [Hlong | Hshort].
  - replace k with 400%nat by (subst k; lia).
    rewrite (Nat.add_comm s 400), (SegmenterCoverage.firstn_plus 400 s rest).
    rewrite skipn_app, skipn_all2 by (rewrite length_firstn; lia).
    rewrite length_firstn.
    replace (400 - Nat.min 400 (List.length rest))%nat with 0%nat by lia.
    reflexivity.
  - replace k with (List.length rest) by (subst k; lia).
    rewrite !firstn_all2 by lia.
    now rewrite skipn_all, app_nil_r.
Qed.

Lemma fold_windows (n : nat) :
  forall j : nat,
    (S j + n = S j + n)%nat ->
    ((j + n) * s + 50 <= List.length text \/ n = 0)%nat ->
    fold_left append_chunk
      (map (fun c => {| chunk_text := c |})
         (map (fun i => firstn (s + 400) (skipn (i * s) text)) (seq (S j) n)))
      (firstn (j * s + (s + 400)) text)
    = firstn ((j + n) * s + (s + 400)) text.
Proof.
  induction n as [|n IH]; intros j _ Hlast; simpl.
  - now rewrite Nat.add_0_r.
  - rewrite append_next_window by nia.
    rewrite (IH (S j) eq_refl).
    + f_equal. lia.
    + left. replace (S j + n)%nat with (j + S n)%nat by lia. nia.
Qed.

End Overlap400.

(** X15: After [chunkText] with an overlap of 400 characters, which is the
    overlap that [coalesceChunks] looks for, coalescing the chunks gives
    the text back, provided the last of several chunks is at least 50
    characters long (a shorter tail is not recognised as an overlap). *)
Theorem coalesceChunks_reverses_chunkText :
  forall (text : jsstring) (chunkSize : Z) (cs : list jsstring),
    400 < chunkSize ->
    chunkText text chunkSize 400 = Some cs ->
    ((1 < List.length cs)%nat -> 50 <= str_length (last cs [])) ->
    coalesceChunks (map (fun c => {| chunk_text := c |}) cs) = text.
Proof.
  intros text chunkSize cs Hsize Hcs Hlast.
  rewrite SegmenterCoverage.chunkText_windows in Hcs by lia.
  injection Hcs as <-.
  pose proof (SegmenterCoverage.chunk_count_covers text chunkSize 400
                ltac:(lia)) as Hcover.
  set (n := Z.to_nat (chunk_count (str_length text) chunkSize 400)) in *.
  set (s := Z.to_nat (chunkSize - 400)) in *.
  assert (0 < s)%nat as Hs by (subst s; lia).
  replace (Z.to_nat chunkSize) with (s + 400)%nat in * by (subst s; lia).
  destruct n as [|[|n]].
  - simpl in *. destruct text; [reflexivity | simpl in Hcover; lia].
  - simpl. apply firstn_all2. lia.
  - change (seq 0 (S (S n))) with (0%nat :: seq 1 (S n)).
    rewrite !map_cons.
    change (coalesceChunks
              ({| chunk_text := firstn (s + 400) (skipn (0 * s) text) |}
               :: map (fun c => {| chunk_text := c |})
                    (map (fun j => firstn (s + 400) (skipn (j * s) text))
                       (seq 1 (S n)))))
      with (fold_left append_chunk
              (map (fun c => {| chunk_text := c |})
                 (map (fun j => firstn (s + 400) (skipn (j * s) text))
                    (seq 1 (S n))))
              (firstn (0 * s + (s + 400)) text)).
    rewrite (fold_windows text s Hs (S n) 0%nat eq_refl).
    + apply firstn_all2. simpl in *. lia.
    + left.
      assert (50 <= str_length (firstn (s + 400) (skipn (S n * s) text)))
        as Hlen.
      { rewrite length_map, length_seq in Hlast.
        specialize (Hlast ltac:(lia)).
        rewrite seq_S, map_app in Hlast. cbn [map] in Hlast.
        rewrite last_last in Hlast. exact Hlast. }
      unfold str_length in Hlen.
      rewrite length_firstn, length_skipn in Hlen. simpl in *. lia.
Qed.

Lemma coalesceChunks_reverses_chunkText_witness :
  coalesceChunks
    (map (fun c => {| chunk_text := c |})
       [ firstn 800 example_text;
         firstn 800 (skipn 400 example_text);
         skipn 800 example_text ])
  = example_text.
Proof.
  apply (coalesceChunks_reverses_chunkText example_text 800).
  - lia.
  - vm_compute. reflexivity.
  - intros _. vm_compute. discriminate.
Defined.

(** With an overlap of 200 characters, which is what [chunkText] uses
    when none is given, a text that repeats itself is cut short: a
    longer overlap is found than the one the chunks have. *)
Lemma coalesce_default_overlap_example :
  exists cs,
    chunkText example_text 500 default_overlap = Some cs /\
    str_length (coalesceChunks (map (fun c => {| chunk_text := c |}) cs)) = 600.
Proof. eexists. split; vm_compute; reflexivity. Qed.

End PipelineFacts.

(* ================================================================== *)
(** * Search functions: scope, order and tags of the rows *)

Module SearchGuaranteesFacts.
Import JS JSFacts Rows HybridSearch SearchGuarantees.

(** ** Sorting and cutting *)

Lemma StronglySorted_firstn {A} (R : A -> A -> Prop) (l : list A) :
  StronglySorted R l -> forall n, StronglySorted R (firstn n l).
Proof.
  induction 1 as [|x l Hl IH Hx]; intros [|n]; simpl; constructor.
  - apply IH.
  - rewrite Forall_forall in *. intros y Hy.
    apply Hx. eapply HybridSearchFacts.firstn_In, Hy.
Qed.

(** A total comparison that implies a transitive order sorts into that
    order. *)
Lemma sort_strongly_sorted {A} (before : A -> A -> bool)
    (R : A -> A -> Prop) (l : list A) :
  (forall a b, before a b = true -> R a b) ->
  (forall a b c, R a b -> R b c -> R a c) ->
  (forall a b, before a b = false -> before b a = true) ->
  StronglySorted R (sort before l).
Proof.
  intros Himp Htrans Htotal.
  apply Sorted_StronglySorted; [exact Htrans|].
  eapply Sorted_ind with (P := Sorted R);
    [constructor | | apply (SortFacts.sort_sorted A before Htotal)].
  intros a l0 _ IH Hhd. constructor; [exact IH|].
  destruct Hhd as [|b l0 Hab]; constructor. now apply Himp.
Qed.

Lemma Qle_bool_total (x y : Q) : Qle_bool x y = false -> Qle_bool y x = true.
Proof.
  intros H. apply Qle_bool_iff. apply Qlt_le_weak. apply Qnot_le_lt.
  intros Hle. apply Qle_bool_iff in Hle. congruence.
Qed.

(** Sorting by a key in [Q], ascending and descending. *)
Lemma sort_ascending {A} (key : A -> Q) (l : list A) :
  StronglySorted (fun a b => (key a <= key b)%Q)
    (sort (fun a b => Qle_bool (key a) (key b)) l).
Proof.
  apply sort_strongly_sorted.
  - intros a b H. now apply Qle_bool_iff.
  - intros a b c Hab Hbc. eapply Qle_trans; eassumption.
  - intros a b. apply Qle_bool_total.
Qed.

Lemma sort_descending {A} (key : A -> Q) (l : list A) :
  StronglySorted (fun a b => (key b <= key a)%Q)
    (sort (fun a b => Qle_bool (key b) (key a)) l).
Proof.
  apply sort_strongly_sorted.
  - intros a b H. now apply Qle_bool_iff.
  - intros a b c Hab Hbc. eapply Qle_trans; eassumption.
  - intros a b. apply Qle_bool_total.
Qed.

Lemma insert_sorted_map {A B} (f : A -> B) (before : B -> B -> bool)
    (x : A) (l : list A) :
  insert_sorted before (f x) (map f l)
  = map f (insert_sorted (fun a b => before (f a) (f b)) x l).
Proof.
  induction l as [|y l IH]; simpl.
  - reflexivity.
  - destruct (before (f x) (f y)); simpl; [reflexivity | now rewrite IH].
Qed.

Lemma sort_map {A B} (f : A -> B) (before : B -> B -> bool) (l : list A) :
  sort before (map f l) = map f (sort (fun a b => before (f a) (f b)) l).
Proof.
  induction l as [|x l IH]; simpl.
  - reflexivity.
  - now rewrite IH, insert_sorted_map.
Qed.

Lemma StronglySorted_map {A B} (f : A -> B) (R : B -> B -> Prop)
    (l : list A) :
  StronglySorted (fun a b => R (f a) (f b)) l -> StronglySorted R (map f l).
Proof.
  induction 1 as [|x l Hl IH Hx]; simpl; constructor.
  - exact IH.
  - rewrite Forall_forall in *. intros y Hy.
    apply in_map_iff in Hy. destruct Hy as [a [<- Ha]]. now apply Hx.
Qed.

Section Database.
Variable vector : Type.
Variable cosine_distance : vector -> vector -> Q.
Variable ts_parse : jsstring -> list jsstring.
Variable lexize : jsstring -> option lexeme.
Variable ts_rank_cd : tsvector -> tsquery -> Z -> Q.
Variable documents : list (document vector).
Variable document_chunks : list (document_chunk vector).

(** ** The join and the filters *)

Lemma joined_rows (dc : document_chunk vector) (d : document vector) :
  In (dc, d) (joined documents document_chunks) ->
  In dc document_chunks /\ In d documents /\ dc_document_id dc = doc_id d.
Proof.
  unfold joined. rewrite in_flat_map. intros [dc' [Hdc Hin]].
  apply in_map_iff in Hin. destruct Hin as [d' [Heq Hd]].
  inversion Heq; subst. apply filter_In in Hd. destruct Hd as [Hd Hid].
  apply str_eqb_eq in Hid. auto.
Qed.

Lemma vector_results_filters (query_embedding : vector) (match_threshold : Q)
    (filter_company_id : option uuid) (relevant_doc_ids : option (list uuid))
    (dc : document_chunk vector) (d : document vector) (s : Q) :
  In (dc, d, s)
    (vector_results cosine_distance documents document_chunks
       query_embedding match_threshold filter_company_id relevant_doc_ids) ->
  In (dc, d) (joined documents document_chunks) /\
  company_ok filter_company_id d = true /\
  document_ok relevant_doc_ids d = true.
Proof.
  unfold vector_results. rewrite in_flat_map.
  intros [[dc' d'] [Hj Hin]].
  destruct (similarity cosine_distance (embedding dc') query_embedding)
    as [s'|]; [|contradiction].
  destruct (Qgt_bool s' match_threshold); simpl in Hin; [|contradiction].
  destruct (company_ok filter_company_id d') eqn:Hc; simpl in Hin;
    [|contradiction].
  destruct (document_ok relevant_doc_ids d') eqn:Hd; simpl in Hin;
    [|contradiction].
  destruct Hin as [Heq | []]. inversion Heq; subst. auto.
Qed.

(** The value of the shared body when the limit is not negative. *)
Lemma search_value (with_ds : bool) (relevant_doc_ids : option (list uuid))
    (query_text : jsstring) (query_embedding : vector)
    (match_threshold : Q) (match_count : Z) (filter_company_id : option uuid)
    (bm25_weight vector_weight : Q) :
  0 <= match_count ->
  exists q_or,
    search cosine_distance ts_parse lexize ts_rank_cd documents document_chunks
      with_ds relevant_doc_ids query_text query_embedding match_threshold
      match_count filter_company_id bm25_weight vector_weight
    = Some (firstn (Z.to_nat match_count)
              (sort (fun a b => Qle_bool (combined_score b) (combined_score a))
                 (map (scored_row cosine_distance ts_parse lexize ts_rank_cd
                         (plainto_tsquery ts_parse lexize query_text) q_or
                         query_embedding bm25_weight vector_weight with_ds)
                    (vector_results cosine_distance documents document_chunks
                       query_embedding match_threshold filter_company_id
                       relevant_doc_ids)))).
Proof.
  intros Hcount.
  destruct (HybridSearchFacts.to_tsquery_or_defined ts_parse lexize query_text)
    as [q_or Hq].
  exists q_or. unfold search. rewrite Hq. unfold order_and_limit.
  destruct (Z.ltb_spec match_count 0) as [|_]; [lia | reflexivity].
Qed.

(** Every row of the shared body is built from a row of
    [vector_results]. *)
Lemma search_row_origin (with_ds : bool)
    (relevant_doc_ids : option (list uuid))
    (query_text : jsstring) (query_embedding : vector)
    (match_threshold : Q) (match_count : Z) (filter_company_id : option uuid)
    (bm25_weight vector_weight : Q) :
  0 <= match_count ->
  exists q_or rows,
    search cosine_distance ts_parse lexize ts_rank_cd documents document_chunks
      with_ds relevant_doc_ids query_text query_embedding match_threshold
      match_count filter_company_id bm25_weight vector_weight = Some rows /\
    forall r, In r rows ->
      exists dc d s,
        In (dc, d, s)
          (vector_results cosine_distance documents document_chunks
             query_embedding match_threshold filter_company_id
             relevant_doc_ids) /\
        r = scored_row cosine_distance ts_parse lexize ts_rank_cd
              (plainto_tsquery ts_parse lexize query_text) q_or
              query_embedding bm25_weight vector_weight with_ds (dc, d, s).
Proof.
  intros Hcount.
  destruct (search_value with_ds relevant_doc_ids query_text query_embedding
              match_threshold match_count filter_company_id bm25_weight
              vector_weight Hcount) as [q_or Hrows].
  exists q_or. eexists. split; [exact Hrows|].
  intros r Hr. apply HybridSearchFacts.firstn_In in Hr.
  apply SortFacts.sort_In in Hr. apply in_map_iff in Hr.
  destruct Hr as [[[dc d] s] [<- Hv]]. now exists dc, d, s.
Qed.

(** ** Tenant isolation *)

Lemma search_of_company (with_ds : bool)
    (relevant_doc_ids : option (list uuid))
    (query_text : jsstring) (query_embedding : vector)
    (match_threshold : Q) (match_count : Z) (c : uuid)
    (bm25_weight vector_weight : Q) :
  0 <= match_count ->
  exists rows,
    search cosine_distance ts_parse lexize ts_rank_cd documents document_chunks
      with_ds relevant_doc_ids query_text query_embedding match_threshold
      match_count (Some c) bm25_weight vector_weight = Some rows /\
    rows_of_company documents document_chunks c rows.
Proof.
  intros Hcount.
  destruct (search_row_origin with_ds relevant_doc_ids query_text
              query_embedding match_threshold match_count (Some c)
              bm25_weight vector_weight Hcount)
    as [q_or [rows [Hrows Horigin]]].
  exists rows. split; [exact Hrows|].
  intros r Hr. destruct (Horigin r Hr) as [dc [d [s [Hv ->]]]].
  apply vector_results_filters in Hv. destruct Hv as [Hj [Hc _]].
  apply joined_rows in Hj. destruct Hj as [Hdc [Hd Hid]].
  simpl in Hc. apply str_eqb_eq in Hc.
  exists dc, d. simpl. repeat split; auto.
Qed.

(** X16: With a company filter, every row that [hybrid_search_simple] and
    [smart_hybrid_search] return is a chunk of a document of that
    company: no chunk of another company is returned, whatever its
    scores. *)
Theorem search_tenant_isolation :
  forall (query_text : jsstring) (query_embedding : vector)
         (match_threshold : Q) (match_count : Z) (c : uuid)
         (document_similarity_threshold bm25_weight vector_weight : Q),
    0 <= match_count ->
    (exists rows,
       hybrid_search_simple cosine_distance ts_parse lexize ts_rank_cd
         documents document_chunks query_text query_embedding match_threshold
         match_count (Some c) bm25_weight vector_weight = Some rows /\
       rows_of_company documents document_chunks c rows) /\
    (exists rows,
       smart_hybrid_search cosine_distance ts_parse lexize ts_rank_cd
         documents document_chunks query_text query_embedding match_threshold
         match_count (Some c) document_similarity_threshold
         bm25_weight vector_weight = Some rows /\
       rows_of_company documents document_chunks c rows).
Proof.
  intros. split; apply search_of_company; assumption.
Qed.

(** ** Order and limit *)

Lemma search_ranked (with_ds : bool)
    (relevant_doc_ids : option (list uuid))
    (query_text : jsstring) (query_embedding : vector)
    (match_threshold : Q) (match_count : Z) (filter_company_id : option uuid)
    (bm25_weight vector_weight : Q) :
  0 <= match_count ->
  exists rows,
    search cosine_distance ts_parse lexize ts_rank_cd documents document_chunks
      with_ds relevant_doc_ids query_text query_embedding match_threshold
      match_count filter_company_id bm25_weight vector_weight = Some rows /\
    ranked_and_cut match_count bm25_weight vector_weight rows.
Proof.
  intros Hcount.
  destruct (search_value with_ds relevant_doc_ids query_text query_embedding
              match_threshold match_count filter_company_id bm25_weight
              vector_weight Hcount) as [q_or Hrows].
  eexists. split; [exact Hrows|]. split; [|split].
  - rewrite length_firstn. lia.
  - apply StronglySorted_firstn. apply (sort_descending combined_score).
  - intros r Hr. apply HybridSearchFacts.firstn_In in Hr.
    apply SortFacts.sort_In in Hr. apply in_map_iff in Hr.
    destruct Hr as [[[dc d] s] [<- _]]. reflexivity.
Qed.

(** X17: For a limit that is not negative, [hybrid_search_simple] and
    [smart_hybrid_search] return at most [match_count] rows, the row
    with the best combined score first, and the combined score of a row
    is [bm25_score * bm25_weight + vector_score * vector_weight]. *)
Theorem search_ranked_and_cut :
  forall (query_text : jsstring) (query_embedding : vector)
         (match_threshold : Q) (match_count : Z)
         (filter_company_id : option uuid)
         (document_similarity_threshold bm25_weight vector_weight : Q),
    0 <= match_count ->
    (exists rows,
       hybrid_search_simple cosine_distance ts_parse lexize ts_rank_cd
         documents document_chunks query_text query_embedding match_threshold
         match_count filter_company_id bm25_weight vector_weight = Some rows /\
       ranked_and_cut match_count bm25_weight vector_weight rows) /\
    (exists rows,
       smart_hybrid_search cosine_distance ts_parse lexize ts_rank_cd
         documents document_chunks query_text query_embedding match_threshold
         match_count filter_company_id document_similarity_threshold
         bm25_weight vector_weight = Some rows /\
       ranked_and_cut match_count bm25_weight vector_weight rows).
Proof.
  intros. split; apply search_ranked; assumption.
Qed.

(** ** The column rank_method *)

Lemma ts_match_plain (v : tsvector) (query_text : jsstring) :
  ts_match v (plainto_tsquery ts_parse lexize query_text) = true <->
  (query_lexemes ts_parse lexize query_text <> [] /\
   forall l, In l (query_lexemes ts_parse lexize query_text) -> In l v).
Proof.
  unfold plainto_tsquery, query_lexemes.
  destruct (normalize lexize (ts_parse query_text)) as [|l0 ls].
  - split; [discriminate | intros [H _]; congruence].
  - rewrite HybridSearchFacts.ts_match_and. split.
    + intros H. split; [discriminate | exact H].
    + intros [_ H]. exact H.
Qed.

Lemma search_tags (with_ds : bool)
    (relevant_doc_ids : option (list uuid))
    (query_text : jsstring) (query_embedding : vector)
    (match_threshold : Q) (match_count : Z) (filter_company_id : option uuid)
    (bm25_weight vector_weight : Q) :
  0 <= match_count ->
  exists rows,
    search cosine_distance ts_parse lexize ts_rank_cd documents document_chunks
      with_ds relevant_doc_ids query_text query_embedding match_threshold
      match_count filter_company_id bm25_weight vector_weight = Some rows /\
    tags_explained ts_parse lexize query_text rows.
Proof.
  intros Hcount.
  destruct (search_row_origin with_ds relevant_doc_ids query_text
              query_embedding match_threshold match_count filter_company_id
              bm25_weight vector_weight Hcount)
    as [q_or [rows [Hrows Horigin]]].
  exists rows. split; [exact Hrows|].
  intros r Hr. destruct (Horigin r Hr) as [dc [d [s [_ ->]]]].
  unfold scored_row, has_lexeme. simpl.
  pose proof (ts_match_plain (to_tsvector ts_parse lexize (dc_chunk_text dc))
                query_text) as Hplain.
  destruct (ts_match (to_tsvector ts_parse lexize (dc_chunk_text dc))
              (plainto_tsquery ts_parse lexize query_text)).
  - split; [discriminate|]. split; [|split; discriminate].
    split; [intros _; now apply Hplain | reflexivity].
  - assert (forall t : rank_tag,
              t <> hybrid ->
              t = hybrid <->
              query_lexemes ts_parse lexize query_text <> [] /\
              (forall l, In l (query_lexemes ts_parse lexize query_text) ->
                 In l (to_tsvector ts_parse lexize (dc_chunk_text dc))))
      as Hnot.
    { intros t Ht. split; [congruence|].
      intros H. apply Hplain in H. discriminate. }
    destruct (Qgt_bool
                (bm25_rank ts_rank_cd
                   (to_tsvector ts_parse lexize (dc_chunk_text dc)) q_or) 0)
      eqn:Hbm.
    + split; [discriminate|]. split; [apply Hnot; discriminate|].
      split; [|discriminate].
      intros _. now apply HybridSearchFacts.Qgt_bool_iff.
    + split; [discriminate|]. split; [apply Hnot; discriminate|].
      split; [discriminate|].
      intros _. unfold Qgt_bool in Hbm.
      apply negb_false_iff in Hbm. now apply Qle_bool_iff.
Qed.

(** X18: The tag of a row says how its chunk meets the query: it is [hybrid]
    exactly when the query has a lexeme and the chunk holds every lexeme
    of the query; [partial_keyword] rows have a positive BM25 score,
    [vector_only] rows have none; the tag [keyword_only] of the first
    version is never written. *)
Theorem rank_method_explained :
  forall (query_text : jsstring) (query_embedding : vector)
         (match_threshold : Q) (match_count : Z)
         (filter_company_id : option uuid)
         (document_similarity_threshold bm25_weight vector_weight : Q),
    0 <= match_count ->
    (exists rows,
       hybrid_search_simple cosine_distance ts_parse lexize ts_rank_cd
         documents document_chunks query_text query_embedding match_threshold
         match_count filter_company_id bm25_weight vector_weight = Some rows /\
       tags_explained ts_parse lexize query_text rows) /\
    (exists rows,
       smart_hybrid_search cosine_distance ts_parse lexize ts_rank_cd
         documents document_chunks query_text query_embedding match_threshold
         match_count filter_company_id document_similarity_threshold
         bm25_weight vector_weight = Some rows /\
       tags_explained ts_parse lexize query_text rows).
Proof.
  intros. split; apply search_tags; assumption.
Qed.

(** ** Relevant documents *)

(** X19: [find_relevant_documents] lists at most ten documents; each has an
    embedding whose similarity to the query is above the threshold, and
    belongs to the company when a company is given. *)
Theorem find_relevant_documents_sound :
  forall (query_embedding : vector) (similarity_threshold : Q)
         (company_id_filter : option uuid),
    (List.length
       (find_relevant_documents cosine_distance documents query_embedding
          similarity_threshold company_id_filter) <= 10)%nat /\
    forall i,
      In i (find_relevant_documents cosine_distance documents
              query_embedding similarity_threshold company_id_filter) ->
      exists d,
        relevant_document cosine_distance documents query_embedding
          similarity_threshold company_id_filter d /\
        doc_id d = i.
Proof.
  intros q thr filter. unfold find_relevant_documents. split.
  - rewrite length_map, length_firstn. lia.
  - intros i Hi. apply in_map_iff in Hi. destruct Hi as [[d dist] [<- Hin]].
    apply HybridSearchFacts.firstn_In in Hin.
    apply SortFacts.sort_In in Hin. apply in_flat_map in Hin.
    destruct Hin as [d' [Hd' Hin]].
    destruct (document_embedding d') as [e|] eqn:He; [|contradiction].
    destruct (company_ok filter d') eqn:Hc; simpl in Hin; [|contradiction].
    destruct (Qgt_bool (1 - cosine_distance e q) thr) eqn:Hgt;
      simpl in Hin; [|contradiction].
    destruct Hin as [Heq | []]. inversion Heq; subst.
    exists d. split; [|reflexivity].
    split; [exact Hd'|]. split; [exact Hc|].
    exists e. split; [exact He|]. now apply HybridSearchFacts.Qgt_bool_iff.
Qed.

(** X20: When some document is relevant, [smart_hybrid_search] returns
    chunks of the listed documents only. *)
Theorem smart_search_relevant_documents :
  forall (query_text : jsstring) (query_embedding : vector)
         (match_threshold : Q) (match_count : Z)
         (filter_company_id : option uuid)
         (document_similarity_threshold bm25_weight vector_weight : Q),
    0 <= match_count ->
    find_relevant_documents cosine_distance documents query_embedding
      document_similarity_threshold filter_company_id <> [] ->
    exists rows,
      smart_hybrid_search cosine_distance ts_parse lexize ts_rank_cd
        documents document_chunks query_text query_embedding match_threshold
        match_count filter_company_id document_similarity_threshold
        bm25_weight vector_weight = Some rows /\
      forall r, In r rows ->
        In (document_id r)
          (find_relevant_documents cosine_distance documents query_embedding
             document_similarity_threshold filter_company_id).
Proof.
  intros qt q thr mc filter dthr bw vw Hcount Hsome.
  unfold smart_hybrid_search.
  destruct (search_row_origin true
              (relevant_documents cosine_distance documents q dthr filter)
              qt q thr mc filter bw vw Hcount)
    as [q_or [rows [Hrows Horigin]]].
  exists rows. split; [exact Hrows|].
  intros r Hr. destruct (Horigin r Hr) as [dc [d [s [Hv ->]]]].
  apply vector_results_filters in Hv. destruct Hv as [Hj [_ Hdoc]].
  apply joined_rows in Hj. destruct Hj as [_ [_ Hid]].
  unfold relevant_documents in Hdoc.
  destruct (find_relevant_documents cosine_distance documents q dthr filter)
    as [|i ids] eqn:Hids; [congruence|].
  simpl document_id. rewrite Hid.
  unfold document_ok in Hdoc. now apply HybridSearchFacts.existsb_str_eqb.
Qed.

(** X21: When no document is relevant, [smart_hybrid_search] searches all
    documents: it returns the rows of [hybrid_search_simple], in the
    same order, with the column [document_similarity] added. *)
Theorem smart_search_fallback :
  forall (query_text : jsstring) (query_embedding : vector)
         (match_threshold : Q) (match_count : Z)
         (filter_company_id : option uuid)
         (document_similarity_threshold bm25_weight vector_weight : Q),
    find_relevant_documents cosine_distance documents query_embedding
      document_similarity_threshold filter_company_id = [] ->
    option_map (map without_document_similarity)
      (smart_hybrid_search cosine_distance ts_parse lexize ts_rank_cd
         documents document_chunks query_text query_embedding match_threshold
         match_count filter_company_id document_similarity_threshold
         bm25_weight vector_weight)
    = hybrid_search_simple cosine_distance ts_parse lexize ts_rank_cd
        documents document_chunks query_text query_embedding match_threshold
        match_count filter_company_id bm25_weight vector_weight.
Proof.
  intros qt q thr mc filter dthr bw vw Hnone.
  unfold smart_hybrid_search, hybrid_search_simple, relevant_documents.
  rewrite Hnone. unfold search.
  destruct (to_tsquery lexize
              (replace_amp_bar (tsquery_out (plainto_tsquery ts_parse lexize qt))))
    as [q_or|]; [|reflexivity].
  unfold order_and_limit. destruct (mc <? 0); [reflexivity|].
  simpl. f_equal. rewrite <- firstn_map. f_equal.
  rewrite <- (sort_map without_document_similarity
                (fun a b => Qle_bool (combined_score b) (combined_score a))).
  f_equal. rewrite map_map. apply map_ext.
  intros [[dc d] s]. reflexivity.
Qed.

(** ** The first search function *)

(** X22: [match_documents] returns nothing for a NULL company filter; for a
    company it returns at most [match_count] chunks of that company's
    documents, each with a similarity above the threshold, the most
    similar first. *)
Theorem match_documents_rows :
  forall (query_embedding : vector) (match_threshold : Q) (match_count : Z)
         (c : uuid),
    0 <= match_count ->
    match_documents cosine_distance documents document_chunks
      query_embedding match_threshold match_count None = Some [] /\
    exists rows,
      match_documents cosine_distance documents document_chunks
        query_embedding match_threshold match_count (Some c) = Some rows /\
      matches_of_company cosine_distance documents document_chunks
        query_embedding match_threshold match_count c rows.
Proof.
  intros q thr mc c Hcount. unfold match_documents.
  destruct (Z.ltb_spec mc 0) as [|_]; [lia|]. split.
  - f_equal.
    assert (forall l : list (document_chunk vector * document vector),
              flat_map (fun row =>
                  let '(dc, d) := row in
                  match @None uuid, embedding dc with
                  | Some c0, Some e =>
                      if str_eqb (company_id d) c0
                         && Qgt_bool (1 - cosine_distance e q) thr
                      then [(dc, cosine_distance e q)] else []
                  | _, _ => []
                  end) l = []) as Hempty.
    { induction l as [|[dc d] l IH]; simpl; [reflexivity | exact IH]. }
    rewrite Hempty. simpl. now rewrite firstn_nil.
  - eexists. split; [reflexivity|]. split; [|split].
    + rewrite length_map, length_firstn. lia.
    + apply StronglySorted_map, StronglySorted_firstn.
      pose proof (sort_ascending
                    (fun r : document_chunk vector * Q => snd r)) as Hasc.
      match goal with
      | |- StronglySorted _ (sort _ ?l) => specialize (Hasc l)
      end.
      eapply StronglySorted_ind
        with (P := StronglySorted
                     (fun a b : document_chunk vector * Q =>
                        (1 - snd b <= 1 - snd a)%Q));
        [constructor | | exact Hasc].
      intros a l _ IH Hall. constructor; [exact IH|].
      rewrite Forall_forall in *. intros y Hy. specialize (Hall y Hy).
      simpl. unfold Qminus. apply Qplus_le_r. now apply Qopp_le_compat.
    + intros r Hr. apply in_map_iff in Hr. destruct Hr as [[dc dist] [<- Hin]].
      apply HybridSearchFacts.firstn_In in Hin.
      apply SortFacts.sort_In in Hin. apply in_flat_map in Hin.
      destruct Hin as [[dc' d] [Hj Hin]].
      destruct (embedding dc') as [e|] eqn:He; [|contradiction].
      destruct (str_eqb (company_id d) c) eqn:Hc; simpl in Hin;
        [|contradiction].
      destruct (Qgt_bool (1 - cosine_distance e q) thr) eqn:Hgt;
        simpl in Hin; [|contradiction].
      destruct Hin as [Heq | []]. inversion Heq; subst.
      apply joined_rows in Hj. destruct Hj as [Hdc [Hd Hid]].
      apply str_eqb_eq in Hc. simpl. split.
      * now apply HybridSearchFacts.Qgt_bool_iff.
      * exists dc, d, e. repeat split; auto.
Qed.

End Database.

(** ** On the example database *)

Lemma search_tenant_isolation_witness :
  (exists rows,
     hybrid_search_simple example_distance QualityScorer.split_whitespace
       example_lexize example_rank example_documents example_chunks
       (lit "solar money") 0%Q (5 # 10)%Q 5 (Some (lit "acme"))
       (3 # 10)%Q (7 # 10)%Q = Some rows /\
     rows_of_company example_documents example_chunks (lit "acme") rows) /\
  (exists rows,
     smart_hybrid_search example_distance QualityScorer.split_whitespace
       example_lexize example_rank example_documents example_chunks
       (lit "solar money") 0%Q (5 # 10)%Q 5 (Some (lit "acme")) (6 # 10)%Q
       (3 # 10)%Q (7 # 10)%Q = Some rows /\
     rows_of_company example_documents example_chunks (lit "acme") rows).
Proof.
  apply (search_tenant_isolation Q example_distance
           QualityScorer.split_whitespace example_lexize example_rank
           example_documents example_chunks).
  lia.
Defined.

Lemma search_ranked_and_cut_witness :
  (exists rows,
     hybrid_search_simple example_distance QualityScorer.split_whitespace
       example_lexize example_rank example_documents example_chunks
       (lit "solar money") 0%Q (5 # 10)%Q 1 (Some (lit "acme"))
       (3 # 10)%Q (7 # 10)%Q = Some rows /\
     ranked_and_cut 1 (3 # 10)%Q (7 # 10)%Q rows) /\
  (exists rows,
     smart_hybrid_search example_distance QualityScorer.split_whitespace
       example_lexize example_rank example_documents example_chunks
       (lit "solar money") 0%Q (5 # 10)%Q 1 (Some (lit "acme")) (6 # 10)%Q
       (3 # 10)%Q (7 # 10)%Q = Some rows /\
     ranked_and_cut 1 (3 # 10)%Q (7 # 10)%Q rows).
Proof.
  apply (search_ranked_and_cut Q example_distance
           QualityScorer.split_whitespace example_lexize example_rank
           example_documents example_chunks).
  lia.
Defined.

Lemma rank_method_explained_witness :
  (exists rows,
     hybrid_search_simple example_distance QualityScorer.split_whitespace
       example_lexize example_rank example_documents example_chunks
       (lit "solar money") 0%Q (5 # 10)%Q 5 (Some (lit "acme"))
       (3 # 10)%Q (7 # 10)%Q = Some rows /\
     tags_explained QualityScorer.split_whitespace example_lexize
       (lit "solar money") rows) /\
  (exists rows,
     smart_hybrid_search example_distance QualityScorer.split_whitespace
       example_lexize example_rank example_documents example_chunks
       (lit "solar money") 0%Q (5 # 10)%Q 5 (Some (lit "acme")) (6 # 10)%Q
       (3 # 10)%Q (7 # 10)%Q = Some rows /\
     tags_explained QualityScorer.split_whitespace example_lexize
       (lit "solar money") rows).
Proof.
  apply (rank_method_explained Q example_distance
           QualityScorer.split_whitespace example_lexize example_rank
           example_documents example_chunks).
  lia.
Defined.

Lemma smart_search_relevant_documents_witness :
  exists rows,
    smart_hybrid_search example_distance QualityScorer.split_whitespace
      example_lexize example_rank example_documents example_chunks
      (lit "solar money") 0%Q (5 # 10)%Q 5 (Some (lit "acme")) (6 # 10)%Q
      (3 # 10)%Q (7 # 10)%Q = Some rows /\
    forall r, In r rows ->
      In (document_id r)
        (find_relevant_documents example_distance example_documents 0%Q
           (6 # 10)%Q (Some (lit "acme"))).
Proof.
  apply (smart_search_relevant_documents Q example_distance
           QualityScorer.split_whitespace example_lexize example_rank
           example_documents example_chunks).
  - lia.
  - discriminate.
Defined.

(** No document of the example is similar enough at a threshold of
    9/10. *)
Lemma smart_search_fallback_witness :
  option_map (map without_document_similarity)
    (smart_hybrid_search example_distance QualityScorer.split_whitespace
       example_lexize example_rank example_documents example_chunks
       (lit "solar money") 0%Q (5 # 10)%Q 5 (Some (lit "acme")) (9 # 10)%Q
       (3 # 10)%Q (7 # 10)%Q)
  = hybrid_search_simple example_distance QualityScorer.split_whitespace
      example_lexize example_rank example_documents example_chunks
      (lit "solar money") 0%Q (5 # 10)%Q 5 (Some (lit "acme"))
      (3 # 10)%Q (7 # 10)%Q.
Proof.
  apply (smart_search_fallback Q example_distance
           QualityScorer.split_whitespace example_lexize example_rank
           example_documents example_chunks).
  reflexivity.
Defined.

Lemma match_documents_rows_witness :
  match_documents example_distance example_documents example_chunks
    0%Q (5 # 10)%Q 5 None = Some [] /\
  exists rows,
    match_documents example_distance example_documents example_chunks
      0%Q (5 # 10)%Q 5 (Some (lit "acme")) = Some rows /\
    matches_of_company example_distance example_documents example_chunks
      0%Q (5 # 10)%Q 5 (lit "acme") rows.
Proof.
  apply (match_documents_rows Q example_distance example_documents
           example_chunks).
  lia.
Defined.

End SearchGuaranteesFacts.

(* ================================================================== *)
(** * Refusal detection: the database function and the scorer *)

Module RefusalFacts.
Import JS QualityScorer RefusalSQL.

Lemma startsWith_app (sub rest : jsstring) : startsWith (sub ++ rest) sub = true.
Proof.
  induction sub as [|c sub IH]; simpl.
  - now destruct rest.
  - now rewrite Ascii.eqb_refl, IH.
Qed.

Lemma startsWith_prefix (s sub : jsstring) :
  startsWith s sub = true -> s = sub ++ skipn (List.length sub) s.
Proof.
  revert s. induction sub as [|c sub IH]; intros s H; simpl.
  - reflexivity.
  - destruct s as [|x s]; simpl in H; [discriminate|].
    apply andb_true_iff in H. destruct H as [Hc Hs].
    apply Ascii.eqb_eq in Hc. subst x. simpl. f_equal. now apply IH.
Qed.

(** [after_first] finds an occurrence. *)
Lemma after_first_occurrence (s sub rest : jsstring) :
  after_first s sub = Some rest -> exists pre, s = pre ++ sub ++ rest.
Proof.
  induction s as [|x s IH].
  - destruct sub as [|c sub]; simpl; intros H; [|discriminate H].
    injection H as <-. now exists [].
  - cbn [after_first]. destruct (startsWith (x :: s) sub) eqn:Hs.
    + intros H. injection H as <-. exists [].
      now apply startsWith_prefix.
    + intros H. destruct (IH H) as [pre ->]. now exists (x :: pre).
Qed.

Lemma after_first_eq (s sub : jsstring) :
  after_first s sub
  = if startsWith s sub then Some (skipn (List.length sub) s)
    else match s with
         | [] => None
         | _ :: s' => after_first s' sub
         end.
Proof. destruct s; reflexivity. Qed.

(** [after_first] finds the first occurrence: what follows any
    occurrence is at the end of what it returns. *)
Lemma after_first_leftmost (pre sub post : jsstring) :
  exists rest pre',
    after_first (pre ++ sub ++ post) sub = Some rest /\ rest = pre' ++ post.
Proof.
  induction pre as [|x pre IH].
  - exists post, []. split; [|reflexivity].
    cbn [app]. rewrite after_first_eq, startsWith_app.
    now rewrite skipn_app, skipn_all, Nat.sub_diag.
  - rewrite after_first_eq.
    destruct (startsWith ((x :: pre) ++ sub ++ post) sub) eqn:Hs.
    + exists (skipn (List.length sub) ((x :: pre) ++ sub ++ post)).
      exists (skipn (List.length sub) ((x :: pre) ++ sub)).
      split; [reflexivity|].
      rewrite app_assoc, skipn_app.
      replace (List.length sub - List.length ((x :: pre) ++ sub))%nat
        with 0%nat by (rewrite length_app; lia).
      reflexivity.
    + exact IH.
Qed.

Lemma includes_after_first (s sub : jsstring) :
  includes s sub = true <-> exists rest, after_first s sub = Some rest.
Proof.
  induction s as [|x s IH].
  - destruct sub as [|c sub]; simpl; split.
    + intros _. eexists. reflexivity.
    + reflexivity.
    + intros H; discriminate H.
    + intros [rest H]. discriminate H.
  - cbn [includes after_first].
    destruct (startsWith (x :: s) sub); cbn [orb].
    + split; [intros _; eexists; reflexivity | reflexivity].
    + exact IH.
Qed.

(** The pattern [%p%] holds when [p] occurs. *)
Lemma like_one_piece (s p : jsstring) :
  like_pieces s [p] = includes s p.
Proof.
  simpl. destruct (after_first s p) as [rest|] eqn:H.
  - symmetry. apply includes_after_first. now exists rest.
  - destruct (includes s p) eqn:Hi; [|reflexivity].
    apply includes_after_first in Hi. destruct Hi as [rest Hi]. congruence.
Qed.

(** The pattern [%p1%p2%] holds exactly when [p1] occurs and [p2] occurs
    after it. *)
Lemma like_two_pieces (s p1 p2 : jsstring) :
  like_pieces s [p1; p2] = true <->
  exists pre mid post, s = pre ++ p1 ++ mid ++ p2 ++ post.
Proof.
  simpl. split.
  - destruct (after_first s p1) as [rest|] eqn:H1; [|intros H; discriminate H].
    destruct (after_first rest p2) as [rest'|] eqn:H2;
      [|intros H; discriminate H].
    intros _.
    apply after_first_occurrence in H1. destruct H1 as [pre ->].
    apply after_first_occurrence in H2. destruct H2 as [mid ->].
    now exists pre, mid, rest'.
  - intros [pre [mid [post ->]]].
    destruct (after_first_leftmost pre p1 (mid ++ p2 ++ post))
      as [rest [pre' [-> ->]]].
    rewrite app_assoc.
    destruct (after_first_leftmost (pre' ++ mid) p2 post)
      as [rest' [_ [-> _]]].
    reflexivity.
Qed.

Lemma like_two_first (s p1 p2 : jsstring) :
  like_pieces s [p1; p2] = true -> includes s p1 = true.
Proof.
  simpl. destruct (after_first s p1) as [rest|] eqn:H;
    [|intros H'; discriminate H'].
  intros _. apply includes_after_first. now exists rest.
Qed.

(** X23: The flag that the database function [detect_refusal] computes
    implies the one of the scorer and of the chat route, and the two
    differ only on a response that holds "I'm sorry" with no "context"
    after it: the database asks for both, the application for the first
    alone. *)
Theorem detect_refusal_implies_hasRefusal :
  forall response : jsstring,
    (detect_refusal response = true -> hasRefusal response = true) /\
    (hasRefusal response = true -> detect_refusal response = false ->
     includes (toLowerCase response) (lit "i'm sorry") = true /\
     ~ exists pre mid post,
         toLowerCase response
         = pre ++ lit "i'm sorry" ++ mid ++ lit "context" ++ post).
Proof.
  intros response. unfold detect_refusal, hasRefusal, ilike_pieces.
  unfold refusalPhrases.
  cbn [map existsb].
  rewrite !like_one_piece.
  set (s := toLowerCase response).
  change (toLowerCase (lit "I'm sorry")) with (lit "i'm sorry").
  change (toLowerCase (lit "context")) with (lit "context").
  destruct (includes s (toLowerCase (lit "does not contain")));
    [split; [reflexivity | intros _ H; discriminate H]|].
  destruct (includes s (toLowerCase (lit "I don't have")));
    [split; [reflexivity | intros _ H; discriminate H]|].
  destruct (includes s (toLowerCase (lit "cannot find")));
    [split; [reflexivity | intros _ H; discriminate H]|].
  destruct (includes s (toLowerCase (lit "no information")));
    [split; [reflexivity | intros _ H; discriminate H]|].
  cbn [orb]. rewrite orb_false_r. split.
  - apply like_two_first.
  - intros Hs Hlike. split; [exact Hs|].
    intros Hex. apply like_two_pieces in Hex. congruence.
Qed.

(** A response on which the two flags differ. *)
Lemma refusal_flags_differ :
  hasRefusal (lit "I'm sorry, I do not know.") = true /\
  detect_refusal (lit "I'm sorry, I do not know.") = false.
Proof. split; reflexivity. Qed.

End RefusalFacts.

(* ================================================================== *)
(** * Upload handler: the rows written for a document *)

Module UploadFacts.
Import JS JSFacts Segmenter Embedder EmbedderService AssemblerRuns Upload.

Lemma run_from_cons (first : Z) (n : nat) :
  run_from first (S n) = first :: run_from (first + 1) n.
Proof.
  unfold run_from. simpl. f_equal; [lia|].
  rewrite <- seq_shift, map_map. apply map_ext. intros k. lia.
Qed.

Lemma records_from_indices {V} (document_id : jsstring) (embeddings : list V)
    (chunks : list jsstring) :
  forall i,
    map cr_chunk_index (records_from document_id embeddings i chunks)
    = run_from (Z.of_nat i) (List.length chunks).
Proof.
  induction chunks as [|c chunks IH]; intros i; simpl.
  - reflexivity.
  - rewrite run_from_cons, IH. do 2 f_equal. lia.
Qed.

Lemma records_from_texts {V} (document_id : jsstring) (embeddings : list V)
    (chunks : list jsstring) :
  forall i,
    map cr_chunk_text (records_from document_id embeddings i chunks) = chunks.
Proof.
  induction chunks as [|c chunks IH]; intros i; simpl.
  - reflexivity.
  - now rewrite IH.
Qed.

Lemma records_from_embeddings {V} (document_id : jsstring)
    (embed : jsstring -> V) (chunks : list jsstring) :
  forall (pre : list jsstring) (r : chunk_record V),
    In r (records_from document_id (map embed (pre ++ chunks))
            (List.length pre) chunks) ->
    cr_document_id r = document_id /\
    cr_embedding r = Some (embed (cr_chunk_text r)).
Proof.
  induction chunks as [|c chunks IH]; intros pre r Hr; simpl in Hr.
  - contradiction.
  - destruct Hr as [<- | Hr].
    + simpl. split; [reflexivity|].
      rewrite nth_error_map, nth_error_app2, Nat.sub_diag by lia.
      reflexivity.
    + apply (IH (pre ++ [c])).
      rewrite <- app_assoc, length_app, Nat.add_comm. exact Hr.
Qed.

(** X24: When the embeddings service answers every request of 1 to 2048
    texts with one item per text, the upload writes chunk rows with the
    indices 0, 1, 2, ... in the order of the text, each row carries the
    embedding of its own text, and the first 800 characters of the
    rows' texts, put one after the other, are the content of the
    document. *)
Theorem upload_chunk_records :
  forall (V E : Type) (create : list jsstring -> outcome E (list (item V)))
         (embed : jsstring -> V) (document_id content : jsstring),
    (forall batch,
       (0 < List.length batch <= 2048)%nat ->
       exists data, create batch = Resolved data /\
                    Permutation data (indexed_answers embed batch)) ->
    exists records,
      index_content create document_id content = Some (Resolved records) /\
      map cr_chunk_index records = run_from 0 (List.length records) /\
      List.concat (map (fun r => firstn 800 (cr_chunk_text r)) records)
      = content /\
      forall r, In r records ->
        cr_document_id r = document_id /\
        cr_embedding r = Some (embed (cr_chunk_text r)).
Proof.
  intros V E create embed document_id content Hservice.
  destruct content as [|c content].
  - exists []. split; [reflexivity|]. split; [reflexivity|].
    split; [reflexivity|]. intros r Hr. destruct Hr.
  - unfold index_content.
    rewrite (SegmenterCoverage.chunkText_windows (c :: content)
               default_chunkSize default_overlap)
      by (unfold default_chunkSize, default_overlap; lia).
    set (chunks := map _ (seq 0 _)).
    rewrite (EmbedderOrder.generateEmbeddings_ordered V E create embed chunks)
      by (intros j Hj; apply Hservice, EmbedderOrder.batch_at_size, Hj).
    eexists. split; [reflexivity|]. unfold chunkRecords. split; [|split].
    + rewrite (records_from_indices document_id (map embed chunks) chunks 0).
      f_equal. rewrite <- (length_map cr_chunk_text).
      now rewrite records_from_texts.
    + rewrite <- (map_map cr_chunk_text (firstn 800)), records_from_texts.
      subst chunks. rewrite map_map.
      rewrite (map_ext _ (fun j : nat =>
                 firstn 800 (skipn (j * 800) (c :: content)))).
      * rewrite SegmenterCoverage.concat_pieces. apply firstn_all2.
        apply (SegmenterCoverage.chunk_count_covers (c :: content)
                 default_chunkSize default_overlap).
        unfold default_chunkSize, default_overlap. lia.
      * intros j. rewrite firstn_firstn. reflexivity.
    + intros r Hr.
      apply (records_from_embeddings document_id embed chunks [] r Hr).
Qed.

Lemma upload_chunk_records_witness :
  exists records,
    index_content reversing_service (lit "doc-1") (lit "hello world")
    = Some (Resolved records) /\
    map cr_chunk_index records = run_from 0 (List.length records) /\
    List.concat (map (fun r => firstn 800 (cr_chunk_text r)) records)
    = lit "hello world" /\
    forall r, In r records ->
      cr_document_id r = lit "doc-1" /\
      cr_embedding r = Some (cr_chunk_text r ++ lit "!").
Proof.
  apply (upload_chunk_records jsstring unit reversing_service
           (fun t => t ++ lit "!") (lit "doc-1") (lit "hello world")).
  intros batch _. eexists. split; [reflexivity|].
  symmetry. apply Permutation_rev.
Defined.

End UploadFacts.

(* ================================================================== *)
(** * Summarizer script: batches, summaries and failures *)

Module DocumentSummaryFacts.
Import JS JSFacts Embedder Summarizer DocumentSummary.

Lemma total_batches_nonneg (chunks : list chunk) :
  0 <= total_batches chunks <= Z.of_nat (List.length chunks).
Proof.
  apply SegmenterFacts.ceil_div_nonneg; unfold CHUNKS_PER_BATCH; lia.
Qed.

Lemma summary_loop_condition (chunks : list chunk) (j : nat) :
  (Z.of_nat j * CHUNKS_PER_BATCH <? Z.of_nat (List.length chunks)) = true
  <-> Z.of_nat j < total_batches chunks.
Proof.
  rewrite Z.ltb_lt. unfold total_batches.
  apply SegmenterFacts.lt_ceil_div. unfold CHUNKS_PER_BATCH. lia.
Qed.

Lemma batch_of_firstn (chunks : list chunk) (j : nat) :
  batch_of chunks j = firstn 200 (skipn (j * 200) chunks).
Proof.
  unfold batch_of, CHUNKS_PER_BATCH. rewrite slice_nonneg by lia.
  replace (Z.to_nat (Z.of_nat j * 200)) with (j * 200)%nat by lia.
  f_equal. lia.
Qed.

Section Script.
Variable E : Type.
Variable Error : jsstring -> E.
Variable completion : jsstring -> Z -> outcome E (option jsstring).
Variable fetch_chunks : jsstring -> option (list chunk) * option jsstring.

(** The loop while every batch is summarized. *)
Lemma summary_loop_resolved (chunks : list chunk)
    (summaries : nat -> jsstring) :
  forall (fuel j : nat) (acc : list jsstring),
    Z.of_nat j <= total_batches chunks ->
    total_batches chunks - Z.of_nat j <= Z.of_nat fuel ->
    (forall j', (j <= j')%nat -> Z.of_nat j' < total_batches chunks ->
       summarizeBatch completion (coalesceChunks (batch_of chunks j'))
         (Z.of_nat j' + 1) (total_batches chunks)
       = Resolved (summaries j')) ->
    summary_loop completion fuel chunks (Z.of_nat j * CHUNKS_PER_BATCH) acc
    = Some (Resolved
        (acc ++ map summaries
                  (seq j (Z.to_nat (total_batches chunks) - j)))).
Proof.
  induction fuel as [|fuel IH]; intros j acc Hj Hfuel Hall.
  - assert (Z.of_nat j = total_batches chunks) as Heq by lia.
    simpl.
    destruct (Z.of_nat j * CHUNKS_PER_BATCH <? Z.of_nat (List.length chunks))
      eqn:Hc.
    + apply summary_loop_condition in Hc. lia.
    + replace (Z.to_nat (total_batches chunks) - j)%nat with 0%nat by lia.
      simpl. now rewrite app_nil_r.
  - cbn [summary_loop].
    destruct (Z.of_nat j * CHUNKS_PER_BATCH <? Z.of_nat (List.length chunks))
      eqn:Hc.
    + apply summary_loop_condition in Hc.
      replace (Z.of_nat j * CHUNKS_PER_BATCH / CHUNKS_PER_BATCH)
        with (Z.of_nat j)
        by (symmetry; apply Z.div_mul; unfold CHUNKS_PER_BATCH; lia).
      fold (batch_of chunks j). fold (total_batches chunks).
      rewrite (Hall j (le_n j) Hc).
      replace (Z.of_nat j * CHUNKS_PER_BATCH + CHUNKS_PER_BATCH)
        with (Z.of_nat (S j) * CHUNKS_PER_BATCH) by lia.
      rewrite (IH (S j)); [| lia | lia | intros j' Hj'; apply Hall; lia].
      rewrite <- app_assoc. do 3 f_equal.
      replace (Z.to_nat (total_batches chunks) - j)%nat
        with (S (Z.to_nat (total_batches chunks) - S j))%nat by lia.
      reflexivity.
    + assert (~ Z.of_nat j < total_batches chunks) as Hn
        by (rewrite <- summary_loop_condition; congruence).
      replace (Z.to_nat (total_batches chunks) - j)%nat with 0%nat by lia.
      simpl. now rewrite app_nil_r.
Qed.

(** The loop up to a batch whose summary fails. *)
Lemma summary_loop_rejected (chunks : list chunk)
    (k : nat) (e : E) :
  Z.of_nat k < total_batches chunks ->
  summarizeBatch completion (coalesceChunks (batch_of chunks k))
    (Z.of_nat k + 1) (total_batches chunks) = Rejected e ->
  forall (fuel j : nat) (acc : list jsstring),
    (j <= k)%nat ->
    (k - j < fuel)%nat ->
    (forall j', (j <= j' < k)%nat ->
       exists s,
         summarizeBatch completion (coalesceChunks (batch_of chunks j'))
           (Z.of_nat j' + 1) (total_batches chunks) = Resolved s) ->
    summary_loop completion fuel chunks (Z.of_nat j * CHUNKS_PER_BATCH) acc
    = Some (Rejected e).
Proof.
  intros Hk Hfail. induction fuel as [|fuel IH]; intros j acc Hj Hfuel Hall;
    [lia|].
  cbn [summary_loop].
  assert (Z.of_nat j < total_batches chunks) as Hlt by lia.
  rewrite (proj2 (summary_loop_condition chunks j) Hlt).
  replace (Z.of_nat j * CHUNKS_PER_BATCH / CHUNKS_PER_BATCH)
    with (Z.of_nat j)
    by (symmetry; apply Z.div_mul; unfold CHUNKS_PER_BATCH; lia).
  fold (batch_of chunks j). fold (total_batches chunks).
  destruct (Nat.eq_dec j k) as [-> | Hne].
  - now rewrite Hfail.
  - destruct (Hall j ltac:(lia)) as [s Hs]. rewrite Hs.
    replace (Z.of_nat j * CHUNKS_PER_BATCH + CHUNKS_PER_BATCH)
      with (Z.of_nat (S j) * CHUNKS_PER_BATCH) by lia.
    apply IH; [lia | lia | intros j' Hj'; apply Hall; lia].
Qed.

(** X25: For a document with chunks, [generateDocumentSummary] cuts the
    chunks into batches of 200 in order (the last one may be smaller,
    none is empty, together they are all the chunks), summarizes the
    coalesced text of each batch as part [j + 1] of the number of
    batches, and, when every batch summary arrives, returns what
    [combineSummaries] gives for the summaries in the order of the
    batches. *)
Theorem generateDocumentSummary_map_reduce :
  forall (documentId documentName : jsstring) (chunks : list chunk)
         (summaries : nat -> jsstring),
    fetch_chunks documentId = (Some chunks, None) ->
    chunks <> [] ->
    (forall j, Z.of_nat j < total_batches chunks ->
       summarizeBatch completion (coalesceChunks (batch_of chunks j))
         (Z.of_nat j + 1) (total_batches chunks)
       = Resolved (summaries j)) ->
    generateDocumentSummary Error completion fetch_chunks
      documentId documentName
    = Some (combineSummaries completion
              (map summaries (seq 0 (Z.to_nat (total_batches chunks))))
              documentName) /\
    List.concat (map (batch_of chunks)
                   (seq 0 (Z.to_nat (total_batches chunks)))) = chunks /\
    forall j, Z.of_nat j < total_batches chunks ->
      (0 < List.length (batch_of chunks j) <= 200)%nat.
Proof.
  intros documentId documentName chunks summaries Hfetch Hne Hall.
  pose proof (total_batches_nonneg chunks) as Htotal.
  split; [|split].
  - unfold generateDocumentSummary. rewrite Hfetch.
    destruct chunks as [|c chunks]; [congruence|].
    change 0 with (Z.of_nat 0 * CHUNKS_PER_BATCH).
    rewrite (summary_loop_resolved (c :: chunks) summaries
               (List.length (c :: chunks)) 0%nat []).
    + simpl app. now rewrite Nat.sub_0_r.
    + lia.
    + lia.
    + intros j' _ Hj'. now apply Hall.
  - rewrite (map_ext _ (fun j => firstn 200 (skipn (j * 200) chunks)))
      by (intros j; apply batch_of_firstn).
    rewrite SegmenterCoverage.concat_pieces. apply firstn_all2.
    assert (~ Z.of_nat (Z.to_nat (total_batches chunks)) < total_batches chunks)
      as Hn by lia.
    rewrite <- summary_loop_condition in Hn.
    destruct (Z.ltb_spec
                (Z.of_nat (Z.to_nat (total_batches chunks)) * CHUNKS_PER_BATCH)
                (Z.of_nat (List.length chunks))) as [|Hge]; [tauto|].
    unfold CHUNKS_PER_BATCH in Hge. lia.
  - intros j Hj. rewrite batch_of_firstn, length_firstn, length_skipn.
    apply summary_loop_condition in Hj. apply Z.ltb_lt in Hj.
    unfold CHUNKS_PER_BATCH in Hj. lia.
Qed.

(** X26: When the summary of a batch fails after the batches before it were
    summarized, [generateDocumentSummary] is rejected with the error of
    that batch: the later batches are not summarized and no final
    summary is asked for. *)
Theorem generateDocumentSummary_batch_failure :
  forall (documentId documentName : jsstring) (chunks : list chunk)
         (k : nat) (e : E),
    fetch_chunks documentId = (Some chunks, None) ->
    Z.of_nat k < total_batches chunks ->
    summarizeBatch completion (coalesceChunks (batch_of chunks k))
      (Z.of_nat k + 1) (total_batches chunks) = Rejected e ->
    (forall j, (j < k)%nat ->
       exists s,
         summarizeBatch completion (coalesceChunks (batch_of chunks j))
           (Z.of_nat j + 1) (total_batches chunks) = Resolved s) ->
    generateDocumentSummary Error completion fetch_chunks
      documentId documentName
    = Some (Rejected e).
Proof.
  intros documentId documentName chunks k e Hfetch Hk Hfail Hbefore.
  pose proof (total_batches_nonneg chunks) as Htotal.
  unfold generateDocumentSummary. rewrite Hfetch.
  destruct chunks as [|c chunks].
  - unfold total_batches in Hk. simpl in Hk. vm_compute in Hk.
    destruct k; discriminate Hk.
  - change 0 with (Z.of_nat 0 * CHUNKS_PER_BATCH).
    rewrite (summary_loop_rejected (c :: chunks) k e Hk Hfail
               (List.length (c :: chunks)) 0%nat []).
    + reflexivity.
    + lia.
    + lia.
    + intros j' Hj'. apply Hbefore. lia.
Qed.

End Script.

Lemma generateDocumentSummary_map_reduce_witness :
  generateDocumentSummary (fun m => m) constant_model two_chunks
    (lit "d1") (lit "Report")
  = Some (combineSummaries constant_model
            (map (fun _ => lit "A summary.")
               (seq 0 (Z.to_nat
                  (total_batches
                     [ {| chunk_text := lit "first" |};
                       {| chunk_text := lit "second" |} ]))))
            (lit "Report")) /\
  List.concat
    (map (batch_of [ {| chunk_text := lit "first" |};
                     {| chunk_text := lit "second" |} ])
       (seq 0 (Z.to_nat
          (total_batches
             [ {| chunk_text := lit "first" |};
               {| chunk_text := lit "second" |} ]))))
  = [ {| chunk_text := lit "first" |}; {| chunk_text := lit "second" |} ] /\
  forall j,
    Z.of_nat j
    < total_batches [ {| chunk_text := lit "first" |};
                      {| chunk_text := lit "second" |} ] ->
    (0 < List.length
           (batch_of [ {| chunk_text := lit "first" |};
                       {| chunk_text := lit "second" |} ] j) <= 200)%nat.
Proof.
  apply (generateDocumentSummary_map_reduce jsstring (fun m => m)
           constant_model two_chunks (lit "d1") (lit "Report")
           [ {| chunk_text := lit "first" |}; {| chunk_text := lit "second" |} ]
           (fun _ => lit "A summary.")).
  - reflexivity.
  - discriminate.
  - intros j _. reflexivity.
Defined.

Lemma generateDocumentSummary_batch_failure_witness :
  generateDocumentSummary (fun m => m) failing_model two_chunks
    (lit "d1") (lit "Report")
  = Some (Rejected (lit "rate limit")).
Proof.
  apply (generateDocumentSummary_batch_failure jsstring (fun m => m)
           failing_model two_chunks (lit "d1") (lit "Report")
           [ {| chunk_text := lit "first" |}; {| chunk_text := lit "second" |} ]
           0%nat (lit "rate limit")).
  - reflexivity.
  - reflexivity.
  - reflexivity.
  - intros j Hj. lia.
Defined.

End DocumentSummaryFacts.

(* ================================================================== *)
(** * Chat route: what the search call returns *)

Module ChatRouteFacts.
Import JS JSFacts Rows HybridSearch SearchGuarantees ChatRoute.

Section Database.
Variable vector : Type.
Variable cosine_distance : vector -> vector -> Q.
Variable ts_parse : jsstring -> list jsstring.
Variable lexize : jsstring -> option lexeme.
Variable ts_rank_cd : tsvector -> tsquery -> Z -> Q.
Variable documents : list (document vector).
Variable document_chunks : list (document_chunk vector).

Lemma search_route_rows (with_ds : bool)
    (relevant_doc_ids : option (list uuid))
    (message : jsstring) (queryEmbedding : vector) (companyId : uuid)
    (bm25_weight vector_weight : Q) :
  exists rows,
    search cosine_distance ts_parse lexize ts_rank_cd documents document_chunks
      with_ds relevant_doc_ids message queryEmbedding (5 # 10) 5
      (Some companyId) bm25_weight vector_weight = Some rows /\
    rows_of_company documents document_chunks companyId rows /\
    ranked_and_cut 5 bm25_weight vector_weight rows.
Proof.
  destruct (SearchGuaranteesFacts.search_of_company vector cosine_distance
              ts_parse lexize ts_rank_cd documents document_chunks
              with_ds relevant_doc_ids message queryEmbedding (5 # 10) 5
              companyId bm25_weight vector_weight ltac:(lia))
    as [rows [Hrows Hcompany]].
  destruct (SearchGuaranteesFacts.search_ranked vector cosine_distance
              ts_parse lexize ts_rank_cd documents document_chunks
              with_ds relevant_doc_ids message queryEmbedding (5 # 10) 5
              (Some companyId) bm25_weight vector_weight ltac:(lia))
    as [rows' [Hrows' Hranked]].
  assert (rows' = rows) as -> by congruence.
  now exists rows.
Qed.

(** X27: Whatever the two switches, the chat route gets at most five rows,
    all of them chunks of documents of the company of the request; with
    BM25 switched off the combined score of a row is its vector score
    and the rows come with the most similar chunk first. *)
Theorem relevantChunks_of_route :
  forall (useDocumentEmbeddings useBM25 : bool) (message : jsstring)
         (queryEmbedding : vector) (companyId : uuid),
    exists rows,
      relevantChunks cosine_distance ts_parse lexize ts_rank_cd
        documents document_chunks useDocumentEmbeddings useBM25
        message queryEmbedding companyId = Some rows /\
      (List.length rows <= 5)%nat /\
      rows_of_company documents document_chunks companyId rows /\
      (useBM25 = false ->
       (forall r, In r rows -> (combined_score r == vector_score r)%Q) /\
       StronglySorted (fun a b => (vector_score b <= vector_score a)%Q) rows).
Proof.
  intros useDoc useBM25 message q companyId.
  assert (exists rows,
            relevantChunks cosine_distance ts_parse lexize ts_rank_cd
              documents document_chunks useDoc useBM25 message q companyId
            = Some rows /\
            rows_of_company documents document_chunks companyId rows /\
            ranked_and_cut 5 (if useBM25 then (3 # 10) else 0)%Q
              (if useBM25 then (7 # 10) else 1)%Q rows)
    as [rows [Hrows [Hcompany [Hlen [Hsorted Hscore]]]]].
  { unfold relevantChunks, smart_hybrid_search, hybrid_search_simple.
    destruct useDoc; apply search_route_rows. }
  exists rows. split; [exact Hrows|]. split; [lia|].
  split; [exact Hcompany|].
  intros ->.
  assert (forall r, In r rows -> (combined_score r == vector_score r)%Q)
    as Heq.
  { intros r Hr. rewrite (Hscore r Hr). ring. }
  split; [exact Heq|].
  clear Hrows Hcompany Hlen Hscore.
  induction Hsorted as [|r rows Hsorted IH Hall]; constructor.
  - apply IH. intros r' Hr'. apply Heq. now right.
  - rewrite Forall_forall in *. intros r' Hr'.
    rewrite <- (Heq r (or_introl eq_refl)), <- (Heq r' (or_intror Hr')).
    now apply Hall.
Qed.

End Database.

End ChatRouteFacts.
